(** * terminal_browser.c: a shallow embedding and its verified properties

    The development follows the pipeline of [terminal_browser.c]:
    the byte source ([fetch_url]), the preprocessor
    ([sanitize_ascii_inplace], [strip_script_style_meta]), the tree
    builder ([parse_attrs], [parse_html_tree]) and the release of its
    tree ([node_free_recursive]), the renderer ([render_wrapped_text],
    [render_code_block], [render_table_node], [render_node_recursive],
    [render_document]) and the event loop of [main] (scrolling, reload,
    fetch failure), first by its results, then with the calls it
    makes.

    Conventions.
    - A C string is the list of its bytes before the terminating NUL.
    - [size_t] indices are [nat]; [int] values are [Z] (no input short of
      2^31 bytes makes them wrap).
    - The [Node] graph lives in a store ([heap]); a [Node*] is an index
      into it, so the builder's stack aliases nodes exactly as in C.
    - Loops whose termination is not structural carry fuel; each comes
      with a lemma saying how much fuel is enough, or showing that no
      amount is. *)

From Stdlib Require Import ZArith Ascii String Lia Bool DecimalString.
From stdpp Require Import base list.

Open Scope char_scope.

(** ** C strings and <ctype.h> in the C locale *)

Abbreviation cstr := (list ascii).

Definition lit (s : string) : cstr := list_ascii_of_string s.
Arguments lit s%_string.

Definition in_range (lo hi c : ascii) : bool :=
  (N_of_ascii lo <=? N_of_ascii c)%N && (N_of_ascii c <=? N_of_ascii hi)%N.

Definition isdigit (c : ascii) : bool := in_range "0" "9" c.
Definition isupper (c : ascii) : bool := in_range "A" "Z" c.
Definition islower (c : ascii) : bool := in_range "a" "z" c.
Definition isalnum (c : ascii) : bool := isupper c || islower c || isdigit c.

(** space, \t, \n, \v, \f, \r *)
Definition isspace (c : ascii) : bool := (c =? " ") || in_range "009" "013" c.

Definition tolower (c : ascii) : ascii :=
  if isupper c then ascii_of_N (N_of_ascii c + 32) else c.

Fixpoint cstr_eqb (a b : cstr) : bool :=
  match a, b with
  | [], [] => true
  | x :: a', y :: b' => (x =? y) && cstr_eqb a' b'
  | _, _ => false
  end.

(** [strcmp(s, "...") == 0] against a literal *)
Definition streq (s : cstr) (l : string) : bool := cstr_eqb s (lit l).
Arguments streq s l%_string.

Fixpoint take_while (P : ascii -> bool) (s : cstr) : cstr :=
  match s with
  | c :: s' => if P c then c :: take_while P s' else []
  | [] => []
  end.

Fixpoint drop_while (P : ascii -> bool) (s : cstr) : cstr :=
  match s with
  | c :: s' => if P c then drop_while P s' else s
  | [] => []
  end.

(** [strncmp(s, pat, strlen(pat)) == 0] *)
Fixpoint strncmp_eq (s pat : cstr) {struct pat} : bool :=
  match pat, s with
  | [], _ => true
  | p :: pat', c :: s' => (c =? p) && strncmp_eq s' pat'
  | _ :: _, [] => false
  end.

(** [strncasecmp(s, pat, strlen(pat)) == 0] *)
Fixpoint strncasecmp_eq (s pat : cstr) {struct pat} : bool :=
  match pat, s with
  | [], _ => true
  | p :: pat', c :: s' => (tolower c =? tolower p) && strncasecmp_eq s' pat'
  | _ :: _, [] => false
  end.

(** [strstr(hay, needle)] as the offset of the first occurrence. *)
Fixpoint strstr (hay needle : cstr) : option nat :=
  if strncmp_eq hay needle then Some 0
  else match hay with
       | [] => None
       | _ :: hay' => S <$> strstr hay' needle
       end.

(** [strchr(s, c)] as an offset. *)
Fixpoint strchr (s : cstr) (c : ascii) : option nat :=
  match s with
  | [] => None
  | x :: s' => if x =? c then Some 0 else S <$> strchr s' c
  end.

(** [strcasestr_local]: the outer loop visits every non-empty suffix
    [p]; the inner loop counts matching bytes and succeeds when it has
    matched all [nlen] of them. *)
Fixpoint strcasestr_scan (hay needle : cstr) : option nat :=
  match hay with
  | [] => None
  | _ :: hay' =>
      if strncasecmp_eq hay needle then Some 0
      else S <$> strcasestr_scan hay' needle
  end.

Definition strcasestr (hay needle : cstr) : option nat :=
  match needle with
  | [] => Some 0
  | _ => strcasestr_scan hay needle
  end.

(** ** Preprocessor *)

Definition sanitize_byte (c : ascii) : ascii :=
  if (128 <=? N_of_ascii c)%N then "?"
  else if (N_of_ascii c <? 32)%N
          && negb (c =? "010") && negb (c =? "009") && negb (c =? "013")
       then " "
       else c.

Definition sanitize_ascii_inplace (buf : cstr) : cstr := map sanitize_byte buf.

Definition is_script_tag (src : cstr) (i n : nat) : bool :=
  (i + 8 <? n)%nat
  && (strncasecmp_eq (drop (i + 1) src) (lit "script")
      || strncasecmp_eq (drop (i + 1) src) (lit "/script")).

Definition is_style_tag (src : cstr) (i n : nat) : bool :=
  (i + 7 <? n)%nat
  && (strncasecmp_eq (drop (i + 1) src) (lit "style")
      || strncasecmp_eq (drop (i + 1) src) (lit "/style")).

Definition is_meta_link_tag (src : cstr) (i n : nat) : bool :=
  (i + 5 <? n)%nat
  && (strncasecmp_eq (drop (i + 1) src) (lit "meta")
      || strncasecmp_eq (drop (i + 1) src) (lit "link")).

(** What the body of the [for] loop does at index [i], where it reads
    the byte [c]. *)
Inductive strip_action :=
  | SkipTo (next : nat)   (* [i = ...; continue;] then the loop's [i++] *)
  | StopHere              (* [break;] *)
  | CopyByte (c : ascii). (* [out[o++] = src[i];] *)

(** After [i = e + 8 - 1; continue] the loop's own [i++] runs, so the
    next index read is [e + 8] (and [e + 7] for style, [g + 1] for
    meta and link). *)
Definition strip_at (src : cstr) (i : nat) (c : ascii) : strip_action :=
  let n := length src in
  if c =? "<" then
    if is_script_tag src i n then
      match strcasestr (drop i src) (lit "</script>") with
      | Some e => SkipTo (i + e + 8 - 1 + 1)
      | None => StopHere
      end
    else if is_style_tag src i n then
      match strcasestr (drop i src) (lit "</style>") with
      | Some e => SkipTo (i + e + 7 - 1 + 1)
      | None => StopHere
      end
    else if is_meta_link_tag src i n then
      match strchr (drop i src) ">" with
      | Some g => SkipTo (i + g + 1)
      | None => CopyByte c
      end
    else CopyByte c
  else CopyByte c.

(** The [for] loop of [strip_script_style_meta] from index [i] with
    the bytes written so far in [out]. *)
Fixpoint strip_loop (fuel : nat) (src : cstr) (i : nat) (out : cstr) : cstr :=
  match fuel with
  | 0 => out
  | S fuel' =>
      match src !! i with
      | None => out                                    (* [i < n] fails *)
      | Some c =>
          match strip_at src i c with
          | SkipTo next => strip_loop fuel' src next out
          | StopHere => out
          | CopyByte b => strip_loop fuel' src (i + 1) (out ++ [b])
          end
      end
  end.

(** Every iteration advances [i], so [strlen(src)] iterations suffice
    (lemma [strip_loop_fuel] below). *)
Definition strip_script_style_meta (src : cstr) : cstr :=
  strip_loop (length src) src 0 [].

(** ** Data structures *)

Inductive NodeType :=
  | NODE_TEXT | NODE_BR | NODE_HR
  | NODE_DIV            (* also used for unknown/transparent containers *)
  | NODE_HEADER         (* h1..h6 *)
  | NODE_PARAGRAPH | NODE_PRE | NODE_CODE
  | NODE_BOLD | NODE_ITALIC | NODE_MARK | NODE_UNDER | NODE_STRIKE
  | NODE_BLOCKQUOTE
  | NODE_UL | NODE_OL | NODE_LI
  | NODE_DL | NODE_DT | NODE_DD
  | NODE_IMG | NODE_FIGURE | NODE_FIGCAP
  | NODE_DETAILS | NODE_SUMMARY
  | NODE_TABLE | NODE_TR | NODE_TD | NODE_TH
  | NODE_A
  | NODE_FORM | NODE_INPUT | NODE_TEXTAREA | NODE_SELECT | NODE_BUTTON
  | NODE_MAIN | NODE_HEADERBAR | NODE_FOOTER.

Definition NodeType_eqb (a b : NodeType) : bool :=
  match a, b with
  | NODE_TEXT, NODE_TEXT | NODE_BR, NODE_BR | NODE_HR, NODE_HR
  | NODE_DIV, NODE_DIV | NODE_HEADER, NODE_HEADER
  | NODE_PARAGRAPH, NODE_PARAGRAPH | NODE_PRE, NODE_PRE | NODE_CODE, NODE_CODE
  | NODE_BOLD, NODE_BOLD | NODE_ITALIC, NODE_ITALIC | NODE_MARK, NODE_MARK
  | NODE_UNDER, NODE_UNDER | NODE_STRIKE, NODE_STRIKE
  | NODE_BLOCKQUOTE, NODE_BLOCKQUOTE
  | NODE_UL, NODE_UL | NODE_OL, NODE_OL | NODE_LI, NODE_LI
  | NODE_DL, NODE_DL | NODE_DT, NODE_DT | NODE_DD, NODE_DD
  | NODE_IMG, NODE_IMG | NODE_FIGURE, NODE_FIGURE | NODE_FIGCAP, NODE_FIGCAP
  | NODE_DETAILS, NODE_DETAILS | NODE_SUMMARY, NODE_SUMMARY
  | NODE_TABLE, NODE_TABLE | NODE_TR, NODE_TR | NODE_TD, NODE_TD
  | NODE_TH, NODE_TH | NODE_A, NODE_A
  | NODE_FORM, NODE_FORM | NODE_INPUT, NODE_INPUT
  | NODE_TEXTAREA, NODE_TEXTAREA | NODE_SELECT, NODE_SELECT
  | NODE_BUTTON, NODE_BUTTON
  | NODE_MAIN, NODE_MAIN | NODE_HEADERBAR, NODE_HEADERBAR
  | NODE_FOOTER, NODE_FOOTER => true
  | _, _ => false
  end.

(** The [next]-linked list of [Attr] is a list of name/value pairs. *)
Record Attr := { attr_name : cstr; attr_value : cstr }.

(** A [Node*]: the index of the node in the store. *)
Abbreviation ptr := nat (only parsing).

(** [children]/[child_count] are one list ([child_cap] only drives
    [realloc]); [text] and [parent] may be NULL. *)
Record Node := {
  type : NodeType;
  text : option cstr;
  attrs : list Attr;
  children : list ptr;
  parent : option ptr;
  expanded : Z;
  list_number : Z
}.

Abbreviation heap := (list Node).

Definition fresh_node (t : NodeType) : Node :=
  {| type := t; text := None; attrs := []; children := []; parent := None;
     expanded := 0; list_number := 0 |}.

#[global] Instance Node_inhabited : Inhabited Node := populate (fresh_node NODE_DIV).

Definition with_children (f : list ptr -> list ptr) (n : Node) : Node :=
  {| type := type n; text := text n; attrs := attrs n;
     children := f (children n); parent := parent n;
     expanded := expanded n; list_number := list_number n |}.

Definition with_parent (p : option ptr) (n : Node) : Node :=
  {| type := type n; text := text n; attrs := attrs n;
     children := children n; parent := p;
     expanded := expanded n; list_number := list_number n |}.

Definition with_attrs (a : list Attr) (n : Node) : Node :=
  {| type := type n; text := text n; attrs := a;
     children := children n; parent := parent n;
     expanded := expanded n; list_number := list_number n |}.

Definition with_text (t : option cstr) (n : Node) : Node :=
  {| type := type n; text := t; attrs := attrs n;
     children := children n; parent := parent n;
     expanded := expanded n; list_number := list_number n |}.

(** [node_create]: the new node is allocated at the end of the store. *)
Definition node_create (t : NodeType) (h : heap) : heap * ptr :=
  (h ++ [fresh_node t], length h).

(** [node_append_child]: [parent->children[child_count++] = child;
    child->parent = parent]. *)
Definition node_append_child (parent child : ptr) (h : heap) : heap :=
  alter (with_parent (Some parent)) child
    (alter (with_children (fun cs => cs ++ [child])) parent h).

(** [attr_get_value]: first attribute whose name matches, ignoring case. *)
Fixpoint attr_get_value (a : list Attr) (name : cstr) : option cstr :=
  match a with
  | [] => None
  | p :: a' =>
      if cstr_eqb (map tolower (attr_name p)) (map tolower name)
      then Some (attr_value p)
      else attr_get_value a' name
  end.

(** ** parse_attrs *)

Definition is_name_char (c : ascii) : bool := isalnum c || (c =? "-") || (c =? ":").

Definition is_quote (c : ascii) : bool := (c =? "034") || (c =? "'").

(** One round of the [while] loop over [p]: [None] when the loop ends
    ([break] or no attribute name), else the attribute and the rest. *)
Definition parse_attr (p : cstr) : option (Attr * cstr) :=
  let p := drop_while isspace p in
  match p with
  | [] => None
  | _ =>
      let name := take 127 (take_while is_name_char p) in
      let p := drop (length name) p in
      let p := drop_while isspace p in
      let p := match p with "=" :: p' => p' | _ => p end in
      let p := drop_while isspace p in
      let '(value, p) :=
        match p with
        | q :: p' =>
            if is_quote q then
              let v := take 511 (take_while (fun c => negb (c =? q)) p') in
              let p'' := drop (length v) p' in
              (v, match p'' with
                  | c :: r => if c =? q then r else p''
                  | [] => p''
                  end)
            else
              let v := take 511 (take_while
                         (fun c => negb (isspace c) && negb (c =? ">")) p) in
              (v, drop (length v) p)
        | [] => ([], [])
        end in
      match name with
      | [] => None
      | _ => Some ({| attr_name := name; attr_value := value |}, p)
      end
  end.

Fixpoint parse_attrs_loop (fuel : nat) (p : cstr) : list Attr :=
  match fuel with
  | 0 => []
  | S fuel' =>
      match parse_attr p with
      | None => []
      | Some (a, p') => a :: parse_attrs_loop fuel' p'
      end
  end.

(** Every attribute consumes at least the first byte of its name. *)
Definition parse_attrs (s : cstr) : list Attr := parse_attrs_loop (length s) s.

(** ** parse_html_tree *)

(** The [switch] of the closing-tag loop: does a node of type [t] match
    the closing name [tag]? *)
Definition accepts_close (t : NodeType) (tag : cstr) : bool :=
  match t with
  | NODE_DIV => streq tag "div"
  | NODE_MAIN => streq tag "main"
  | NODE_HEADERBAR => streq tag "header"
  | NODE_FOOTER => streq tag "footer"
  | NODE_HEADER => match tag with c :: _ => c =? "h" | [] => false end
  | NODE_PARAGRAPH => streq tag "p"
  | NODE_PRE => streq tag "pre"
  | NODE_CODE => streq tag "code"
  | NODE_BLOCKQUOTE => streq tag "blockquote" || streq tag "q"
  | NODE_UL => streq tag "ul"
  | NODE_OL => streq tag "ol"
  | NODE_LI => streq tag "li"
  | NODE_TABLE => streq tag "table"
  | NODE_TR => streq tag "tr"
  | NODE_TD => streq tag "td"
  | NODE_TH => streq tag "th"
  | NODE_A => streq tag "a"
  | NODE_DETAILS => streq tag "details"
  | NODE_SUMMARY => streq tag "summary"
  | NODE_FIGURE => streq tag "figure"
  | NODE_FIGCAP => streq tag "figcaption"
  | _ => false
  end.

(** [for(int i = sp-1; i > 0; --i)] entered at [i]: the index of the
    first matching entry, if any.  Index 0 (the root) is never read. *)
Fixpoint close_scan (h : heap) (stack : list ptr) (tag : cstr) (i : nat)
  : option nat :=
  match i with
  | 0 => None
  | S j =>
      if accepts_close (type (h !!! (stack !!! i))) tag then Some i
      else close_scan h stack tag j
  end.

(** The closing-tag branch: [if(match) { sp = i; break; }]. *)
Definition close_tag (h : heap) (stack : list ptr) (tag : cstr) : list ptr :=
  match close_scan h stack tag (length stack - 1) with
  | Some i => take i stack
  | None => stack
  end.

(** The chain of [strcmp]s of the opening-tag branch, in source order:
    the node type, whether [parse_attrs] is stored, and whether the node
    is pushed.  [None] is the final [else]. *)
Definition classify_open (tag : cstr) : option (NodeType * bool * bool) :=
  if streq tag "br" then Some (NODE_BR, false, false)
  else if streq tag "hr" then Some (NODE_HR, false, false)
  else if streq tag "div" then Some (NODE_DIV, true, true)
  else if streq tag "main" then Some (NODE_MAIN, true, true)
  else if match tag with
          | c0 :: c1 :: _ => (c0 =? "h") && isdigit c1
          | _ => false
          end then Some (NODE_HEADER, true, true)
  else if streq tag "p" then Some (NODE_PARAGRAPH, true, true)
  else if streq tag "pre" then Some (NODE_PRE, true, true)
  else if streq tag "code" then Some (NODE_CODE, true, true)
  else if streq tag "blockquote" || streq tag "q"
       then Some (NODE_BLOCKQUOTE, true, true)
  else if streq tag "ul" then Some (NODE_UL, false, true)
  else if streq tag "ol" then Some (NODE_OL, true, true)
  else if streq tag "li" then Some (NODE_LI, false, true)
  else if streq tag "dl" then Some (NODE_DL, false, true)
  else if streq tag "dt" then Some (NODE_DT, false, true)
  else if streq tag "dd" then Some (NODE_DD, false, true)
  else if streq tag "figure" then Some (NODE_FIGURE, false, true)
  else if streq tag "figcaption" then Some (NODE_FIGCAP, false, true)
  else if streq tag "details" then Some (NODE_DETAILS, true, true)
  else if streq tag "summary" then Some (NODE_SUMMARY, false, true)
  else if streq tag "table" then Some (NODE_TABLE, false, true)
  else if streq tag "tr" then Some (NODE_TR, false, true)
  else if streq tag "td" then Some (NODE_TD, false, true)
  else if streq tag "th" then Some (NODE_TH, false, true)
  else if streq tag "a" then Some (NODE_A, true, true)
  else if streq tag "img" then Some (NODE_IMG, true, false)
  else if streq tag "form" then Some (NODE_FORM, true, true)
  else if streq tag "input" then Some (NODE_INPUT, true, false)
  else if streq tag "textarea" then Some (NODE_TEXTAREA, true, true)
  else if streq tag "select" then Some (NODE_SELECT, true, true)
  else if streq tag "button" then Some (NODE_BUTTON, true, false)
  else if streq tag "header" then Some (NODE_HEADERBAR, false, true)
  else if streq tag "footer" then Some (NODE_FOOTER, false, true)
  else if streq tag "strong" || streq tag "b" then Some (NODE_BOLD, false, true)
  else if streq tag "em" || streq tag "i" || streq tag "cite"
          || streq tag "dfn" || streq tag "address"
       then Some (NODE_ITALIC, false, true)
  else if streq tag "mark" then Some (NODE_MARK, false, true)
  else if streq tag "u" || streq tag "ins" || streq tag "abbr"
       then Some (NODE_UNDER, false, true)
  else if streq tag "del" then Some (NODE_STRIKE, false, true)
  else if streq tag "samp" then Some (NODE_CODE, false, true)
  else None.

(** [Node **stack = xmalloc(sizeof(Node* ) * 4096)] *)
Definition STACK_SLOTS : nat := 4096.

(** The opening-tag branch.  Unknown names become a transparent
    [NODE_DIV] container with attributes, pushed like any container.
    [stack[sp++] = node] with [sp = 4096] writes past the allocation:
    the result is [None] (undefined behaviour). *)
Definition open_tag (h : heap) (stack : list ptr) (tag attrs_sub : cstr)
  : option (heap * list ptr) :=
  let '(t, stores_attrs, pushes) :=
    match classify_open tag with
    | Some k => k
    | None => (NODE_DIV, true, true)
    end in
  let '(h, node) := node_create t h in
  let h := if stores_attrs
           then alter (with_attrs (parse_attrs attrs_sub)) node h
           else h in
  let h := node_append_child (stack !!! (length stack - 1)) node h in
  if pushes then
    if (length stack <? STACK_SLOTS)%nat then Some (h, stack ++ [node])
    else None
  else Some (h, stack).

(** The whitespace-collapsing loop of the text branch: [\r] is skipped,
    [\n] and [\t] count as a space, a space is written only when the
    previous byte kept was not one. *)
Fixpoint collapse_loop (chunk : cstr) (last_space : bool) (out : cstr) : cstr :=
  match chunk with
  | [] => out
  | ch :: rest =>
      if ch =? "013" then collapse_loop rest last_space out
      else
        let ch := if (ch =? "010") || (ch =? "009") then " " else ch in
        if isspace ch then
          if last_space then collapse_loop rest true out
          else collapse_loop rest true (out ++ [" "])
        else collapse_loop rest false (out ++ [ch])
  end.

(** [while(oi > 0 && out[oi-1] == ' ') oi--;] on the reversed buffer. *)
Definition trim_trailing_spaces (out : cstr) : cstr :=
  rev (drop_while (fun c => c =? " ") (rev out)).

Definition collapse_whitespace (chunk : cstr) : cstr :=
  trim_trailing_spaces (collapse_loop chunk false []).

(** The text branch: [chunk] is appended under [stack[sp-1]], verbatim
    below [NODE_PRE]/[NODE_CODE], collapsed (and dropped when nothing is
    left) elsewhere. *)
Definition add_text (h : heap) (stack : list ptr) (chunk : cstr) : heap :=
  let parent := stack !!! (length stack - 1) in
  let verbatim :=
    match type (h !!! parent) with
    | NODE_PRE | NODE_CODE => true
    | _ => false
    end in
  let out := if verbatim then chunk else collapse_whitespace chunk in
  match chunk, verbatim, out with
  | [], _, _ => h                       (* [if(chunklen > 0)] *)
  | _, false, [] => h                   (* [if(oi > 0) ... else free(out)] *)
  | _, _, _ =>
      let '(h, tn) := node_create NODE_TEXT h in
      let h := alter (with_text (Some out)) tn h in
      node_append_child parent tn h
  end.

(** The builder's variables: [pos], the store, and [stack[0..sp)]. *)
Record pstate := { ps_pos : nat; ps_heap : heap; ps_stack : list ptr }.

(** How one pass through the body of [while(pos < len)] ends. *)
Inductive step_result :=
  | Next (s : pstate)            (* back to the loop test *)
  | EndOfInput (s : pstate)      (* the loop test [pos < len] fails *)
  | UnterminatedTag (s : pstate) (* [if(gt >= len) break;] *)
  | StackOverflow.               (* [stack[4096]] written *)

(** [tag]: at most 63 bytes of name, lower-cased. *)
Definition is_tag_char (c : ascii) : bool := isalnum c || (c =? "-").

(** [closing] is set, and the slash skipped, when [p] starts with one. *)
Definition closing_mark (p : cstr) : bool * cstr :=
  match p with
  | "/" :: p' => (true, p')
  | _ => (false, p)
  end.

Definition parse_step (html : cstr) (s : pstate) : step_result :=
  let len := length html in
  let pos := ps_pos s in
  match html !! pos with
  | None => EndOfInput s
  | Some c =>
      if c =? "<" then
        let gt := pos + 1
                  + length (take_while (fun c => negb (c =? ">"))
                                       (drop (pos + 1) html)) in
        if (len <=? gt)%nat then UnterminatedTag s
        else
          let inside := take (gt - (pos + 1)) (drop (pos + 1) html) in
          if strncmp_eq inside (lit "!--") then
            match strstr (drop (pos + 4) html) (lit "-->") with
            | Some e =>
                Next {| ps_pos := pos + 4 + e + 3;
                        ps_heap := ps_heap s; ps_stack := ps_stack s |}
            | None => Next s
            end
          else
            let p := drop_while isspace inside in
            let '(closing, p) := closing_mark p in
            let name := take 63 (take_while is_tag_char p) in
            let tag := map tolower name in
            let attrs_sub := take 511 (drop (length name) p) in
            if closing then
              Next {| ps_pos := gt + 1; ps_heap := ps_heap s;
                      ps_stack := close_tag (ps_heap s) (ps_stack s) tag |}
            else
              match open_tag (ps_heap s) (ps_stack s) tag attrs_sub with
              | Some (h, st) =>
                  Next {| ps_pos := gt + 1; ps_heap := h; ps_stack := st |}
              | None => StackOverflow
              end
      else
        let chunk := take_while (fun c => negb (c =? "<")) (drop pos html) in
        Next {| ps_pos := pos + length chunk;
                ps_heap := add_text (ps_heap s) (ps_stack s) chunk;
                ps_stack := ps_stack s |}
  end.

(** How a run of the loop ends; [OutOfFuel] is not an outcome of the C
    code but of the bound on iterations. *)
Inductive parse_result :=
  | Returned (root : ptr) (h : heap) (final : pstate) (truncated : bool)
  | Undefined
  | OutOfFuel.

Fixpoint parse_loop (fuel : nat) (html : cstr) (s : pstate) : parse_result :=
  match fuel with
  | 0 => OutOfFuel
  | S fuel' =>
      match parse_step html s with
      | Next s' => parse_loop fuel' html s'
      | EndOfInput s' => Returned 0 (ps_heap s') s' false
      | UnterminatedTag s' => Returned 0 (ps_heap s') s' true
      | StackOverflow => Undefined
      end
  end.

(** [root = node_create(NODE_DIV); stack[sp++] = root;] *)
Definition parse_init : pstate :=
  let '(h, root) := node_create NODE_DIV [] in
  {| ps_pos := 0; ps_heap := h; ps_stack := [root] |}.

Definition parse_html_tree_fuel (fuel : nat) (html : cstr) : parse_result :=
  parse_loop fuel html parse_init.

(** An iteration that moves [pos] moves it forward, and [pos] never
    passes [len]; [strlen(html) + 1] iterations therefore decide whether
    the loop ends (lemma [parse_loop_decided] below). *)
Definition parse_html_tree (html : cstr) : parse_result :=
  parse_html_tree_fuel (S (length html)) html.

(** ** Rendering *)

(** Writes to the pad, in program order: [mvwaddch] puts one byte,
    [mvwaddstr] stands for [mvwaddnstr] and [mvwprintw] with the text
    they produce. *)
Inductive draw :=
  | mvwaddch (y x : Z) (c : ascii)
  | mvwaddstr (y x : Z) (s : cstr).

Definition draw_row (d : draw) : Z :=
  match d with mvwaddch y _ _ | mvwaddstr y _ _ => y end.

Definition draw_col (d : draw) : Z :=
  match d with mvwaddch _ x _ | mvwaddstr _ x _ => x end.

Definition draw_width (d : draw) : Z :=
  match d with
  | mvwaddch _ _ _ => 1
  | mvwaddstr _ _ s => Z.of_nat (length s)
  end.

Definition is_transparent (t : NodeType) : bool :=
  match t with
  | NODE_DIV | NODE_MAIN | NODE_HEADERBAR | NODE_FOOTER => true
  | _ => false
  end.

(** *** render_wrapped_text *)

(** [char word[1024]]: a byte is stored only while [wi + 1 < 1024]. *)
Definition word_push (word : cstr) (c : ascii) : cstr :=
  if (length word + 1 <? 1024)%nat then word ++ [c] else word.

(** The inter-word space: written if it fits, else a wrap. *)
Definition wrap_space (W indent y curx : Z) : Z * Z * list draw :=
  if (curx + 1 >=? W)%Z then ((y + 1)%Z, indent, [])
  else (y, (curx + 1)%Z, [mvwaddch y curx " "]).

(** A completed word: wrap first when [curx + wi >= g_term_w]. *)
Definition wrap_word (W indent y curx : Z) (word : cstr) : Z * Z * list draw :=
  let wi := Z.of_nat (length word) in
  let '(y, curx) := if (curx + wi >=? W)%Z then ((y + 1)%Z, indent)
                    else (y, curx) in
  (y, (curx + wi)%Z, [mvwaddstr y curx word]).

(** The loop [for(i = 0; i <= len; i++)]; the empty list is the
    terminating NUL read at [i = len]. *)
Fixpoint wrap_loop (W indent : Z) (txt : cstr) (y curx : Z) (word : cstr)
  : Z * list draw :=
  match txt with
  | [] =>
      match word with
      | [] => (y, [])
      | _ => let '(y, _, ds) := wrap_word W indent y curx word in (y, ds)
      end
  | c :: rest =>
      if c =? " " then
        match word with
        | [] =>
            let '(y, curx, ds) := wrap_space W indent y curx in
            let '(y', ds') := wrap_loop W indent rest y curx [] in
            (y', ds ++ ds')
        | _ =>
            let '(y, curx, ds1) := wrap_word W indent y curx word in
            let '(y, curx, ds2) := wrap_space W indent y curx in
            let '(y', ds') := wrap_loop W indent rest y curx [] in
            (y', ds1 ++ ds2 ++ ds')
        end
      else wrap_loop W indent rest y curx (word_push word c)
  end.

(** [render_wrapped_text(&y, indent, txt, ...)] with [g_term_w = W]:
    the new [*y] and the writes.  The style arguments only switch
    attributes on and off around the writes. *)
Definition render_wrapped_text (W : Z) (y indent : Z) (txt : cstr)
  : Z * list draw :=
  let '(y', ds) := wrap_loop W indent txt y indent [] in
  ((y' + 1)%Z, ds).

(** *** render_table_node *)

Definition is_cell_type (t : NodeType) : bool :=
  match t with NODE_TD | NODE_TH => true | _ => false end.

(** The text children of a cell joined with single spaces ([buf]). *)
Definition cell_text (h : heap) (cnode : ptr) : cstr :=
  fold_left
    (fun buf t =>
       match type (h !!! t), text (h !!! t) with
       | NODE_TEXT, Some s =>
           (match buf with [] => buf | _ => buf ++ [" "] end) ++ s
       | _, _ => buf
       end)
    (children (h !!! cnode)) [].

(** [cells[rows] = calloc(ccount+1, sizeof(char* ))]: the [ccount] cell
    buffers of the row followed by one NULL, and nothing after it. *)
Definition row_cells (h : heap) (r : ptr) : list (option cstr) :=
  map (fun c => Some (cell_text h c))
      (filter (fun c => is_cell_type (type (h !!! c)) = true)
              (children (h !!! r)))
  ++ [None].

(** First pass: the rows kept are the [NODE_TR] children with at least
    one cell. *)
Definition table_cells (h : heap) (table : ptr) : list (list (option cstr)) :=
  filter (fun row => (1 <? length row)%nat = true)
    (map (row_cells h)
       (filter (fun r => NodeType_eqb (type (h !!! r)) NODE_TR = true)
               (children (h !!! table)))).

(** [cols]: the largest [ci] over the rows. *)
Definition table_cols (cells : list (list (option cstr))) : nat :=
  fold_left (fun cols row => Nat.max cols (length row - 1)) cells 0.

(** [colw[c]]: the inner loop over [r].  [cells[r][c]] with
    [c > ccount] of row [r] reads outside that row's array: [None]. *)
Fixpoint col_width (cells : list (list (option cstr))) (c : nat) (mw : Z)
  : option Z :=
  match cells with
  | [] => Some mw
  | row :: rest =>
      match row !! c with
      | None => None
      | Some None => col_width rest c mw
      | Some (Some s) =>
          let L := Z.of_nat (length s) in
          col_width rest c (if (L >? mw)%Z then L else mw)
      end
  end.

Definition col_widths (cells : list (list (option cstr))) (cols : nat)
  : option (list Z) :=
  mapM (fun c => col_width cells c 1%Z) (seq 0 cols).

Fixpoint put_run (y curx : Z) (ch : ascii) (k : nat) : list draw :=
  match k with
  | 0 => []
  | S k' => mvwaddch y curx ch :: put_run y (curx + 1)%Z ch k'
  end.

(** One [+---+---+] line; [curx] is the column after the last [+]. *)
Fixpoint border_cols (y curx : Z) (colw : list Z) : list draw :=
  match colw with
  | [] => []
  | w :: rest =>
      put_run y curx "-" (Z.to_nat (w + 2))
      ++ mvwaddch y (curx + (w + 2))%Z "+"
      :: border_cols y (curx + (w + 2) + 1)%Z rest
  end.

Definition border_row (y : Z) (colw : list Z) : list draw :=
  mvwaddch y 0%Z "+" :: border_cols y 1%Z colw.

(** What [printf("%-*s", w, s)] produces. *)
Definition pad_left_justified (w : Z) (s : cstr) : cstr :=
  s ++ repeat " " (Z.to_nat w - length s).

(** The cells of one data row from column [c] on; [curx] is the column
    after the last [|]. *)
Fixpoint data_cols (y curx : Z) (row : list (option cstr)) (c : nat)
    (colw : list Z) : option (list draw) :=
  match colw with
  | [] => Some []
  | w :: rest =>
      match row !! c with
      | None => None
      | Some cell =>
          let body :=
            match cell with
            | Some s => [mvwaddstr y (curx + 1)%Z (pad_left_justified w s)]
            | None => put_run y (curx + 1)%Z " " (Z.to_nat w)
            end in
          match data_cols y (curx + 1 + w + 2)%Z row (S c) rest with
          | None => None
          | Some ds =>
              Some (mvwaddch y curx " " :: body
                    ++ mvwaddch y (curx + 1 + w)%Z " "
                    :: mvwaddch y (curx + 1 + w + 1)%Z "|" :: ds)
          end
      end
  end.

Definition data_row (y : Z) (row : list (option cstr)) (colw : list Z)
  : option (list draw) :=
  match data_cols y 1%Z row 0 colw with
  | None => None
  | Some ds => Some (mvwaddch y 0%Z "|" :: ds)
  end.

(** Second pass: a data row, then the border again, for every row. *)
Fixpoint table_rows (y : Z) (cells : list (list (option cstr)))
    (colw : list Z) : option (Z * list draw) :=
  match cells with
  | [] => Some (y, [])
  | row :: rest =>
      match data_row y row colw with
      | None => None
      | Some ds =>
          match table_rows (y + 2)%Z rest colw with
          | None => None
          | Some (y', ds') =>
              Some (y', ds ++ border_row (y + 1)%Z colw ++ ds')
          end
      end
  end.

(** Everything after the first pass: the widths, the top border, the
    rows. *)
Definition render_cells (y : Z) (cells : list (list (option cstr)))
  : option (Z * list draw) :=
  match cells with
  | [] => Some (y, [])                          (* [if(rows == 0) return;] *)
  | _ =>
      match col_widths cells (table_cols cells) with
      | None => None
      | Some colw =>
          match table_rows (y + 1)%Z cells colw with
          | None => None
          | Some (y', ds) => Some (y', border_row y colw ++ ds)
          end
      end
  end.

(** [render_table_node(&y, table)]: the new [*y] and the writes, or
    [None] when an array is read outside its bounds. *)
Definition render_table_node (y : Z) (h : heap) (table : ptr)
  : option (Z * list draw) :=
  render_cells y (table_cells h table).

(** The text of one pad row as the writes left it, for rows written
    left to right without gaps (tables). *)
Definition row_text (y : Z) (ds : list draw) : cstr :=
  flat_map (fun d =>
              if (draw_row d =? y)%Z then
                match d with
                | mvwaddch _ _ c => [c]
                | mvwaddstr _ _ s => s
                end
              else []) ds.

(** ** The event loop of main *)

Inductive key :=
  | KEY_q | KEY_r | KEY_UP | KEY_DOWN | KEY_NPAGE | KEY_PPAGE | KEY_other.

(** What the scroll keys read and write: [top_pos], and the values
    [g_pad_cur_y] and [g_term_h] fixed by the last load. *)
Record view := { top_pos : Z; g_pad_cur_y : Z; g_term_h : Z }.

Definition scroll_key (k : key) (v : view) : view :=
  let top := top_pos v in
  let H := g_pad_cur_y v in
  let V := g_term_h v in
  let set t := {| top_pos := t; g_pad_cur_y := H; g_term_h := V |} in
  match k with
  | KEY_UP => if (top >? 0)%Z then set (top - 1)%Z else v
  | KEY_DOWN => if (top + V <? H)%Z then set (top + 1)%Z else v
  | KEY_NPAGE =>
      let t := (top + (V - 2))%Z in
      let t := if (t + V >? H)%Z then (H - V)%Z else t in
      let t := if (t <? 0)%Z then 0%Z else t in
      set t
  | KEY_PPAGE =>
      let t := (top - (V - 2))%Z in
      let t := if (t <? 0)%Z then 0%Z else t in
      set t
  | _ => v
  end.

(** What the environment hands to one pass through [if(need_load)]:
    the buffer returned by [fetch_url] (or the copy of the built-in
    page), NULL on failure, and the terminal size read by [getmaxyx]. *)
Record load_env := { raw : option cstr; term_h : Z; term_w : Z }.

(** The tree held in [root] (NULL or a parsed store) and the view. *)
Record session := { root : option heap; vw : view }.

Inductive load_result :=
  | Loaded (s : session)
  | FetchFailed (held : option heap)  (* [endwin(); ...; return 1;] *)
  | ParseUndefined
  | ParseHangs.

(** How [main] stands when the given keys are used up. *)
Inductive main_result :=
  | Exit (status : Z) (held : option heap)
  | Undefined_behaviour
  | Hangs
  | AwaitsKey (s : session)
  | AwaitsLoad.

Section Main.

(** [render_document] is used here only for the row it reaches
    ([g_pad_cur_y = y + 4]). *)
Variable render_document : heap -> Z -> Z.

(** The body of [if(need_load)]: the old tree is freed before the
    fetch, so a failed fetch leaves with no tree. *)
Definition load_page (e : load_env) (s : session) : load_result :=
  let held : option heap := None in
  match raw e with
  | None => FetchFailed held
  | Some bytes =>
      let clean := strip_script_style_meta (sanitize_ascii_inplace bytes) in
      match parse_html_tree clean with
      | Returned _ h _ _ =>
          Loaded {| root := Some h;
                    vw := {| top_pos := 0;
                             g_pad_cur_y := render_document h (term_w e) + 4;
                             g_term_h := term_h e |} |}
      | Undefined => ParseUndefined
      | OutOfFuel => ParseHangs
      end
  end.

Definition after_load (r : load_result) (k : session -> main_result)
  : main_result :=
  match r with
  | Loaded s => k s
  | FetchFailed held => Exit 1 held
  | ParseUndefined => Undefined_behaviour
  | ParseHangs => Hangs
  end.

(** The inner [while(1)] with [need_load] handled at [r]: [loads] are
    the environments of the loads still to come. *)
Fixpoint ui_loop (keys : list key) (loads : list load_env) (s : session)
  : main_result :=
  match keys with
  | [] => AwaitsKey s
  | KEY_q :: _ => Exit 0 None
  | KEY_r :: keys' =>
      match loads with
      | [] => AwaitsLoad
      | e :: loads' => after_load (load_page e s) (ui_loop keys' loads')
      end
  | k :: keys' =>
      ui_loop keys' loads {| root := root s; vw := scroll_key k (vw s) |}
  end.

(** [main] after start-up: [need_load = 1], [root = NULL], [top_pos = 0]. *)
Definition main (loads : list load_env) (keys : list key) : main_result :=
  let s0 := {| root := None;
               vw := {| top_pos := 0; g_pad_cur_y := 0; g_term_h := 0 |} |} in
  match loads with
  | [] => AwaitsLoad
  | e :: loads' => after_load (load_page e s0) (ui_loop keys loads')
  end.

End Main.

(** ** Fetching *)

(** What [fetch_url] reads from: [read_file_local] on a path, and the
    libcurl transfer of a URL ([curl_easy_perform] with [curl_write_cb]
    collecting the body); each gives a buffer or NULL. *)
Record sources := {
  read_file_local : cstr -> option cstr;
  curl_transfer : cstr -> option cstr
}.

(** [url[0] == '/' || (strlen(url) > 1 && url[1] == ':')] *)
Definition is_local_path (url : cstr) : bool :=
  match url with
  | "/" :: _ => true
  | _ :: ":" :: _ => true
  | _ => false
  end.

(** [fetch_url(url)]: the chain of tests in source order.  A failed
    [curl_easy_init] or transfer is the NULL of [curl_transfer]. *)
Definition fetch_url (src : sources) (url : cstr) : option cstr :=
  if strncmp_eq url (lit "file://") then read_file_local src (drop 7 url)
  else if is_local_path url then read_file_local src url
  else if strncmp_eq url (lit "http://") || strncmp_eq url (lit "https://")
       then curl_transfer src url
  else read_file_local src url.

(** ** Releasing the tree *)

(** The calls made while a tree is released: [free(n->text)],
    [attr_free_all(n->attrs)], [free(n->children)] and [free(n)]. *)
Inductive free_call :=
  | free_text (n : ptr)
  | attr_free_all (n : ptr)
  | free_children (n : ptr)
  | free_node (n : ptr).

(** [node_free_recursive(n)]: the calls in program order.  The text
    is freed when there is one, the child array when a child was ever
    appended; the recursion is bounded by [fuel] ([None] when it runs
    out). *)
Fixpoint node_free_recursive (fuel : nat) (h : heap) (n : ptr)
  : option (list free_call) :=
  match fuel with
  | 0 => None
  | S fuel' =>
      let nd := h !!! n in
      match mapM (node_free_recursive fuel' h) (children nd) with
      | None => None
      | Some freed =>
          Some ((match text nd with Some _ => [free_text n] | None => [] end)
                ++ attr_free_all n :: concat freed
                ++ (match children nd with [] => [] | _ => [free_children n] end)
                ++ [free_node n])
      end
  end.

(** ** The calls of main *)

(** What [main] does, between start-up and its return, that can be
    seen from outside, in program order: the calls that release the
    tree, the fetch, the report on [stderr], the drawing of the view
    and the reading of a key.  The pad ([newpad], [delwin]) and the
    status line are left out. *)
Inductive call :=
  | release (c : free_call)      (* made by [node_free_recursive(root)] *)
  | fetch_raw                    (* [raw = fetch_url(current_arg)], or
                                    the copy of the built-in page *)
  | endwin
  | fprintf_stderr (msg : cstr)
  | free_current_arg
  | curl_global_cleanup
  | render_root                  (* [render_document(root)] on a new pad *)
  | prefresh (top : Z)           (* the view is drawn from row [top] *)
  | getch (k : key).

Section MainCalls.

Variable render_document : heap -> Z -> Z.
Variable current_arg : cstr.

(** ["Failed to fetch '%s'\n"] printed with [current_arg]. *)
Definition fetch_failure_message : cstr :=
  lit "Failed to fetch '" ++ current_arg ++ lit "'" ++ ["010"].

(** [if(root) node_free_recursive(root);] on the root, node 0 of its
    store.  [None]: the recursion is deeper than the store has nodes
    (a cycle, which the builder never makes), so a node is freed
    again. *)
Definition free_old_dom (root : option heap) : option (list call) :=
  match root with
  | None => Some []
  | Some h => map release <$> node_free_recursive (length h) h 0
  end.

(** The body of [if(need_load)], followed by [k] when the page is
    loaded: the calls made and how [main] stands at the end.  There
    is no case for [if(!clean)]: [strip_script_style_meta] returns NULL
    only when it is given NULL. *)
Definition need_load (e : load_env) (s : session)
    (k : session -> list call * main_result) : list call * main_result :=
  match free_old_dom (root s) with
  | None => ([], Undefined_behaviour)
  | Some frees =>
      let s := {| root := None; vw := vw s |} in        (* [root = NULL;] *)
      match raw e with
      | None =>                                         (* [if(!raw)] *)
          (frees ++ [fetch_raw; endwin; fprintf_stderr fetch_failure_message;
                     free_current_arg; curl_global_cleanup],
           Exit 1 (root s))
      | Some bytes =>
          let clean := strip_script_style_meta (sanitize_ascii_inplace bytes) in
          match parse_html_tree clean with
          | Returned _ h _ _ =>
              let '(cs, r) :=
                k {| root := Some h;
                     vw := {| top_pos := 0;
                              g_pad_cur_y := render_document h (term_w e) + 4;
                              g_term_h := term_h e |} |} in
              (frees ++ fetch_raw :: render_root :: cs, r)
          | Undefined => (frees ++ [fetch_raw], Undefined_behaviour)
          | OutOfFuel => (frees ++ [fetch_raw], Hangs)
          end
      end
  end.

(** The inner [while(1)]: the view is drawn, then a key is read.  [q]
    leaves both loops for the cleanup at the end of [main]. *)
Fixpoint ui_calls (keys : list key) (loads : list load_env) (s : session)
  : list call * main_result :=
  match keys with
  | [] => ([prefresh (top_pos (vw s))], AwaitsKey s)
  | k :: keys' =>
      let '(cs, r) :=
        match k with
        | KEY_q =>
            match free_old_dom (root s) with
            | None => ([], Undefined_behaviour)
            | Some frees =>
                (frees ++ [free_current_arg; endwin; curl_global_cleanup],
                 Exit 0 None)
            end
        | KEY_r =>
            match loads with
            | [] => ([], AwaitsLoad)
            | e :: loads' => need_load e s (ui_calls keys' loads')
            end
        | _ => ui_calls keys' loads
                 {| root := root s; vw := scroll_key k (vw s) |}
        end in
      (prefresh (top_pos (vw s)) :: getch k :: cs, r)
  end.

(** [main] after start-up, with its calls. *)
Definition main_calls (loads : list load_env) (keys : list key)
  : list call * main_result :=
  let s0 := {| root := None;
               vw := {| top_pos := 0; g_pad_cur_y := 0; g_term_h := 0 |} |} in
  match loads with
  | [] => ([], AwaitsLoad)
  | e :: loads' => need_load e s0 (ui_calls keys loads')
  end.

End MainCalls.

(** ** Rendering the tree *)

(** *** render_code_block *)

(** [strtok(dup, "\n")] and [strtok(NULL, "\n")]: the maximal runs of
    bytes other than the newline, in order; [cur] is the run being
    read.  Empty runs are no tokens. *)
Fixpoint strtok_lines (cur : cstr) (text : cstr) : list cstr :=
  match text with
  | [] => match cur with [] => [] | _ => [cur] end
  | c :: rest =>
      if c =? "010" then
        match cur with
        | [] => strtok_lines [] rest
        | _ => cur :: strtok_lines [] rest
        end
      else strtok_lines (cur ++ [c]) rest
  end.

(** [int boxw = g_term_w - 4; if(boxw < 10) boxw = 10;] *)
Definition code_box_width (W : Z) : Z :=
  if (W - 4 <? 10)%Z then 10%Z else (W - 4)%Z.

(** A [mvwprintw] followed by [waddch]s, which continue at the cursor,
    is one [mvwaddstr] of the bytes sent. *)
Definition code_border (y boxw : Z) : draw :=
  mvwaddstr y 0 ("+" :: repeat "-" (Z.to_nat boxw) ++ ["+"]).

(** One line of the box.  A line longer than [boxw] is cut through
    [char tmp[1024]]: [tmp[boxw] = 0] is outside the array from
    [boxw = 1024] on ([None]). *)
Definition code_line (y boxw : Z) (ln : cstr) : option (list draw) :=
  let len := Z.of_nat (length ln) in
  if (len >? boxw)%Z then
    if (boxw <? 1024)%Z then
      Some [mvwaddstr y 0 (lit "| ");
            mvwaddstr y 2 (take (Z.to_nat boxw) ln ++ lit " |")]
    else None
  else
    Some [mvwaddstr y 0 (lit "| ");
          mvwaddstr y 2 (ln ++ repeat " " (Z.to_nat (boxw - len)) ++ lit " |")].

Fixpoint code_lines (y boxw : Z) (lines : list cstr) : option (Z * list draw) :=
  match lines with
  | [] => Some (y, [])
  | ln :: rest =>
      match code_line y boxw ln with
      | None => None
      | Some ds =>
          match code_lines (y + 1) boxw rest with
          | None => None
          | Some (y', ds') => Some (y', ds ++ ds')
          end
      end
  end.

(** [render_code_block(&y, text)] with [g_term_w = W]. *)
Definition render_code_block (W y : Z) (text : option cstr)
  : option (Z * list draw) :=
  let boxw := code_box_width W in
  let lines := match text with Some t => strtok_lines [] t | None => [] end in
  match code_lines (y + 1) boxw lines with
  | None => None
  | Some (y', ds) =>
      Some ((y' + 1)%Z, code_border y boxw :: ds ++ [code_border y' boxw])
  end.

(** *** render_node_recursive *)

Definition with_list_number (k : Z) (n : Node) : Node :=
  {| type := type n; text := text n; attrs := attrs n;
     children := children n; parent := parent n;
     expanded := expanded n; list_number := k |}.

(** The outcome of a rendering: the store (rendering writes
    [list_number]), the new [*y] and the writes; undefined behaviour;
    or the bound on the recursion depth reached. *)
Inductive render_result :=
  | Rendered (h : heap) (y : Z) (ds : list draw)
  | RenderUndefined
  | RenderOutOfFuel.

(** [r] and then [k] on the store and row [r] has reached; the first
    undefined step decides. *)
Definition then_render (r : render_result) (k : heap -> Z -> render_result)
  : render_result :=
  match r with
  | Rendered h y ds =>
      match k h y with
      | Rendered h' y' ds' => Rendered h' y' (ds ++ ds')
      | e => e
      end
  | e => e
  end.

(** The texts of the text children joined with [sep]: the [buf] of
    [NODE_HEADER] and [NODE_A] (a space), of [NODE_PRE] (nothing) and of
    [NODE_CODE] (a newline); [sep] is written only when [bl] is not 0. *)
Definition joined_text (sep : cstr) (h : heap) (n : ptr) : cstr :=
  fold_left
    (fun buf t =>
       match type (h !!! t), text (h !!! t) with
       | NODE_TEXT, Some s =>
           (match buf with [] => buf | _ => buf ++ sep end) ++ s
       | _, _ => buf
       end)
    (children (h !!! n)) [].

(** [n->child_count && n->children[0]->type == NODE_TEXT
     && n->children[0]->text] *)
Definition first_text (h : heap) (n : ptr) : option cstr :=
  match children (h !!! n) with
  | c :: _ =>
      match type (h !!! c) with
      | NODE_TEXT => text (h !!! c)
      | _ => None
      end
  | [] => None
  end.

(** The rows [from .. to - 1]. *)
Definition rows (from to : Z) : list Z :=
  map (fun k => (from + Z.of_nat k)%Z) (seq 0 (Z.to_nat (to - from))).

(** What [printf("%d", k)] produces. *)
Definition decimal (k : Z) : cstr := lit (NilZero.string_of_int (Z.to_int k)).

(** The last child of type [NODE_SUMMARY]. *)
Definition find_summary (h : heap) (cs : list ptr) : option ptr :=
  fold_left
    (fun summary c =>
       match type (h !!! c) with NODE_SUMMARY => Some c | _ => summary end)
    cs None.

Section RenderChildren.

(** [rec h c y indent] stands for [render_node_recursive(c, &y, indent)]
    in the store [h]. *)
Variable rec : heap -> ptr -> Z -> Z -> render_result.

(** [for(i ...) render_node_recursive(n->children[i], y, indent);]
    Rendering writes no [children] field, so the child list is the one
    read on entry. *)
Fixpoint render_each (cs : list ptr) (indent : Z) (h : heap) (y : Z)
  : render_result :=
  match cs with
  | [] => Rendered h y []
  | c :: cs' => then_render (rec h c y indent) (render_each cs' indent)
  end.

(** The loops of [NODE_BOLD], [NODE_ITALIC], [NODE_MARK] and
    [NODE_UNDER]: text children are wrapped directly. *)
Fixpoint render_styled (W : Z) (cs : list ptr) (indent : Z) (h : heap) (y : Z)
  : render_result :=
  match cs with
  | [] => Rendered h y []
  | c :: cs' =>
      then_render
        (match type (h !!! c), text (h !!! c) with
         | NODE_TEXT, Some t =>
             let '(y', ds) := render_wrapped_text W y indent t in
             Rendered h y' ds
         | _, _ => rec h c y indent
         end)
        (render_styled W cs' indent)
  end.

(** The loop of [NODE_BLOCKQUOTE]: each child is drawn three columns
    in, then its rows get the bar. *)
Fixpoint render_quoted (cs : list ptr) (indent : Z) (h : heap) (y : Z)
  : render_result :=
  match cs with
  | [] => Rendered h y []
  | c :: cs' =>
      then_render
        (then_render (rec h c y (indent + 3)%Z)
           (fun h y' =>
              Rendered h y'
                (map (fun ly => mvwaddstr ly indent (lit " | ")) (rows y y'))))
        (render_quoted cs' indent)
  end.

(** The loop of [NODE_OL]: [li->list_number = i+1] for every child. *)
Fixpoint render_numbered (cs : list ptr) (i : Z) (indent : Z) (h : heap) (y : Z)
  : render_result :=
  match cs with
  | [] => Rendered h y []
  | li :: cs' =>
      then_render
        (rec (alter (with_list_number (i + 1)) li h) li y indent)
        (render_numbered cs' (i + 1) indent)
  end.

(** The loop of [render_document]:
    [if(y >= g_pad_h - 50) break;] after every child. *)
Fixpoint render_top (pad_h : Z) (cs : list ptr) (h : heap) (y : Z)
  : render_result :=
  match cs with
  | [] => Rendered h y []
  | c :: cs' =>
      then_render (rec h c y 0%Z)
        (fun h y' =>
           if (y' >=? pad_h - 50)%Z then Rendered h y' []
           else render_top pad_h cs' h y')
  end.

End RenderChildren.

(** One line written at [(y, indent)], then [( *y)++]. *)
Definition one_line (h : heap) (y indent : Z) (s : cstr) : render_result :=
  Rendered h (y + 1)%Z [mvwaddstr y indent s].

(** [render_node_recursive(n, &y, indent)] with [g_term_w = W].
    Attributes and colours ([wattron], [wattroff]) leave no trace in
    the writes. *)
Fixpoint render_node_recursive (fuel : nat) (W : Z) (h : heap) (n : ptr)
    (y indent : Z) : render_result :=
  match fuel with
  | 0 => RenderOutOfFuel
  | S fuel' =>
      let rec := render_node_recursive fuel' W in
      let nd := h !!! n in
      let kids := children nd in
      if is_transparent (type nd) then render_each rec kids indent h y
      else
        match type nd with
        | NODE_TEXT =>
            match text nd with
            | Some t =>
                let '(y', ds) := render_wrapped_text W y indent t in
                Rendered h y' ds
            | None => Rendered h y []
            end
        | NODE_BR => Rendered h (y + 1)%Z []
        | NODE_HR => Rendered h (y + 1)%Z (put_run y 0 "-" (Z.to_nat W))
        | NODE_PARAGRAPH =>
            then_render (render_each rec kids indent h y)
              (fun h y => Rendered h (y + 1)%Z [])
        | NODE_HEADER =>
            match joined_text [" "] h n with
            | [] => Rendered h y []
            | buf => one_line h y indent buf
            end
        | NODE_PRE =>
            match render_code_block W y (Some (joined_text [] h n)) with
            | Some (y', ds) => Rendered h y' ds
            | None => RenderUndefined
            end
        | NODE_CODE =>
            match render_code_block W y (Some (joined_text ["010"] h n)) with
            | Some (y', ds) => Rendered h y' ds
            | None => RenderUndefined
            end
        | NODE_BOLD | NODE_ITALIC | NODE_MARK | NODE_UNDER =>
            render_styled rec W kids indent h y
        | NODE_STRIKE =>
            then_render (render_each rec kids indent h y)
              (fun h y' =>
                 Rendered h y'
                   (flat_map (fun ly => put_run ly indent "-"
                                          (Z.to_nat (W - indent)))
                             (rows y y')))
        | NODE_BLOCKQUOTE =>
            then_render
              (then_render (one_line h y indent (lit " |"))
                 (render_quoted rec kids indent))
              (fun h y => one_line h y indent (lit " |"))
        | NODE_UL =>
            then_render (render_each rec kids indent h y)
              (fun h y => Rendered h (y + 1)%Z [])
        | NODE_OL =>
            then_render (render_numbered rec kids 0 indent h y)
              (fun h y => Rendered h (y + 1)%Z [])
        | NODE_LI =>
            let '(marker, step) :=
              if (list_number nd >? 0)%Z
              then (decimal (list_number nd) ++ lit ". ", 4%Z)
              else (lit "* ", 2%Z) in
            let text_indent := (indent + Z.of_nat (length marker))%Z in
            match first_text h n with
            | Some t =>
                let '(y', ds) := render_wrapped_text W y text_indent t in
                Rendered h y' (mvwaddstr y indent marker :: ds)
            | None =>
                then_render (one_line h y indent marker)
                  (render_each rec kids (indent + step)%Z)
            end
        | NODE_DL =>
            then_render
              (then_render
                 (one_line h y indent (lit "Словник термінів"))
                 (render_each rec kids indent))
              (fun h y => Rendered h (y + 1)%Z [])
        | NODE_DT | NODE_FIGCAP =>
            match first_text h n with
            | Some t => one_line h y indent t
            | None => Rendered h y []
            end
        | NODE_DD =>
            match first_text h n with
            | Some t => one_line h y (indent + 4)%Z t
            | None => Rendered h y []
            end
        | NODE_IMG =>
            let src := default (lit "(no-src)") (attr_get_value (attrs nd) (lit "src")) in
            let alt := default [] (attr_get_value (attrs nd) (lit "alt")) in
            one_line h y indent
              (take 1023 (lit "[img: " ++ src ++ lit "] " ++ alt))
        | NODE_DETAILS =>
            let plain := render_each rec kids indent h y in
            match find_summary h kids with
            | Some summary =>
                match children (h !!! summary) with
                | c :: _ =>
                    match type (h !!! c) with
                    | NODE_TEXT =>
                        match text (h !!! c) with
                        | Some t =>
                            let open := negb (expanded nd =? 0)%Z in
                            then_render
                              (one_line h y indent
                                 (lit "> " ++ t ++ " "
                                  :: (if open then lit "(v)" else lit "(>)")))
                              (if open
                               then render_each rec
                                      (filter (fun c => c <> summary) kids)
                                      (indent + 2)%Z
                               else fun h y => Rendered h y [])
                        | None => RenderUndefined  (* [%s] of a null pointer *)
                        end
                    | _ => plain
                    end
                | [] => plain
                end
            | None => plain
            end
        | NODE_TABLE =>
            match render_table_node y h n with
            | Some (y', ds) => Rendered h y' ds
            | None => RenderUndefined
            end
        | NODE_A =>
            one_line h y indent
              (match joined_text [" "] h n with
               | [] => lit "[link]"
               | buf => buf
               end)
        | NODE_FORM =>
            then_render (one_line h y indent (lit "Form:"))
              (render_each rec kids (indent + 2)%Z)
        | NODE_INPUT =>
            let nm := default (lit "field") (attr_get_value (attrs nd) (lit "name")) in
            one_line h y indent (take 255 (nm ++ lit ": __________"))
        | NODE_TEXTAREA =>
            let nm := default (lit "textarea") (attr_get_value (attrs nd) (lit "name")) in
            then_render (one_line h y indent (take 255 (nm ++ lit ":")))
              (fun h y =>
                 one_line h y indent
                   ("[" :: repeat "_" (Z.to_nat (W - indent - 4)) ++ ["]"]))
        | NODE_BUTTON =>
            let lab := default (lit "Button") (attr_get_value (attrs nd) (lit "value")) in
            one_line h y indent (lit "[ " ++ lab ++ lit " ]")
        | _ => render_each rec kids indent h y
        end
  end.

(** [#define PAD_LINES 20000] *)
Definition PAD_LINES : Z := 20000.

(** [render_document(root)]: the rendering's [y]; [g_pad_cur_y] is set
    to [y + 4].  The recursion is as deep as the tree, which has fewer
    levels than the store has nodes. *)
Definition render_document (W : Z) (h : heap) (root : ptr) : render_result :=
  render_top (render_node_recursive (length h) W) PAD_LINES
             (children (h !!! root)) h 0.

(** ** Vocabulary of the statements *)

(** The type of the node at [stack[i]]. *)
Definition stack_type (h : heap) (stack : list ptr) (i : nat) : NodeType :=
  type (h !!! (stack !!! i)).



(** The reading of "each maximal run of whitespace becomes exactly one
    space": a whitespace byte is dropped when another follows it and
    becomes a space when it ends its run. *)
Fixpoint one_space_per_run (s : cstr) : cstr :=
  match s with
  | [] => []
  | c :: s' =>
      if isspace c then
        match s' with
        | c' :: _ =>
            if isspace c' then one_space_per_run s'
            else " " :: one_space_per_run s'
        | [] => [" "]
        end
      else c :: one_space_per_run s'
  end.

(** The input without its carriage returns. *)
Fixpoint remove_cr (s : cstr) : cstr :=
  match s with
  | [] => []
  | c :: s' => if c =? "013" then remove_cr s' else c :: remove_cr s'
  end.

(** Collapsed text: the only whitespace byte is the space, and no two
    whitespace bytes are adjacent. *)
Fixpoint collapsed (s : cstr) : Prop :=
  match s with
  | [] => True
  | c :: s' =>
      (isspace c = true ->
       c = " " /\ match s' with c' :: _ => isspace c' = false | [] => True end)
      /\ collapsed s'
  end.

(** The length of the longest maximal run of non-space bytes of [txt],
    the run in progress having [cur] bytes already. *)
Fixpoint longest_word_from (cur : nat) (txt : cstr) : nat :=
  match txt with
  | [] => cur
  | c :: rest =>
      if c =? " " then Nat.max cur (longest_word_from 0 rest)
      else longest_word_from (S cur) rest
  end.

Definition longest_word (txt : cstr) : nat := longest_word_from 0 txt.

(** A write that starts at or after column [indent] and ends before
    column [W]. *)
Definition fits_row (W indent : Z) (d : draw) : Prop :=
  (indent <= draw_col d /\ draw_col d + draw_width d < W)%Z.

(** The largest scroll offset of a view, the interval the offset is
    meant to stay in, and clamping into it. *)
Definition max_offset (v : view) : Z := Z.max 0 (g_pad_cur_y v - g_term_h v).

Definition offset_in_bounds (v : view) : Prop :=
  (0 <= top_pos v <= max_offset v)%Z.

Definition clamp_offset (v : view) (t : Z) : Z :=
  Z.max 0 (Z.min t (max_offset v)).

(** A sequence of keys, none of which leaves the inner loop. *)
Definition scroll_keys (keys : list key) (v : view) : view :=
  fold_left (fun v k => scroll_key k v) keys v.

(** The builder's invariant: the store holds the root at index 0, a
    parentless [NODE_DIV]; the stack starts with the root, has a free
    slot count within the allocation, and points into the store. *)
Definition builder_wf (s : pstate) : Prop :=
  type (ps_heap s !!! 0) = NODE_DIV
  /\ parent (ps_heap s !!! 0) = None
  /\ 0 < length (ps_heap s)
  /\ ps_stack s !! 0 = Some 0
  /\ length (ps_stack s) <= STACK_SLOTS
  /\ Forall (fun p => p < length (ps_heap s)) (ps_stack s).

(** An action of the elision loop seen from [k] bytes further left. *)
Definition shift_action (k : nat) (a : strip_action) : strip_action :=
  match a with
  | SkipTo next => SkipTo (k + next)
  | StopHere => StopHere
  | CopyByte c => CopyByte c
  end.

(** The number of bytes of [s] equal to [c]. *)
Fixpoint count_byte (c : ascii) (s : cstr) : nat :=
  match s with
  | [] => 0
  | x :: s' => (if x =? c then 1 else 0) + count_byte c s'
  end.

(** A comment opener at [pos] is closed when a "-->" starts four bytes
    after it or later. *)
Definition comment_closed_at (html : cstr) (pos : nat) : bool :=
  negb (strncmp_eq (drop pos html) (lit "<!--"))
  || match strstr (drop (pos + 4) html) (lit "-->") with
     | Some _ => true
     | None => false
     end.

(** Every comment opener of the input is closed. *)
Definition comments_closed (html : cstr) : bool :=
  forallb (comment_closed_at html) (seq 0 (length html)).

(** The text length of [cells[r][c]] (0 for a missing cell) and its
    maximum over the rows. *)
Definition cell_len (row : list (option cstr)) (c : nat) : Z :=
  match row !! c with
  | Some (Some s) => Z.of_nat (length s)
  | _ => 0%Z
  end.

Definition widest_cell (cells : list (list (option cstr))) (c : nat) : Z :=
  fold_right (fun row m => Z.max (cell_len row c) m) 0%Z cells.

(** The text of a border row and of a data row for given widths. *)
Definition border_text (colw : list Z) : cstr :=
  "+" :: flat_map (fun w => repeat "-" (Z.to_nat (w + 2)) ++ ["+"]) colw.

Definition padded_cell (w : Z) (cell : option cstr) : cstr :=
  match cell with
  | Some s => pad_left_justified w s
  | None => repeat " " (Z.to_nat w)
  end.

Fixpoint data_text_from (row : list (option cstr)) (c : nat) (colw : list Z)
  : cstr :=
  match colw with
  | [] => []
  | w :: rest =>
      " " :: padded_cell w (default None (row !! c))
      ++ " " :: "|" :: data_text_from row (S c) rest
  end.

Definition data_text (row : list (option cstr)) (colw : list Z) : cstr :=
  "|" :: data_text_from row 0 colw.

(** The number of border bars (bytes [|] put by [mvwaddch]) on row [y]. *)
Fixpoint count_bars (y : Z) (ds : list draw) : nat :=
  match ds with
  | [] => 0
  | mvwaddch y' _ c :: ds' =>
      (if (y' =? y)%Z && (c =? "|") then 1 else 0) + count_bars y ds'
  | mvwaddstr _ _ _ :: ds' => count_bars y ds'
  end.

(** The store is a tree rooted at node 0: every other node has a
    parent allocated before it and occurs in that parent's child list;
    child lists hold no node twice, and every child points back to its
    parent. *)
Definition tree_wf (h : heap) : Prop :=
  parent (h !!! 0) = None
  /\ (forall j, 0 < j < length h ->
        exists p, p < j /\ parent (h !!! j) = Some p
                  /\ In j (children (h !!! p)))
  /\ (forall p c, p < length h -> In c (children (h !!! p)) ->
        p < c < length h /\ parent (h !!! c) = Some p)
  /\ (forall p, p < length h -> NoDup (children (h !!! p))).

(** A byte [sanitize_ascii_inplace] leaves as it is: one from 32 to
    127, that is printable ASCII or DEL (127, a control byte which the
    test [c < 32] does not catch), or one of \n, \t, \r. *)
Definition clean_byte (c : ascii) : bool :=
  (N_of_ascii c <? 128)%N
  && ((32 <=? N_of_ascii c)%N || (c =? "010") || (c =? "009") || (c =? "013")).

(** A well-formed attribute: the name fits [name[128]], is not empty and
    is made of name bytes; the value fits [value[512]]. *)
Definition attr_wf (a : Attr) : Prop :=
  attr_name a <> []
  /\ length (attr_name a) <= 127
  /\ Forall (fun c => is_name_char c = true) (attr_name a)
  /\ length (attr_value a) <= 511.

(** A byte of an unquoted attribute value. *)
Definition is_token_char (c : ascii) : bool := negb (isspace c) && negb (c =? ">").

(** Two names that [strcasecmp] finds equal. *)
Definition same_name (a b : cstr) : Prop := map tolower a = map tolower b.

(** The types created without being pushed on the stack. *)
Definition is_void (t : NodeType) : bool :=
  match t with
  | NODE_TEXT | NODE_BR | NODE_HR | NODE_IMG | NODE_INPUT | NODE_BUTTON => true
  | _ => false
  end.

(** The types under which text is kept verbatim. *)
Definition is_verbatim (t : NodeType) : bool :=
  match t with NODE_PRE | NODE_CODE => true | _ => false end.

(** The parent of node [j] is a [NODE_PRE] or a [NODE_CODE]. *)
Definition under_verbatim (h : heap) (j : ptr) : bool :=
  match parent (h !!! j) with
  | Some p => is_verbatim (type (h !!! p))
  | None => false
  end.

(** What holds of every node of a tree the builder returns: the
    render state is untouched, the attributes are within their buffers,
    a void node has no child, a text node has no attribute and a text
    that is not empty and, outside [NODE_PRE]/[NODE_CODE], is left
    unchanged by the whitespace collapsing; every other node has no
    text. *)
Definition node_ok (h : heap) (j : ptr) : Prop :=
  let n := h !!! j in
  expanded n = 0%Z /\ list_number n = 0%Z
  /\ Forall attr_wf (attrs n)
  /\ (is_void (type n) = true -> children n = [])
  /\ match type n with
     | NODE_TEXT =>
         attrs n = []
         /\ exists t, text n = Some t /\ t <> []
                      /\ (under_verbatim h j = false -> collapse_whitespace t = t)
     | _ => text n = None
     end.

(** The same for a state of the builder, whose stack moreover holds no
    void node. *)
Definition nodes_ok (s : pstate) : Prop :=
  (forall j, j < length (ps_heap s) -> node_ok (ps_heap s) j)
  /\ Forall (fun p => is_void (type (ps_heap s !!! p)) = false) (ps_stack s).

(** Every byte of every text of the store is a byte of [html] or a
    space. *)
Definition text_bytes_from (html : cstr) (h : heap) : Prop :=
  forall j t, text (h !!! j) = Some t ->
              Forall (fun c => c = " " \/ In c html) t.

(** The node a call releases (a part of). *)
Definition freed_owner (c : free_call) : ptr :=
  match c with
  | free_text n | attr_free_all n | free_children n | free_node n => n
  end.

(** [j] is [p] or a descendant of [p], following the parent links. *)
Inductive below (h : heap) (p : ptr) : ptr -> Prop :=
  | below_self : below h p p
  | below_child (j q : ptr) :
      parent (h !!! j) = Some q -> below h p q -> below h p j.

(** [calls] releases the subtree of [p]: nothing twice, nothing
    outside the subtree, and every node of it. *)
Definition frees_subtree (h : heap) (p : ptr) (calls : list free_call) : Prop :=
  NoDup calls
  /\ (forall c, c ∈ calls -> below h p (freed_owner c) /\ freed_owner c < length h)
  /\ (forall j, below h p j -> j < length h -> free_node j ∈ calls).

(** Two stores that differ at most in [list_number] fields. *)
Definition same_shape (h h' : heap) : Prop :=
  length h' = length h
  /\ forall j,
       type (h' !!! j) = type (h !!! j)
       /\ text (h' !!! j) = text (h !!! j)
       /\ attrs (h' !!! j) = attrs (h !!! j)
       /\ children (h' !!! j) = children (h !!! j)
       /\ parent (h' !!! j) = parent (h !!! j)
       /\ expanded (h' !!! j) = expanded (h !!! j).

(** Writes that start on the rows [y .. y' - 1]. *)
Definition rows_within (y y' : Z) (ds : list draw) : Prop :=
  (y <= y')%Z /\ Forall (fun d => (y <= draw_row d < y')%Z) ds.

(** A rendering that started on row [y] of the store [h] has ended:
    its writes are on the rows it advanced over, and the store has
    changed in [list_number] fields only; it is undefined only if [U]
    holds. *)
Definition renders_within (U : Prop) (h : heap) (y : Z) (r : render_result)
  : Prop :=
  match r with
  | Rendered h' y' ds => rows_within y y' ds /\ same_shape h h'
  | RenderUndefined => U
  | RenderOutOfFuel => False
  end.

(** What can make a rendering undefined: a box of 1024 columns or
    more, a table, a text node without text. *)
Definition excused (U : Prop) (W : Z) (h : heap) : Prop :=
  ((1028 <= W)%Z -> U)
  /\ (forall j, type (h !!! j) = NODE_TABLE -> U)
  /\ (forall j, type (h !!! j) = NODE_TEXT -> text (h !!! j) = None -> U).

(** Children are allocated after their parent and lie in the store. *)
Definition kids_after (h : heap) : Prop :=
  forall p c, In c (children (h !!! p)) -> p < c < length h.

Definition renderable (U : Prop) (W : Z) (h : heap) : Prop :=
  kids_after h /\ excused U W h.

(** The assumption on the recursive calls: on stores of [L] nodes
    whose children come after their parents, rendering a node after
    [lo] stays within its rows. *)
Definition rec_ok (U : Prop) (W : Z)
    (rec : heap -> ptr -> Z -> Z -> render_result) (L lo : nat) : Prop :=
  forall h c y indent,
    renderable U W h -> length h = L -> lo < c < L ->
    renders_within U h y (rec h c y indent).

(** A line cut or padded with spaces to [w] columns. *)
Definition fitted (w : Z) (ln : cstr) : cstr :=
  if (Z.of_nat (length ln) >? w)%Z then take (Z.to_nat w) ln
  else ln ++ repeat " " (Z.to_nat (w - Z.of_nat (length ln))).

(** The top and bottom line of a code box. *)
Definition box_border (boxw : Z) : cstr :=
  "+" :: repeat "-" (Z.to_nat boxw) ++ ["+"].

(** The byte a write puts on the cell [(y, x)], if it covers it. *)
Definition covers (d : draw) (y x : Z) : option ascii :=
  match d with
  | mvwaddch y0 x0 c => if (y0 =? y)%Z && (x0 =? x)%Z then Some c else None
  | mvwaddstr y0 x0 s =>
      if (y0 =? y)%Z && (x0 <=? x)%Z then s !! Z.to_nat (x - x0) else None
  end.

(** The byte on the cell [(y, x)] after the writes [ds], made in this
    order: the last write that covers the cell decides. *)
Fixpoint cell_at (ds : list draw) (y x : Z) : option ascii :=
  match ds with
  | [] => None
  | d :: ds' =>
      match cell_at ds' y x with
      | Some c => Some c
      | None => covers d y x
      end
  end.

(** The words of a text: its maximal runs of bytes other than the
    space, in order; [cur] is the run being read. *)
Fixpoint words_from (cur : cstr) (txt : cstr) : list cstr :=
  match txt with
  | [] => match cur with [] => [] | _ => [cur] end
  | c :: rest =>
      if c =? " " then
        match cur with
        | [] => words_from [] rest
        | _ => cur :: words_from [] rest
        end
      else words_from (cur ++ [c]) rest
  end.

(** The strings written by [mvwaddnstr], in order. *)
Definition written_strings (ds : list draw) : list cstr :=
  flat_map (fun d => match d with mvwaddstr _ _ s => [s] | mvwaddch _ _ _ => [] end) ds.

(** A write that lies between column [indent] and column [W - 1]. *)
Definition within_width (W indent : Z) (d : draw) : Prop :=
  (indent <= draw_col d /\ draw_col d + draw_width d <= W)%Z.

(** What a text is made of for the wrap rule: its words (maximal runs
    of bytes other than the space) and the spaces between them, in
    order; [cur] is the run being read. *)
Inductive item :=
  | a_word (w : cstr)
  | a_space.

Fixpoint items_from (cur : cstr) (txt : cstr) : list item :=
  match txt with
  | [] => match cur with [] => [] | _ => [a_word cur] end
  | c :: rest =>
      if c =? " " then
        match cur with
        | [] => a_space :: items_from [] rest
        | _ => a_word cur :: a_space :: items_from [] rest
        end
      else items_from (cur ++ [c]) rest
  end.

(** The wrap rule, item by item, from row [y] and column [col]: a word
    (its first 1023 bytes) whose placement would make [col + length]
    reach or exceed [W] is placed on a new row starting at the indent,
    any other word at [col]; a space that does not fit ([col + 1]
    reaches [W]) is not written and starts a new row at the indent. *)
Fixpoint wrap_rule (W indent : Z) (its : list item) (y col : Z)
  : Z * list draw :=
  match its with
  | [] => (y, [])
  | a_word w :: its' =>
      let w := take 1023 w in
      let len := Z.of_nat (length w) in
      if (W <=? col + len)%Z then
        let '(y', ds) := wrap_rule W indent its' (y + 1) (indent + len) in
        (y', mvwaddstr (y + 1) indent w :: ds)
      else
        let '(y', ds) := wrap_rule W indent its' y (col + len) in
        (y', mvwaddstr y col w :: ds)
  | a_space :: its' =>
      if (W <=? col + 1)%Z then wrap_rule W indent its' (y + 1) indent
      else
        let '(y', ds) := wrap_rule W indent its' y (col + 1) in
        (y', mvwaddch y col " " :: ds)
  end.

(** The builder's state after [k] passes through the body of
    [while(pos < len)] from state [s], as long as each of them comes
    back to the loop test. *)
Fixpoint state_after (k : nat) (html : cstr) (s : pstate) : option pstate :=
  match k with
  | 0 => Some s
  | S k' =>
      match parse_step html s with
      | Next s' => state_after k' html s'
      | _ => None
      end
  end.

(** The node types for which the closing-tag [switch] has no case. *)
Definition unclosable_node_types : list NodeType :=
  [NODE_BOLD; NODE_ITALIC; NODE_MARK; NODE_UNDER; NODE_STRIKE;
   NODE_DL; NODE_DT; NODE_DD; NODE_FORM; NODE_TEXTAREA; NODE_SELECT].

(** The tag names that open a node of one of these types. *)
Definition unclosable_names : list cstr :=
  map lit ["strong"; "b"; "em"; "i"; "cite"; "dfn"; "address"; "mark";
           "u"; "ins"; "abbr"; "del"; "dl"; "dt"; "dd"; "form";
           "textarea"; "select"]%string.

(** A byte of a tag name as [tag] holds it: a name byte that
    [tolower] leaves as it is. *)
Definition is_lower_tag_char (c : ascii) : bool :=
  is_tag_char c && (tolower c =? c).

(** A session whose tree, if it holds one, is a tree with its root at
    node 0. *)
Definition session_ok (s : session) : Prop :=
  match root s with
  | Some h => tree_wf h /\ 0 < length h
  | None => True
  end.

(** What [main] does after a fetch that failed. *)
Definition after_failed_fetch (current_arg : cstr) : list call :=
  [endwin; fprintf_stderr (fetch_failure_message current_arg);
   free_current_arg; curl_global_cleanup].

(** * Properties *)

(** ** Strings *)

Lemma cstr_eqb_eq (a b : cstr) : cstr_eqb a b = true <-> a = b.
Proof.
  revert b. induction a as [|x a IH]; intros [|y b]; simpl; try easy.
  rewrite andb_true_iff, Ascii.eqb_eq, IH. split.
  - intros [-> ->]. reflexivity.
  - intros [= -> ->]. auto.
Qed.

Lemma cstr_eqb_refl (a : cstr) : cstr_eqb a a = true.
Proof. apply cstr_eqb_eq. reflexivity. Qed.

Lemma streq_eq (s : cstr) (l : string) : streq s l = true <-> s = lit l.
Proof. apply cstr_eqb_eq. Qed.

(** ** Byte sanitization *)

(** After [sanitize_ascii_inplace] every byte is one from 32 to 127
    or one of \n, \t, \r: bytes from 128 up have become [?], bytes
    below 32 other than \n, \t, \r a space, and the rest is unchanged.
    DEL (127) is among the bytes kept: the test is [c < 32]. *)
Theorem sanitize_ascii_only (buf : cstr) :
  length (sanitize_ascii_inplace buf) = length buf
  /\ Forall (fun c => (N_of_ascii c < 128)%N
                      /\ ((32 <= N_of_ascii c)%N
                          \/ c = "010" \/ c = "009" \/ c = "013"))
            (sanitize_ascii_inplace buf)
  /\ (forall i c, buf !! i = Some c ->
        sanitize_ascii_inplace buf !! i
        = Some (if (128 <=? N_of_ascii c)%N then "?"
                else if (N_of_ascii c <? 32)%N
                        && negb (c =? "010") && negb (c =? "009")
                        && negb (c =? "013")
                     then " " else c))
  /\ (forall i, buf !! i = Some "127" ->
        sanitize_ascii_inplace buf !! i = Some "127").
Proof.
  unfold sanitize_ascii_inplace. split; [apply length_map|]. split; [|split].
  - apply Forall_forall. intros c Hc. apply list_elem_of_fmap in Hc as (b & -> & _).
    destruct b as [[] [] [] [] [] [] [] []]; vm_compute;
      (split; [reflexivity|]); auto; left; discriminate.
  - intros i c Hc. rewrite list_lookup_fmap, Hc. reflexivity.
  - intros i Hc. rewrite list_lookup_fmap, Hc. reflexivity.
Qed.

(** ** Tag elision *)

Section StripLoop.

Lemma strstr_like_bound (hay needle : cstr) (e : nat) :
  strcasestr_scan hay needle = Some e ->
  strncasecmp_eq (drop e hay) needle = true /\ e < length hay.
Proof.
  revert e. induction hay as [|c hay IH]; intros e; simpl; [discriminate|].
  destruct (strncasecmp_eq (c :: hay) needle) eqn:E.
  - intros [= <-]. split; [exact E | simpl; lia].
  - destruct (strcasestr_scan hay needle) as [k|]; simpl; [|discriminate].
    intros [= <-]. destruct (IH k eq_refl) as [H1 H2]. split; [exact H1 | simpl; lia].
Qed.

Lemma strncasecmp_eq_length (s pat : cstr) :
  strncasecmp_eq s pat = true -> length pat <= length s.
Proof.
  revert s. induction pat as [|p pat IH]; intros [|c s]; simpl;
    try lia; try discriminate.
  intros H. apply andb_true_iff in H as [_ H]. apply IH in H. lia.
Qed.

Lemma strchr_bound (s : cstr) (c : ascii) (g : nat) :
  strchr s c = Some g -> g < length s.
Proof.
  revert g. induction s as [|x s IH]; intros g; simpl; [discriminate|].
  destruct (x =? c); [intros [= <-]; lia|].
  destruct (strchr s c) as [k|]; simpl; [|discriminate].
  intros [= <-]. specialize (IH k eq_refl). lia.
Qed.

Lemma strip_at_advances (src : cstr) (i : nat) (c : ascii) (next : nat) :
  strip_at src i c = SkipTo next -> i < next.
Proof.
  unfold strip_at.
  repeat match goal with
         | |- context [if ?b then _ else _] => destruct b
         | |- context [match ?o with Some _ => _ | None => _ end] => destruct o
         end; try discriminate; intros [= <-]; lia.
Qed.

Lemma strip_loop_out (fuel : nat) (src : cstr) (i : nat) (out : cstr) :
  strip_loop fuel src i out = out ++ strip_loop fuel src i [].
Proof.
  revert i out. induction fuel as [|f IH]; intros i out; simpl;
    [rewrite app_nil_r; reflexivity|].
  destruct (src !! i) as [c|]; [|rewrite app_nil_r; reflexivity].
  destruct (strip_at src i c) as [next| |b].
  - apply IH.
  - rewrite app_nil_r. reflexivity.
  - rewrite (IH _ (out ++ [b])), (IH _ ([] ++ [b])), <- app_assoc. reflexivity.
Qed.

(** Fuel beyond the bytes left to read changes nothing. *)
Lemma strip_loop_fuel (f1 f2 : nat) (src : cstr) (i : nat) (out : cstr) :
  length src - i <= f1 -> length src - i <= f2 ->
  strip_loop f1 src i out = strip_loop f2 src i out.
Proof.
  revert f2 i out. induction f1 as [|f1 IH]; intros f2 i out H1 H2.
  - simpl. destruct f2; simpl; [reflexivity|].
    rewrite lookup_ge_None_2 by lia. reflexivity.
  - simpl. destruct (src !! i) as [c|] eqn:Hc.
    + pose proof (lookup_lt_Some _ _ _ Hc). destruct f2 as [|f2]; [lia|].
      simpl. rewrite Hc.
      destruct (strip_at src i c) as [next| |b] eqn:Ha; [|reflexivity|].
      * apply strip_at_advances in Ha. apply IH; lia.
      * apply IH; lia.
    + destruct f2; simpl; [reflexivity|]. rewrite Hc. reflexivity.
Qed.

(** The loop looks only to the right of [i]. *)
Lemma strip_at_shift (pre rest : cstr) (i : nat) (c : ascii) :
  strip_at (pre ++ rest) (length pre + i) c
  = shift_action (length pre) (strip_at rest i c).
Proof.
  unfold strip_at, is_script_tag, is_style_tag, is_meta_link_tag.
  rewrite length_app.
  replace (length pre + i + 1) with (length pre + (i + 1)) by lia.
  rewrite !drop_app_add.
  replace (length pre + i + 8 <? length pre + length rest)%nat
    with (i + 8 <? length rest)%nat
    by (destruct (Nat.ltb_spec (i + 8) (length rest)),
                 (Nat.ltb_spec (length pre + i + 8) (length pre + length rest));
        try reflexivity; lia).
  replace (length pre + i + 7 <? length pre + length rest)%nat
    with (i + 7 <? length rest)%nat
    by (destruct (Nat.ltb_spec (i + 7) (length rest)),
                 (Nat.ltb_spec (length pre + i + 7) (length pre + length rest));
        try reflexivity; lia).
  replace (length pre + i + 5 <? length pre + length rest)%nat
    with (i + 5 <? length rest)%nat
    by (destruct (Nat.ltb_spec (i + 5) (length rest)),
                 (Nat.ltb_spec (length pre + i + 5) (length pre + length rest));
        try reflexivity; lia).
  repeat match goal with
         | |- context [if ?b then _ else _] => destruct b
         | |- context [match ?o with Some _ => _ | None => _ end] => destruct o
         end; simpl; try reflexivity; f_equal; lia.
Qed.

Lemma strip_loop_shift (fuel : nat) (pre rest : cstr) (i : nat) (out : cstr) :
  strip_loop fuel (pre ++ rest) (length pre + i) out
  = strip_loop fuel rest i out.
Proof.
  revert i out. induction fuel as [|f IH]; intros i out; [reflexivity|].
  simpl. rewrite lookup_app_r by lia.
  replace (length pre + i - length pre) with i by lia.
  destruct (rest !! i) as [c|]; [|reflexivity].
  rewrite strip_at_shift. destruct (strip_at rest i c) as [next| |b]; simpl.
  - apply IH.
  - reflexivity.
  - replace (length pre + i + 1) with (length pre + (i + 1)) by lia. apply IH.
Qed.

(** From index [i] on, the loop does what the whole function does on
    the suffix that starts there. *)
Lemma strip_loop_suffix (fuel : nat) (src : cstr) (i : nat) (out : cstr) :
  length src - i <= fuel ->
  strip_loop fuel src i out = out ++ strip_script_style_meta (drop i src).
Proof.
  intros Hf. rewrite strip_loop_out. f_equal.
  destruct (Nat.le_gt_cases i (length src)) as [Hi|Hi].
  - unfold strip_script_style_meta.
    pose proof (strip_loop_shift fuel (take i src) (drop i src) 0 []) as Hs.
    rewrite take_drop, length_take_le, Nat.add_0_r in Hs by lia.
    rewrite Hs. apply strip_loop_fuel; rewrite length_drop; lia.
  - rewrite drop_ge by lia. destruct fuel; simpl; [reflexivity|].
    rewrite lookup_ge_None_2 by lia. reflexivity.
Qed.

(** The function, one iteration at a time. *)
Lemma strip_unfold (c : ascii) (s : cstr) :
  strip_script_style_meta (c :: s)
  = match strip_at (c :: s) 0 c with
    | SkipTo next => strip_script_style_meta (drop next (c :: s))
    | StopHere => []
    | CopyByte b => b :: strip_script_style_meta s
    end.
Proof.
  assert (H : strip_script_style_meta (c :: s)
              = match strip_at (c :: s) 0 c with
                | SkipTo next => strip_loop (length s) (c :: s) next []
                | StopHere => []
                | CopyByte b => strip_loop (length s) (c :: s) 1 [b]
                end) by reflexivity.
  rewrite H. destruct (strip_at (c :: s) 0 c) as [next| |b] eqn:E; [|reflexivity|].
  - apply strip_at_advances in E.
    rewrite strip_loop_suffix by (simpl; lia). reflexivity.
  - rewrite strip_loop_suffix by (simpl; lia). reflexivity.
Qed.

Lemma tolower_is_gt (c : ascii) : (tolower c =? tolower ">") = true -> c = ">".
Proof.
  destruct c as [[] [] [] [] [] [] [] []]; vm_compute; congruence.
Qed.

Lemma close_tag_ends_with_gt (t pat : cstr) :
  strncasecmp_eq t (pat ++ [">"]) = true ->
  drop (length pat) t = ">" :: drop (S (length pat)) t.
Proof.
  revert t. induction pat as [|p pat IH]; intros [|c t]; simpl;
    try discriminate.
  - intros H. apply andb_true_iff in H as [H _].
    apply tolower_is_gt in H. subst. rewrite drop_0. reflexivity.
  - intros H. apply andb_true_iff in H as [_ H]. apply IH. exact H.
Qed.

End StripLoop.

Lemma found_close_tag_ends_with_gt (s pat : cstr) (e : nat) :
  strcasestr s (pat ++ [">"]) = Some e ->
  drop (e + length pat) s = ">" :: drop (e + S (length pat)) s.
Proof.
  unfold strcasestr. destruct (pat ++ [">"]) as [|p0 pat'] eqn:Hp;
    [destruct pat; discriminate|].
  rewrite <- Hp. intros H. apply strstr_like_bound in H as [H _].
  apply close_tag_ends_with_gt in H. rewrite !drop_drop in H. exact H.
Qed.

Lemma strip_copies_other (c : ascii) (s : cstr) :
  (c =? "<") = false ->
  strip_script_style_meta (c :: s) = c :: strip_script_style_meta s.
Proof.
  intros Hc. rewrite strip_unfold. unfold strip_at. rewrite Hc. reflexivity.
Qed.

(** The defect behind C5 in general: whenever a script or style block
    is elided, the output continues with the [>] of its closing tag. *)
Theorem elided_block_leaves_closing_bracket (s : cstr) :
  (forall e,
     is_script_tag ("<" :: s) 0 (length ("<" :: s)) = true ->
     strcasestr ("<" :: s) (lit "</script>") = Some e ->
     strip_script_style_meta ("<" :: s)
     = ">" :: strip_script_style_meta (drop (e + 9) ("<" :: s)))
  /\ (forall e,
        is_script_tag ("<" :: s) 0 (length ("<" :: s)) = false ->
        is_style_tag ("<" :: s) 0 (length ("<" :: s)) = true ->
        strcasestr ("<" :: s) (lit "</style>") = Some e ->
        strip_script_style_meta ("<" :: s)
        = ">" :: strip_script_style_meta (drop (e + 8) ("<" :: s))).
Proof.
  split.
  - intros e Htag Hfind. rewrite strip_unfold. unfold strip_at.
    change ("<" =? "<") with true. cbv iota. rewrite Htag, drop_0, Hfind.
    replace (0 + e + 8 - 1 + 1) with (e + 8) by lia.
    pose proof (found_close_tag_ends_with_gt _ (lit "</script") e Hfind) as Hgt.
    change (length (lit "</script")) with 8 in Hgt. rewrite Hgt.
    apply strip_copies_other. reflexivity.
  - intros e Hno Htag Hfind. rewrite strip_unfold. unfold strip_at.
    change ("<" =? "<") with true. cbv iota. rewrite Hno, Htag, drop_0, Hfind.
    replace (0 + e + 7 - 1 + 1) with (e + 7) by lia.
    pose proof (found_close_tag_ends_with_gt _ (lit "</style") e Hfind) as Hgt.
    change (length (lit "</style")) with 7 in Hgt. rewrite Hgt.
    apply strip_copies_other. reflexivity.
Qed.

(** The parts of the elision pass that work as described: bytes
    outside tags are copied; a script or style opener followed by at
    least two more bytes than its name and by no closing tag drops the
    rest of the input; a meta or link tag is skipped up to and
    including its own [>], and what follows is processed as usual. *)
Theorem strip_elides_as_described (s : cstr) :
  (forall c, (c =? "<") = false ->
             strip_script_style_meta (c :: s) = c :: strip_script_style_meta s)
  /\ (is_script_tag ("<" :: s) 0 (length ("<" :: s)) = true ->
      strcasestr ("<" :: s) (lit "</script>") = None ->
      strip_script_style_meta ("<" :: s) = [])
  /\ (is_script_tag ("<" :: s) 0 (length ("<" :: s)) = false ->
      is_style_tag ("<" :: s) 0 (length ("<" :: s)) = true ->
      strcasestr ("<" :: s) (lit "</style>") = None ->
      strip_script_style_meta ("<" :: s) = [])
  /\ (forall g,
        is_script_tag ("<" :: s) 0 (length ("<" :: s)) = false ->
        is_style_tag ("<" :: s) 0 (length ("<" :: s)) = false ->
        is_meta_link_tag ("<" :: s) 0 (length ("<" :: s)) = true ->
        strchr ("<" :: s) ">" = Some g ->
        strip_script_style_meta ("<" :: s)
        = strip_script_style_meta (drop (g + 1) ("<" :: s))).
Proof.
  split; [intros c; apply strip_copies_other|].
  split; [|split].
  - intros Htag Hfind. rewrite strip_unfold. unfold strip_at.
    change ("<" =? "<") with true. cbv iota. rewrite Htag, drop_0, Hfind.
    reflexivity.
  - intros Hno Htag Hfind. rewrite strip_unfold. unfold strip_at.
    change ("<" =? "<") with true. cbv iota. rewrite Hno, Htag, drop_0, Hfind.
    reflexivity.
  - intros g Hno1 Hno2 Htag Hfind. rewrite strip_unfold. unfold strip_at.
    change ("<" =? "<") with true. cbv iota.
    rewrite Hno1, Hno2, Htag, drop_0, Hfind. reflexivity.
Qed.

Example strip_meta_then_text :
  strip_script_style_meta (lit "<head><meta charset=x><title>t</title></head>")
  = lit "<head><title>t</title></head>".
Proof. reflexivity. Qed.

Example strip_unterminated_script :
  strip_script_style_meta (lit "<p>kept</p><script>var x = 1;") = lit "<p>kept</p>".
Proof. reflexivity. Qed.

(** The guard [i + 8 < n]: an opener in the last eight bytes is kept. *)
Example strip_script_at_end :
  strip_script_style_meta (lit "<p>kept</p><script>") = lit "<p>kept</p><script>".
Proof. reflexivity. Qed.

(** C5, at its failing input: on "a<script>x</script>b" the loop
    resumes at the last byte of the closing tag, so its [>] is copied
    to the output; "<style>" behaves alike. *)
Theorem script_block_leaves_closing_bracket :
  strip_script_style_meta (lit "a<script>x</script>b") = lit "a>b"
  /\ strip_script_style_meta (lit "a<style>p{}</style>b") = lit "a>b".
Proof. split; reflexivity. Qed.

(** ** Attributes *)

Lemma length_drop_while (P : ascii -> bool) (s : cstr) :
  length (drop_while P s) <= length s.
Proof.
  induction s as [|c s IH]; simpl; [lia|]. destruct (P c); simpl; lia.
Qed.

(** Every round of [parse_attrs] that yields an attribute consumes at
    least one byte. *)
Lemma parse_attr_shrinks (p : cstr) (a : Attr) (p' : cstr) :
  parse_attr p = Some (a, p') -> length p' < length p.
Proof.
  unfold parse_attr.
  pose proof (length_drop_while isspace p) as H0.
  destruct (drop_while isspace p) as [|c0 p0] eqn:E0; [discriminate|].
  set (p1 := c0 :: p0) in *.
  set (name := take 127 (take_while is_name_char p1)).
  set (p2 := drop (length name) p1).
  set (p3 := drop_while isspace p2).
  set (p4 := match p3 with "=" :: q => q | _ => p3 end).
  set (p5 := drop_while isspace p4).
  assert (H2 : length p2 = length p1 - length name) by apply length_drop.
  assert (H3 : length p3 <= length p2) by apply length_drop_while.
  assert (H4 : length p4 <= length p3)
    by (subst p4; destruct p3 as [|x q]; [lia|];
        destruct (Ascii.eqb_spec x "="); [subst; simpl; lia | destruct x as [[] [] [] [] [] [] [] []]; simpl; lia]).
  assert (H5 : length p5 <= length p4) by apply length_drop_while.
  destruct (match p5 with
            | q :: r => _
            | [] => ([], [])
            end) as [value rest] eqn:Ev.
  assert (Hrest : length rest <= length p5).
  { destruct p5 as [|q r]; [injection Ev as _ <-; simpl; lia|].
    destruct (is_quote q).
    - injection Ev as _ <-.
      set (v := take 511 _). pose proof (length_drop r (length v)) as Hd.
      destruct (drop (length v) r) as [|x r'] eqn:Er; [simpl; lia|].
      destruct (x =? q); simpl in *; lia.
    - injection Ev as _ <-. rewrite length_drop. lia. }
  destruct name as [|n0 name'] eqn:En; [discriminate|].
  intros [= _ <-]. simpl in H2. simpl in *. lia.
Qed.

Lemma parse_attrs_loop_fuel (f1 f2 : nat) (p : cstr) :
  length p <= f1 -> length p <= f2 ->
  parse_attrs_loop f1 p = parse_attrs_loop f2 p.
Proof.
  revert f2 p. induction f1 as [|f1 IH]; intros f2 p H1 H2.
  - destruct p; [|simpl in H1; lia]. destruct f2; reflexivity.
  - destruct f2 as [|f2].
    + destruct p; [reflexivity | simpl in H2; lia].
    + simpl. destruct (parse_attr p) as [[a p']|] eqn:E; [|reflexivity].
      apply parse_attr_shrinks in E. f_equal. apply IH; lia.
Qed.

Example parse_attrs_example :
  parse_attrs (lit " href='a b'  class=big data-x")
  = [ {| attr_name := lit "href"; attr_value := lit "a b" |};
      {| attr_name := lit "class"; attr_value := lit "big" |};
      {| attr_name := lit "data-x"; attr_value := [] |} ].
Proof. reflexivity. Qed.

Example attr_get_value_example :
  attr_get_value (parse_attrs (lit "SRC=pic.png alt='a cat' src=other"))
                 (lit "src")
  = Some (lit "pic.png").
Proof. reflexivity. Qed.

(** ** Whitespace collapsing *)

Lemma one_space_per_run_space (c : ascii) (t : cstr) :
  isspace c = true ->
  one_space_per_run (c :: t) = " " :: one_space_per_run (drop_while isspace t).
Proof.
  revert c. induction t as [|c' t IH]; intros c Hc.
  - simpl. rewrite Hc. reflexivity.
  - cbn [drop_while]. destruct (isspace c') eqn:Hc'.
    + rewrite <- (IH c' Hc'). cbn [one_space_per_run]. rewrite Hc, Hc'. reflexivity.
    + cbn [one_space_per_run]. rewrite Hc, Hc'. reflexivity.
Qed.

Lemma one_space_per_run_other (c : ascii) (t : cstr) :
  isspace c = false ->
  one_space_per_run (c :: t) = c :: one_space_per_run t.
Proof. intros Hc. cbn [one_space_per_run]. rewrite Hc. reflexivity. Qed.

(** The loop writes the space when a run begins, the reading above
    when it ends; the bytes written are the same. *)
Lemma collapse_loop_runs (chunk : cstr) (last_space : bool) (out : cstr) :
  collapse_loop chunk last_space out
  = out ++ one_space_per_run
             (if last_space then drop_while isspace (remove_cr chunk)
              else remove_cr chunk).
Proof.
  revert last_space out. induction chunk as [|ch rest IH]; intros last out.
  - destruct last; simpl; rewrite app_nil_r; reflexivity.
  - cbn [collapse_loop remove_cr].
    destruct (ch =? "013") eqn:Hcr; [apply IH|].
    assert (Hsp : isspace (if (ch =? "010") || (ch =? "009") then " " else ch)
                  = isspace ch).
    { destruct (ch =? "010") eqn:E1; [apply Ascii.eqb_eq in E1; subst; reflexivity|].
      destruct (ch =? "009") eqn:E2; [apply Ascii.eqb_eq in E2; subst; reflexivity|].
      reflexivity. }
    rewrite Hsp. destruct (isspace ch) eqn:Hch.
    + destruct last; rewrite IH.
      * cbn [drop_while]. rewrite Hch. reflexivity.
      * rewrite (one_space_per_run_space _ _ Hch), <- app_assoc. reflexivity.
    + assert (Hsame : (if (ch =? "010") || (ch =? "009") then " " else ch) = ch).
      { destruct (ch =? "010") eqn:E1;
          [apply Ascii.eqb_eq in E1; subst; discriminate|].
        destruct (ch =? "009") eqn:E2;
          [apply Ascii.eqb_eq in E2; subst; discriminate|].
        reflexivity. }
      rewrite Hsame, IH, <- app_assoc.
      destruct last; cbn [drop_while]; rewrite ?Hch;
        rewrite (one_space_per_run_other _ _ Hch); reflexivity.
Qed.

Lemma collapse_whitespace_runs (s : cstr) :
  collapse_whitespace s
  = trim_trailing_spaces (one_space_per_run (remove_cr s)).
Proof. unfold collapse_whitespace. rewrite collapse_loop_runs. reflexivity. Qed.

Lemma one_space_per_run_after_run (s : cstr) :
  match one_space_per_run (drop_while isspace s) with
  | c' :: _ => isspace c' = false
  | [] => True
  end.
Proof.
  induction s as [|d s IH]; [exact I|].
  cbn [drop_while]. destruct (isspace d) eqn:Hd; [exact IH|].
  rewrite (one_space_per_run_other _ _ Hd). exact Hd.
Qed.

Lemma collapsed_one_space_per_run (s : cstr) : collapsed (one_space_per_run s).
Proof.
  induction s as [|c s IH]; [exact I|].
  destruct (isspace c) eqn:Hc.
  - rewrite (one_space_per_run_space _ _ Hc). split.
    + intros _. split; [reflexivity | apply one_space_per_run_after_run].
    + destruct s as [|d s]; [exact I|]. cbn [drop_while].
      destruct (isspace d) eqn:Hd; [|exact IH].
      rewrite (one_space_per_run_space _ _ Hd) in IH. apply IH.
  - rewrite (one_space_per_run_other _ _ Hc). split; [|exact IH].
    rewrite Hc. discriminate.
Qed.

Lemma collapsed_fixed (s : cstr) :
  collapsed s -> one_space_per_run s = s /\ remove_cr s = s.
Proof.
  induction s as [|c s IH]; [intros _; split; reflexivity|].
  intros [Hc Hs]. destruct (IH Hs) as [IH1 IH2]. split.
  - destruct (isspace c) eqn:E.
    + destruct (Hc eq_refl) as [-> Hnext]. cbn [one_space_per_run].
      change (isspace " ") with true. cbv iota.
      destruct s as [|c' s]; [reflexivity|]. rewrite Hnext, IH1. reflexivity.
    + rewrite (one_space_per_run_other _ _ E), IH1. reflexivity.
  - cbn [remove_cr]. destruct (c =? "013") eqn:E.
    + apply Ascii.eqb_eq in E. subst. destruct (Hc eq_refl) as [Habs _].
      discriminate Habs.
    + rewrite IH2. reflexivity.
Qed.

Lemma collapsed_app_l (a b : cstr) : collapsed (a ++ b) -> collapsed a.
Proof.
  induction a as [|c a IH]; [intros _; exact I|].
  simpl. intros [Hc Hs]. split; [|apply IH; exact Hs].
  intros Hsp. destruct (Hc Hsp) as [-> Hnext]. split; [reflexivity|].
  destruct a; [exact I | exact Hnext].
Qed.

Lemma drop_while_suffix (P : ascii -> bool) (s : cstr) :
  exists pre, s = pre ++ drop_while P s.
Proof.
  induction s as [|c s [pre IH]]; [exists []; reflexivity|].
  simpl. destruct (P c); [|exists []; reflexivity].
  exists (c :: pre). simpl. rewrite <- IH. reflexivity.
Qed.

Lemma drop_while_idem (P : ascii -> bool) (s : cstr) :
  drop_while P (drop_while P s) = drop_while P s.
Proof.
  induction s as [|c s IH]; [reflexivity|].
  simpl. destruct (P c) eqn:E; [exact IH|]. simpl. rewrite E. reflexivity.
Qed.

Lemma trim_trailing_spaces_prefix (s : cstr) :
  exists post, s = trim_trailing_spaces s ++ post.
Proof.
  unfold trim_trailing_spaces.
  destruct (drop_while_suffix (fun c => c =? " ") (rev s)) as [pre Hpre].
  exists (rev pre). rewrite <- rev_app_distr, <- Hpre, rev_involutive. reflexivity.
Qed.

Lemma trim_trailing_spaces_idem (s : cstr) :
  trim_trailing_spaces (trim_trailing_spaces s) = trim_trailing_spaces s.
Proof.
  unfold trim_trailing_spaces. rewrite rev_involutive, drop_while_idem. reflexivity.
Qed.

Lemma collapse_whitespace_idempotent (s : cstr) :
  collapse_whitespace (collapse_whitespace s) = collapse_whitespace s.
Proof.
  rewrite (collapse_whitespace_runs (collapse_whitespace s)).
  assert (Hc : collapsed (collapse_whitespace s)).
  { rewrite collapse_whitespace_runs.
    destruct (trim_trailing_spaces_prefix (one_space_per_run (remove_cr s)))
      as [post Hpost].
    apply (collapsed_app_l _ post). rewrite <- Hpost.
    apply collapsed_one_space_per_run. }
  destruct (collapsed_fixed _ Hc) as [H1 H2]. rewrite H2, H1.
  rewrite collapse_whitespace_runs. apply trim_trailing_spaces_idem.
Qed.

(** C8, as amended: the collapsing of a text run outside
    Preformatted/Code deletes carriage returns, replaces every maximal
    run of the remaining whitespace (newlines and tabs included) by
    exactly one space, and then removes the space left at the end, if
    any; the result is collapsed text, and collapsing is idempotent. *)
Theorem collapse_whitespace_spec (s : cstr) :
  collapse_whitespace s
  = trim_trailing_spaces (one_space_per_run (remove_cr s))
  /\ collapsed (collapse_whitespace s)
  /\ collapse_whitespace (collapse_whitespace s) = collapse_whitespace s.
Proof.
  split; [apply collapse_whitespace_runs|]. split.
  - rewrite collapse_whitespace_runs.
    destruct (trim_trailing_spaces_prefix (one_space_per_run (remove_cr s)))
      as [post Hpost].
    apply (collapsed_app_l _ post). rewrite <- Hpost.
    apply collapsed_one_space_per_run.
  - apply collapse_whitespace_idempotent.
Qed.

(** C8 as stated fails on "a " and on a lone carriage return between
    two letters: the trailing run is removed, not replaced by a space,
    and the carriage return disappears without leaving one. *)
Lemma collapse_whitespace_not_one_space_per_run :
  collapse_whitespace (lit "a ") = lit "a"
  /\ one_space_per_run (lit "a ") = lit "a "
  /\ collapse_whitespace ["a"; "013"; "b"] = lit "ab"
  /\ one_space_per_run ["a"; "013"; "b"] = lit "a b".
Proof. repeat split. Qed.

(** ** Tree builder: closing tags *)

Lemma close_scan_found h stack tag n i :
  close_scan h stack tag n = Some i ->
  0 < i <= n
  /\ accepts_close (stack_type h stack i) tag = true
  /\ forall j, i < j <= n -> accepts_close (stack_type h stack j) tag = false.
Proof.
  induction n as [|n IH]; simpl; [discriminate|].
  destruct (accepts_close (type (h !!! (stack !!! S n))) tag) eqn:E.
  - intros [= <-]. repeat split; [lia | lia | exact E | intros j Hj; lia].
  - intros H. destruct (IH H) as (Hi & Ha & Hn). repeat split; [lia | lia | exact Ha |].
    intros j Hj. destruct (decide (j = S n)) as [->|Hne]; [exact E | apply Hn; lia].
Qed.



Lemma close_tag_no_match h stack tag :
  (forall i, 0 < i < length stack ->
             accepts_close (stack_type h stack i) tag = false) ->
  close_tag h stack tag = stack.
Proof.
  intros Hno. unfold close_tag.
  destruct (close_scan h stack tag (length stack - 1)) as [k|] eqn:E; [|reflexivity].
  apply close_scan_found in E as (Hk & Hka & _).
  rewrite Hno in Hka by lia. discriminate.
Qed.

(** The stack only ever shrinks to a prefix that keeps the root. *)
Lemma close_tag_prefix h stack tag :
  exists i, close_tag h stack tag = take i stack
            /\ (stack <> [] -> 0 < i <= length stack).
Proof.
  unfold close_tag.
  destruct (close_scan h stack tag (length stack - 1)) as [k|] eqn:E.
  - exists k. split; [reflexivity|]. intros _.
    apply close_scan_found in E. lia.
  - exists (length stack). split; [symmetry; apply firstn_all|].
    intros Hne. destruct stack; [congruence | simpl; lia].
Qed.



(** "<p><b>x</p>y": </p> pops the open <b> together with the <p>, so
    y becomes a child of the root; "</span>" and "</i>" pop nothing. *)
Example close_tag_pops_through :
  exists h final,
    parse_html_tree (lit "<p><b>x</p>y") = Returned 0 h final false
    /\ children (h !!! 0) = [1; 4]
    /\ text (h !!! 4) = Some (lit "y")
    /\ close_tag h [0; 1; 2] (lit "p") = [0]
    /\ close_tag h [0; 1; 2] (lit "span") = [0; 1; 2]
    /\ close_tag h [0; 1; 2] (lit "i") = [0; 1; 2].
Proof.
  eexists _, _. split; [vm_compute; reflexivity|]. repeat split.
Qed.

Lemma take_while_app_stop (P : ascii -> bool) (a : cstr) (c : ascii) (b : cstr) :
  Forall (fun x => P x = true) a -> P c = false ->
  take_while P (a ++ c :: b) = a.
Proof.
  intros Ha Hc. induction Ha as [|x a Hx Ha IH]; simpl.
  - rewrite Hc. reflexivity.
  - rewrite Hx, IH. reflexivity.
Qed.

Lemma take_while_all_app (P : ascii -> bool) (a : cstr) :
  Forall (fun x => P x = true) a -> take_while P a = a.
Proof.
  intros Ha. induction Ha as [|x a Hx Ha IH]; simpl; [reflexivity|].
  rewrite Hx, IH. reflexivity.
Qed.

Lemma is_lower_tag_char_spec (c : ascii) :
  is_lower_tag_char c = true ->
  is_tag_char c = true /\ tolower c = c /\ negb (c =? ">") = true.
Proof.
  destruct c as [[] [] [] [] [] [] [] []]; vm_compute; intros H;
    repeat split; congruence.
Qed.

(** One pass of the loop at a closing tag [</name>]: the stack becomes
    what [close_tag] says, nothing else changes, and [pos] moves past
    the [>]. *)
Lemma parse_step_closing_tag (name pre rest : cstr) (s : pstate) :
  forallb is_lower_tag_char name = true ->
  length name <= 63 ->
  ps_pos s = length pre ->
  parse_step (pre ++ lit "</" ++ name ++ ">" :: rest) s
  = Next {| ps_pos := ps_pos s + length name + 3;
            ps_heap := ps_heap s;
            ps_stack := close_tag (ps_heap s) (ps_stack s) name |}.
Proof.
  intros Hname Hlen Hpos.
  rewrite forallb_forall in Hname.
  assert (Hall : Forall (fun c => is_tag_char c = true) name
                 /\ Forall (fun c => negb (c =? ">") = true) name
                 /\ map tolower name = name).
  { clear -Hname. induction name as [|c name IH]; [repeat constructor|].
    destruct (is_lower_tag_char_spec c (Hname c ltac:(left; reflexivity)))
      as (H1 & H2 & H3).
    destruct IH as (I1 & I2 & I3); [intros x Hx; apply Hname; right; exact Hx|].
    repeat split; try (constructor; assumption). simpl. rewrite H2, I3. reflexivity. }
  destruct Hall as (Htag & Hgt & Hlow).
  unfold parse_step. change (lit "</") with ["<"; "/"]. cbn [app].
  rewrite (list_lookup_middle pre _ "<" (ps_pos s) Hpos).
  change ("<" =? "<") with true. cbv iota.
  assert (Hdrop : drop (ps_pos s + 1) (pre ++ "<" :: "/" :: name ++ ">" :: rest)
                  = "/" :: name ++ ">" :: rest).
  { rewrite Hpos. rewrite (cons_middle "<"), app_assoc.
    apply drop_app_length'. rewrite length_app. simpl. lia. }
  rewrite Hdrop.
  assert (Htw : take_while (fun c => negb (c =? ">")) ("/" :: name ++ ">" :: rest)
                = "/" :: name).
  { change ("/" :: name ++ ">" :: rest) with (("/" :: name) ++ ">" :: rest).
    apply take_while_app_stop; [|reflexivity].
    constructor; [reflexivity | exact Hgt]. }
  rewrite Htw.
  assert (Hlenh : length (pre ++ "<" :: "/" :: name ++ ">" :: rest)
                  = length pre + length name + 3 + length rest).
  { rewrite length_app. cbn [length]. rewrite length_app. cbn [length]. lia. }
  rewrite Hlenh.
  destruct (Nat.leb_spec (length pre + length name + 3 + length rest)
              (ps_pos s + 1 + length ("/" :: name))) as [Hle|_];
    [cbn [length] in Hle; lia|].
  replace (ps_pos s + 1 + length ("/" :: name) - (ps_pos s + 1))
    with (length ("/" :: name)) by lia.
  change ("/" :: name ++ ">" :: rest) with (("/" :: name) ++ ">" :: rest).
  rewrite take_app_length.
  cbn [strncmp_eq lit list_ascii_of_string]. change ("/" =? "!") with false.
  cbn [andb drop_while isspace]. change (isspace "/") with false. cbv iota.
  cbn [closing_mark]. cbv iota.
  rewrite (take_while_all_app is_tag_char name Htag).
  rewrite (take_ge name 63) by lia. rewrite Hlow.
  f_equal. f_equal. cbn [length]. lia.
Qed.

Lemma unclosable_accepts_none (t : NodeType) (tag : cstr) :
  In t unclosable_node_types -> accepts_close t tag = false.
Proof.
  simpl. intros H.
  repeat (destruct H as [<-|H]; [reflexivity|]). destruct H.
Qed.

Lemma unclosable_name_matches_none (name : cstr) (t : NodeType) :
  In name unclosable_names -> accepts_close t name = false.
Proof.
  simpl. intros H.
  repeat (destruct H as [<-|H]; [destruct t; reflexivity|]). destruct H.
Qed.

(** The closing tag of such an element changes nothing, whatever the
    store and the stack. *)
Lemma close_tag_unclosable_name (h : heap) (stack : list ptr) (name : cstr) :
  In name unclosable_names -> close_tag h stack name = stack.
Proof.
  intros H. apply close_tag_no_match. intros i _.
  apply unclosable_name_matches_none. exact H.
Qed.

(** A node of such a type on top of the stack stays there, or goes
    together with an entry below it. *)
Lemma close_tag_over_unclosable (h : heap) (stack : list ptr) (n : ptr)
    (tag : cstr) :
  In (type (h !!! n)) unclosable_node_types ->
  close_tag h (stack ++ [n]) tag = stack ++ [n]
  \/ exists i, 0 < i < length stack
               /\ accepts_close (stack_type h stack i) tag = true
               /\ close_tag h (stack ++ [n]) tag = take i stack.
Proof.
  intros Ht. unfold close_tag.
  destruct (close_scan h (stack ++ [n]) tag (length (stack ++ [n]) - 1))
    as [i|] eqn:E; [|left; reflexivity].
  right. apply close_scan_found in E as (Hi & Ha & _).
  rewrite length_app in Hi. simpl in Hi.
  unfold stack_type in *.
  destruct (decide (i = length stack)) as [->|Hne].
  - rewrite list_lookup_total_middle in Ha by reflexivity.
    rewrite (unclosable_accepts_none _ _ Ht) in Ha. discriminate.
  - exists i. split; [lia|].
    rewrite lookup_total_app_l in Ha by lia. split; [exact Ha|].
    rewrite take_app_le by lia. reflexivity.
Qed.

(** The names listed are all the names that open such a node. *)
Lemma unclosable_names_complete (name : cstr) (t : NodeType) (a p : bool) :
  classify_open name = Some (t, a, p) ->
  In t unclosable_node_types ->
  In name unclosable_names.
Proof.
  unfold classify_open. intros H Ht.
  repeat match type of H with
         | (if ?b then _ else _) = _ =>
             let E := fresh "E" in
             destruct b eqn:E;
             [injection H as <- <- <-;
              first [ exfalso; simpl in Ht; intuition discriminate
                    | rewrite ?orb_true_iff, ?streq_eq in E;
                      simpl; intuition (subst; auto) ]
             | clear E]
         end.
  discriminate.
Qed.

(** The [switch] has no case for the inline styles, the definition
    lists and the form containers: nodes of these types match no
    closing tag at all.  Their opening tags push a node like any
    container, but the closing tag of such an element ([</strong>],
    [</em>], [</dl>], ...) changes nothing, whatever the store and
    the stack: the pass moves past the tag and leaves the tree and the
    stack as they were, so what follows is attached under the node
    still open.  Such a node leaves the stack only together with an
    entry below it that a closing tag matches. *)
Theorem unclosable_types :
  (forall t tag, In t unclosable_node_types -> accepts_close t tag = false)
  /\ (forall name, In name unclosable_names ->
        exists t stores,
          classify_open name = Some (t, stores, true)
          /\ In t unclosable_node_types)
  /\ (forall name h stack, In name unclosable_names ->
        close_tag h stack name = stack)
  /\ (forall name pre rest s,
        In name unclosable_names ->
        ps_pos s = length pre ->
        parse_step (pre ++ lit "</" ++ name ++ ">" :: rest) s
        = Next {| ps_pos := ps_pos s + length name + 3;
                  ps_heap := ps_heap s;
                  ps_stack := ps_stack s |})
  /\ (forall h stack n tag,
        In (type (h !!! n)) unclosable_node_types ->
        close_tag h (stack ++ [n]) tag = stack ++ [n]
        \/ exists i, 0 < i < length stack
                     /\ accepts_close (stack_type h stack i) tag = true
                     /\ close_tag h (stack ++ [n]) tag = take i stack)
  /\ (forall name t stores pushes,
        classify_open name = Some (t, stores, pushes) ->
        In t unclosable_node_types ->
        In name unclosable_names).
Proof.
  split; [intros t tag; apply unclosable_accepts_none|].
  split.
  { intros name H. simpl in H.
    repeat (destruct H as [<-|H];
            [eexists _, _; split; [reflexivity | simpl; tauto]|]).
    destruct H. }
  split; [intros name h stack; apply close_tag_unclosable_name|].
  split; [|split; [intros h stack n tag; apply close_tag_over_unclosable
                  |intros name t a p; apply unclosable_names_complete]].
  intros name pre rest s Hin Hpos.
  rewrite parse_step_closing_tag; [| | | exact Hpos].
  - rewrite close_tag_unclosable_name by exact Hin. reflexivity.
  - simpl in Hin.
    repeat (destruct Hin as [<-|Hin]; [reflexivity|]). destruct Hin.
  - simpl in Hin.
    repeat (destruct Hin as [<-|Hin]; [simpl; lia|]). destruct Hin.
Qed.

Lemma unclosable_types_witness :
  exists s1 s2,
    parse_step (lit "<strong>bold</strong> text") parse_init = Next s1
    /\ parse_step (lit "<strong>bold</strong> text") s1 = Next s2
    /\ ps_stack s2 = [0; 1]
    /\ parse_step (lit "<strong>bold</strong> text") s2
       = Next {| ps_pos := ps_pos s2 + 6 + 3;
                 ps_heap := ps_heap s2;
                 ps_stack := ps_stack s2 |}.
Proof.
  eexists _, _. split; [vm_compute; reflexivity|].
  split; [vm_compute; reflexivity|]. split; [reflexivity|].
  apply (proj1 (proj2 (proj2 (proj2 unclosable_types)))
           (lit "strong") (lit "<strong>bold") (lit " text")).
  - simpl. tauto.
  - reflexivity.
Defined.

(** In "<p>This is <strong>bold</strong> text.</p>" the text after
    </strong> is therefore a child of the bold node. *)
Example strong_is_not_closed :
  exists h final,
    parse_html_tree (lit "<p>This is <strong>bold</strong> text.</p>")
    = Returned 0 h final false
    /\ type (h !!! 3) = NODE_BOLD
    /\ children (h !!! 3) = [4; 5]
    /\ text (h !!! 4) = Some (lit "bold")
    /\ text (h !!! 5) = Some (lit " text.").
Proof.
  eexists _, _. split; [vm_compute; reflexivity|]. repeat split.
Qed.

(** With no element open, "</div>" is an unmatched closer: the stack
    holds the synthetic root only, which is not searched, and nothing
    changes. *)
Example close_div_with_no_open_element :
  close_tag (ps_heap parse_init) (ps_stack parse_init) (lit "div")
  = ps_stack parse_init.
Proof. reflexivity. Qed.

(** ** Tree builder: opening tags *)

Lemma type_alter (f : Node -> Node) (h : heap) (i j : ptr) :
  (forall n, type (f n) = type n) ->
  type (alter f i h !!! j) = type (h !!! j).
Proof.
  intros Hf. rewrite !list_lookup_total_alt, list_lookup_alter.
  destruct (decide (i = j)) as [->|]; [|reflexivity].
  destruct (h !! j); simpl; [apply Hf | reflexivity].
Qed.

Lemma type_node_append_child (parent child : ptr) (h : heap) (j : ptr) :
  type (node_append_child parent child h !!! j) = type (h !!! j).
Proof.
  unfold node_append_child. rewrite !type_alter; reflexivity.
Qed.

Lemma length_node_append_child (parent child : ptr) (h : heap) :
  length (node_append_child parent child h) = length h.
Proof. unfold node_append_child. rewrite !length_alter. reflexivity. Qed.

Lemma type_node_create (t : NodeType) (h : heap) :
  type ((node_create t h).1 !!! (node_create t h).2) = t.
Proof.
  unfold node_create. cbn [fst snd].
  rewrite list_lookup_total_middle; reflexivity.
Qed.










(** ** Tree builder: the main loop *)

Lemma strncmp_eq_length (s pat : cstr) :
  strncmp_eq s pat = true -> length pat <= length s.
Proof.
  revert s. induction pat as [|p pat IH]; intros [|c s]; simpl;
    try lia; try discriminate.
  intros H. apply andb_true_iff in H as [_ H]. apply IH in H. lia.
Qed.

Lemma strstr_bound (hay needle : cstr) (e : nat) :
  strstr hay needle = Some e -> e + length needle <= length hay.
Proof.
  revert e. induction hay as [|c hay IH]; intros e.
  - destruct needle; simpl; [|discriminate]. intros [= <-]. simpl. lia.
  - cbn [strstr]. destruct (strncmp_eq (c :: hay) needle) eqn:E.
    + intros [= <-]. apply strncmp_eq_length in E. simpl in *. lia.
    + destruct (strstr hay needle) as [k|]; simpl; [|discriminate].
      intros [= <-]. specialize (IH k eq_refl). simpl. lia.
Qed.

Lemma length_take_while (P : ascii -> bool) (s : cstr) :
  length (take_while P s) <= length s.
Proof.
  induction s as [|c s IH]; simpl; [lia|]. destruct (P c); simpl; lia.
Qed.

(** An iteration either leaves the state as it is or moves [pos]
    forward, never past the end of the input. *)
Lemma parse_step_progress (html : cstr) (s s' : pstate) :
  parse_step html s = Next s' ->
  s' = s \/ ps_pos s < ps_pos s' <= length html.
Proof.
  unfold parse_step.
  destruct (html !! ps_pos s) as [c|] eqn:Hc; [|discriminate].
  pose proof (lookup_lt_Some _ _ _ Hc) as Hpos.
  destruct (c =? "<") eqn:Hlt.
  - set (gt := ps_pos s + 1 + length _).
    destruct (length html <=? gt)%nat eqn:Hgt; [discriminate|].
    apply Nat.leb_gt in Hgt.
    set (inside := take (gt - (ps_pos s + 1)) _).
    destruct (strncmp_eq inside (lit "!--")) eqn:Hcm.
    + destruct (strstr _ _) as [e|] eqn:He; intros [= <-]; [|left; reflexivity].
      right. simpl. apply strstr_bound in He. rewrite length_drop in He.
      simpl in He. lia.
    + destruct (closing_mark _) as [[] p];
        try (destruct (open_tag _ _ _ _) as [[h st]|]; [|discriminate]);
        intros [= <-]; right; simpl; lia.
  - intros [= <-]. right. simpl.
    pose proof (length_take_while (fun c => negb (c =? "<")) (drop (ps_pos s) html)) as Hle.
    rewrite length_drop in Hle.
    rewrite (drop_S _ _ _ Hc) in *. simpl in *. rewrite Hlt in *. simpl in *. lia.
Qed.

(** Once an iteration leaves the state unchanged, the loop never ends. *)
Lemma parse_loop_stuck (html : cstr) (s : pstate) :
  parse_step html s = Next s ->
  forall fuel, parse_loop fuel html s = OutOfFuel.
Proof.
  intros Hs fuel. induction fuel as [|fuel IH]; simpl; [reflexivity|].
  rewrite Hs. exact IH.
Qed.

(** More fuel never changes a result already reached. *)
Lemma parse_loop_more_fuel (html : cstr) (fuel k : nat) (s : pstate) :
  parse_loop fuel html s <> OutOfFuel ->
  parse_loop (fuel + k) html s = parse_loop fuel html s.
Proof.
  revert s. induction fuel as [|fuel IH]; intros s; simpl; [congruence|].
  destruct (parse_step html s); auto.
Qed.

(** [strlen(html) - pos + 1] iterations decide the loop: if it has not
    ended by then it never ends. *)
Lemma parse_loop_decided (html : cstr) (fuel : nat) (s : pstate) :
  length html - ps_pos s < fuel ->
  parse_loop fuel html s = OutOfFuel ->
  forall fuel', parse_loop fuel' html s = OutOfFuel.
Proof.
  revert s. induction fuel as [|fuel IH]; intros s Hfuel; [lia|].
  simpl. destruct (parse_step html s) as [s'| | |] eqn:Hs; try discriminate.
  intros Hrun. destruct (parse_step_progress _ _ _ Hs) as [->|Hpos].
  - apply parse_loop_stuck. exact Hs.
  - intros [|fuel']; simpl; [reflexivity|]. rewrite Hs.
    apply IH; [lia | exact Hrun].
Qed.

Lemma parse_html_tree_hangs (html : cstr) :
  parse_html_tree html = OutOfFuel ->
  forall fuel, parse_html_tree_fuel fuel html = OutOfFuel.
Proof.
  unfold parse_html_tree, parse_html_tree_fuel. intros H.
  apply (parse_loop_decided html (S (length html))); [simpl; lia | exact H].
Qed.

Lemma parse_html_tree_returns (html : cstr) (fuel : nat) :
  parse_html_tree html <> OutOfFuel ->
  S (length html) <= fuel ->
  parse_html_tree_fuel fuel html = parse_html_tree html.
Proof.
  unfold parse_html_tree, parse_html_tree_fuel. intros H Hle.
  replace fuel with (S (length html) + (fuel - S (length html))) by lia.
  apply parse_loop_more_fuel. exact H.
Qed.

(** ** Tree builder: the invariant behind [stack[i]->type] *)

Lemma lookup_total_alter_ne (f : Node -> Node) (h : heap) (i j : ptr) :
  i <> j -> alter f i h !!! j = h !!! j.
Proof.
  intros Hne. rewrite !list_lookup_total_alt, list_lookup_alter_ne by exact Hne.
  reflexivity.
Qed.

Lemma parent_alter (f : Node -> Node) (h : heap) (i j : ptr) :
  (forall n, parent (f n) = parent n) ->
  parent (alter f i h !!! j) = parent (h !!! j).
Proof.
  intros Hf. rewrite !list_lookup_total_alt, list_lookup_alter.
  destruct (decide (i = j)) as [->|]; [|reflexivity].
  destruct (h !! j); simpl; [apply Hf | reflexivity].
Qed.

(** Appending a freshly created node under any parent leaves the type
    and the parent link of every older node as they were. *)
Lemma node_append_child_old (par child : ptr) (h : heap) (j : ptr) :
  j <> child ->
  type (node_append_child par child h !!! j) = type (h !!! j)
  /\ parent (node_append_child par child h !!! j) = parent (h !!! j).
Proof.
  intros Hne. split; [apply type_node_append_child|].
  unfold node_append_child. rewrite lookup_total_alter_ne by congruence.
  apply parent_alter. reflexivity.
Qed.

Lemma open_tag_wf (h : heap) (stack : list ptr) (tag a : cstr)
    (h' : heap) (stack' : list ptr) (pos pos' : nat) :
  builder_wf {| ps_pos := pos; ps_heap := h; ps_stack := stack |} ->
  open_tag h stack tag a = Some (h', stack') ->
  builder_wf {| ps_pos := pos'; ps_heap := h'; ps_stack := stack' |}.
Proof.
  unfold builder_wf. simpl. intros (Ht & Hp & Hh & Hs0 & Hcap & Hall).
  unfold open_tag.
  destruct (match classify_open tag with Some k => k | None => _ end)
    as [[t stores] pushes].
  cbn [node_create].
  set (h1 := if stores then _ else _).
  assert (Hlen1 : length h1 = S (length h)).
  { subst h1. destruct stores; rewrite ?length_alter, length_app; simpl; lia. }
  assert (Hold : type (h1 !!! 0) = NODE_DIV /\ parent (h1 !!! 0) = None).
  { subst h1. destruct stores.
    - rewrite lookup_total_alter_ne by lia.
      rewrite lookup_total_app_l by lia. auto.
    - rewrite lookup_total_app_l by lia. auto. }
  set (h2 := node_append_child _ _ h1).
  assert (Hlen2 : length h2 = S (length h))
    by (subst h2; rewrite length_node_append_child; exact Hlen1).
  assert (Hold2 : type (h2 !!! 0) = NODE_DIV /\ parent (h2 !!! 0) = None).
  { subst h2. destruct (node_append_child_old (stack !!! (length stack - 1))
                          (length h) h1 0) as [-> ->]; [lia | exact Hold]. }
  assert (Hall2 : Forall (fun p => p < length h2) stack).
  { rewrite Hlen2. eapply Forall_impl; [exact Hall|]. simpl. intros; lia. }
  destruct pushes.
  - destruct (length stack <? STACK_SLOTS)%nat eqn:E; [|discriminate].
    apply Nat.ltb_lt in E. intros [= <- <-].
    destruct Hold2 as [-> ->]. repeat split; try lia.
    + apply lookup_app_l_Some. exact Hs0.
    + rewrite length_app. simpl. lia.
    + apply Forall_app. split; [exact Hall2|]. constructor; [lia | constructor].
  - intros [= <- <-]. destruct Hold2 as [-> ->]. repeat split; auto; lia.
Qed.

Lemma add_text_wf (h : heap) (stack : list ptr) (chunk : cstr) (pos pos' : nat) :
  builder_wf {| ps_pos := pos; ps_heap := h; ps_stack := stack |} ->
  builder_wf {| ps_pos := pos'; ps_heap := add_text h stack chunk;
                ps_stack := stack |}.
Proof.
  unfold builder_wf. simpl. intros (Ht & Hp & Hh & Hs0 & Hcap & Hall).
  unfold add_text.
  set (par := stack !!! (length stack - 1)).
  set (verbatim := match type (h !!! par) with
                   | NODE_PRE | NODE_CODE => true | _ => false end).
  set (out := if verbatim then chunk else collapse_whitespace chunk).
  assert (Hnew : let h' := node_append_child par (length h)
                   (alter (with_text (Some out)) (length h)
                          (h ++ [fresh_node NODE_TEXT])) in
                 type (h' !!! 0) = NODE_DIV /\ parent (h' !!! 0) = None
                 /\ 0 < length h' /\ Forall (fun p => p < length h') stack).
  { cbv zeta.
    destruct (node_append_child_old par (length h)
                (alter (with_text (Some out)) (length h)
                       (h ++ [fresh_node NODE_TEXT])) 0) as [-> ->]; [lia|].
    rewrite lookup_total_alter_ne by lia.
    rewrite lookup_total_app_l by lia.
    rewrite length_node_append_child, length_alter, length_app. simpl.
    repeat split; auto; try lia.
    eapply Forall_impl; [exact Hall|]. simpl. intros; lia. }
  cbv zeta in Hnew. destruct Hnew as (H1 & H2 & H3 & H4).
  cbn [node_create].
  destruct chunk as [|c0 chunk]; [repeat split; auto|].
  destruct verbatim; [repeat split; auto|].
  destruct out; repeat split; auto.
Qed.

Lemma close_tag_wf (h : heap) (stack : list ptr) (tag : cstr) (pos pos' : nat) :
  builder_wf {| ps_pos := pos; ps_heap := h; ps_stack := stack |} ->
  builder_wf {| ps_pos := pos'; ps_heap := h;
                ps_stack := close_tag h stack tag |}.
Proof.
  unfold builder_wf. simpl. intros (Ht & Hp & Hh & Hs0 & Hcap & Hall).
  destruct (close_tag_prefix h stack tag) as (i & -> & Hi).
  assert (Hne : stack <> []) by (intros ->; discriminate).
  specialize (Hi Hne). repeat split; auto.
  - rewrite lookup_take_lt by lia. exact Hs0.
  - rewrite length_take. lia.
  - apply Forall_take. exact Hall.
Qed.

Lemma parse_init_wf : builder_wf parse_init.
Proof.
  unfold builder_wf, parse_init, STACK_SLOTS. simpl.
  repeat split; try lia. repeat constructor.
Qed.

Lemma parse_step_wf (html : cstr) (s s' : pstate) :
  builder_wf s -> parse_step html s = Next s' -> builder_wf s'.
Proof.
  intros Hwf. unfold parse_step.
  destruct (html !! ps_pos s) as [c|]; [|discriminate].
  destruct (c =? "<").
  - destruct (_ <=? _)%nat; [discriminate|].
    destruct (strncmp_eq _ _).
    + destruct (strstr _ _); intros [= <-]; [exact Hwf | exact Hwf].
    + destruct (closing_mark _) as [[] p].
      * intros [= <-]. destruct s. apply close_tag_wf with (pos := ps_pos0).
        exact Hwf.
      * destruct (open_tag _ _ _ _) as [[h st]|] eqn:E; [|discriminate].
        intros [= <-]. destruct s.
        eapply open_tag_wf; [exact Hwf | exact E].
  - intros [= <-]. destruct s. apply add_text_wf with (pos := ps_pos0). exact Hwf.
Qed.

Lemma parse_loop_wf (fuel : nat) (html : cstr) (s : pstate)
    (r : ptr) (h : heap) (final : pstate) (t : bool) :
  builder_wf s ->
  parse_loop fuel html s = Returned r h final t ->
  builder_wf final /\ r = 0 /\ h = ps_heap final.
Proof.
  revert s. induction fuel as [|fuel IH]; intros s Hwf; [discriminate|].
  simpl. destruct (parse_step html s) as [s'|s'|s'|] eqn:E; try discriminate.
  - apply IH. eapply parse_step_wf; eassumption.
  - intros [= <- <- <- <-]. unfold parse_step in E.
    destruct (html !! ps_pos s); [|injection E as <-; auto].
    destruct (_ =? _); [|discriminate].
    destruct (_ <=? _)%nat; [discriminate|]. destruct (strncmp_eq _ _).
    + destruct (strstr _ _); discriminate.
    + destruct (closing_mark _) as [[] p]; [discriminate|].
      destruct (open_tag _ _ _ _) as [[]|]; discriminate.
  - intros [= <- <- <- <-]. unfold parse_step in E.
    destruct (html !! ps_pos s); [|discriminate].
    destruct (_ =? _); [|discriminate].
    destruct (_ <=? _)%nat; [injection E as <-; auto|]. destruct (strncmp_eq _ _).
    + destruct (strstr _ _); discriminate.
    + destruct (closing_mark _) as [[] p]; [discriminate|].
      destruct (open_tag _ _ _ _) as [[]|]; discriminate.
Qed.

(** ** Tree builder: when the loop returns *)

Lemma take_while_all (P : ascii -> bool) (s : cstr) :
  length s <= length (take_while P s) -> Forall (fun c => P c = true) s.
Proof.
  induction s as [|c s IH]; [constructor|].
  simpl. destruct (P c) eqn:E; simpl; [|lia].
  intros H. constructor; [exact E | apply IH; lia].
Qed.

Lemma strncmp_eq_take (s pat : cstr) (n : nat) :
  strncmp_eq (take n s) pat = true -> strncmp_eq s pat = true.
Proof.
  revert s n. induction pat as [|p pat IH]; intros s n; [reflexivity|].
  destruct s as [|c s], n as [|n]; simpl; try discriminate.
  intros H. apply andb_true_iff in H as [H1 H2].
  rewrite H1. simpl. eapply IH. exact H2.
Qed.

(** Every way one iteration can go. *)
Lemma parse_step_cases (html : cstr) (s : pstate) :
  match parse_step html s with
  | Next s' =>
      (s' = s
       /\ html !! ps_pos s = Some "<"
       /\ strncmp_eq (drop (ps_pos s + 1) html) (lit "!--") = true
       /\ strstr (drop (ps_pos s + 4) html) (lit "-->") = None)
      \/ (ps_pos s < ps_pos s' <= length html
          /\ length (ps_stack s') <= length (ps_stack s) + 1
          /\ (html !! ps_pos s <> Some "<" -> ps_stack s' = ps_stack s))
  | EndOfInput s' => s' = s /\ length html <= ps_pos s
  | UnterminatedTag s' =>
      s' = s /\ html !! ps_pos s = Some "<"
      /\ Forall (fun c => c <> ">") (drop (ps_pos s + 1) html)
  | StackOverflow =>
      html !! ps_pos s = Some "<" /\ STACK_SLOTS <= length (ps_stack s)
  end.
Proof.
  pose proof (parse_step_progress html s) as Hprog.
  unfold parse_step in *.
  destruct (html !! ps_pos s) as [c|] eqn:Hc;
    [|split; [reflexivity | apply lookup_ge_None_1; exact Hc]].
  destruct (c =? "<") eqn:Hlt.
  - apply Ascii.eqb_eq in Hlt. subst c.
    set (gt := ps_pos s + 1 + length _) in *.
    destruct (length html <=? gt)%nat eqn:Hgt.
    + split; [reflexivity|]. split; [reflexivity|].
      apply Nat.leb_le in Hgt. subst gt.
      pose proof (lookup_lt_Some _ _ _ Hc).
      eapply Forall_impl;
        [apply (take_while_all (fun c => negb (c =? ">")));
         rewrite length_drop; lia|].
      simpl. intros x Hx ->. discriminate.
    + set (inside := take (gt - (ps_pos s + 1)) _) in *.
      destruct (strncmp_eq inside (lit "!--")) eqn:Hcm.
      * destruct (strstr _ _) as [e|] eqn:He.
        -- right. destruct (Hprog _ eq_refl) as [Heq|Hp];
             [apply (f_equal ps_pos) in Heq; simpl in Heq; lia|].
           split; [exact Hp|]. simpl. split; [lia | reflexivity].
        -- left. split; [reflexivity|]. split; [reflexivity|].
           split; [eapply strncmp_eq_take; exact Hcm | reflexivity].
      * destruct (closing_mark _) as [[] p].
        -- right. destruct (Hprog _ eq_refl) as [Heq|Hp];
             [apply (f_equal ps_pos) in Heq; simpl in Heq; lia|].
           split; [exact Hp|]. simpl. split; [|congruence].
           destruct (close_tag_prefix (ps_heap s) (ps_stack s)
                       (map tolower (take 63 (take_while is_tag_char p))))
             as (i & -> & _).
           rewrite length_take. lia.
        -- destruct (open_tag _ _ _ _) as [[h st]|] eqn:Ho.
           ++ right. destruct (Hprog _ eq_refl) as [Heq|Hp];
                [apply (f_equal ps_pos) in Heq; simpl in Heq; lia|].
              split; [exact Hp|]. simpl. split; [|congruence].
              unfold open_tag in Ho.
              destruct (match classify_open _ with Some k => k | None => _ end)
                as [[t stores] pushes].
              cbn [node_create] in Ho. destruct pushes.
              ** destruct (_ <? _)%nat; [|discriminate].
                 injection Ho as _ <-. rewrite length_app. simpl. lia.
              ** injection Ho as _ <-. lia.
           ++ split; [reflexivity|]. unfold open_tag in Ho.
              destruct (match classify_open _ with Some k => k | None => _ end)
                as [[t stores] pushes].
              cbn [node_create] in Ho. destruct pushes; [|discriminate].
              destruct (_ <? _)%nat eqn:E; [discriminate|].
              apply Nat.ltb_ge in E. exact E.
  - right. destruct (Hprog _ eq_refl) as [Heq|Hp].
    + apply (f_equal ps_pos) in Heq. simpl in Heq.
      pose proof (lookup_lt_Some _ _ _ Hc) as Hlen.
      rewrite (drop_S _ _ _ Hc) in Heq. simpl in Heq. rewrite Hlt in Heq.
      simpl in Heq. lia.
    + split; [exact Hp|]. simpl. split; [lia | reflexivity].
Qed.

Lemma count_byte_app (c : ascii) (a b : cstr) :
  count_byte c (a ++ b) = count_byte c a + count_byte c b.
Proof. induction a as [|x a IH]; simpl; [reflexivity | rewrite IH; lia]. Qed.

Lemma count_byte_take_le (c : ascii) (s : cstr) (i j : nat) :
  i <= j -> count_byte c (take i s) <= count_byte c (take j s).
Proof.
  intros Hij. replace j with (i + (j - i)) by lia.
  rewrite <- take_take_drop, count_byte_app. lia.
Qed.

Lemma count_byte_take_lt (c : ascii) (s : cstr) (i j : nat) :
  s !! i = Some c -> i < j ->
  S (count_byte c (take i s)) <= count_byte c (take j s).
Proof.
  intros Hc Hij.
  transitivity (count_byte c (take (S i) s)); [|apply count_byte_take_le; lia].
  rewrite (take_S_r _ _ _ Hc), count_byte_app. simpl.
  rewrite Ascii.eqb_refl. lia.
Qed.

Lemma count_byte_take_all (c : ascii) (s : cstr) (i : nat) :
  count_byte c (take i s) <= count_byte c s.
Proof.
  rewrite <- (take_drop i s) at 2. rewrite count_byte_app. lia.
Qed.

Lemma comments_closed_at (html : cstr) (pos : nat) :
  comments_closed html = true ->
  html !! pos = Some "<" ->
  strncmp_eq (drop (pos + 1) html) (lit "!--") = true ->
  strstr (drop (pos + 4) html) (lit "-->") <> None.
Proof.
  unfold comments_closed. rewrite forallb_forall. intros Hall Hc Hcm.
  specialize (Hall pos). rewrite in_seq in Hall.
  pose proof (lookup_lt_Some _ _ _ Hc) as Hlen.
  specialize (Hall ltac:(lia)). unfold comment_closed_at in Hall.
  rewrite (drop_S _ _ _ Hc) in Hall.
  replace (S pos) with (pos + 1) in Hall by lia.
  change (strncmp_eq ("<" :: drop (pos + 1) html) (lit "<!--"))
    with (("<" =? "<") && strncmp_eq (drop (pos + 1) html) (lit "!--")) in Hall.
  rewrite Hcm in Hall. simpl in Hall.
  destruct (strstr _ _); [discriminate | discriminate Hall].
Qed.

(** With every comment closed and fewer than 4096 tag openers, the
    loop returns within [strlen(html) - pos + 1] iterations. *)
Lemma parse_loop_returns (html : cstr) (fuel : nat) (s : pstate) :
  comments_closed html = true ->
  count_byte "<" html < STACK_SLOTS ->
  length (ps_stack s) <= 1 + count_byte "<" (take (ps_pos s) html) ->
  length html - ps_pos s < fuel ->
  exists h final t, parse_loop fuel html s = Returned 0 h final t.
Proof.
  intros Hcc Hcnt. revert s. induction fuel as [|fuel IH]; intros s Hst Hf; [lia|].
  simpl. pose proof (parse_step_cases html s) as Hcase.
  destruct (parse_step html s) as [s'|s'|s'|]; [| eauto | eauto |].
  - destruct Hcase as [(_ & Hc & Hcm & Hno) | (Hp & Hlen & Hsame)].
    + exfalso. exact (comments_closed_at _ _ Hcc Hc Hcm Hno).
    + apply IH; [|lia].
      assert (Hdec : html !! ps_pos s = Some "<" \/ html !! ps_pos s <> Some "<").
      { destruct (html !! ps_pos s) as [c|]; [|right; discriminate].
        destruct (Ascii.eqb_spec c "<") as [->|Hne]; [left; reflexivity|].
        right. congruence. }
      destruct Hdec as [Hc|Hc].
      * pose proof (count_byte_take_lt _ _ _ (ps_pos s') Hc ltac:(lia)). lia.
      * rewrite (Hsame Hc).
        pose proof (count_byte_take_le "<" html (ps_pos s) (ps_pos s') ltac:(lia)).
        lia.
  - exfalso. destruct Hcase as [Hc Hfull].
    pose proof (count_byte_take_lt _ _ _ (S (ps_pos s)) Hc ltac:(lia)).
    pose proof (count_byte_take_all "<" html (S (ps_pos s))). lia.
Qed.

(** How a returned run ended: by [break] exactly at an unterminated
    tag, otherwise with the input used up. *)
Lemma parse_loop_end (html : cstr) (fuel : nat) (s : pstate)
    (r : ptr) (h : heap) (final : pstate) (t : bool) :
  parse_loop fuel html s = Returned r h final t ->
  if t then html !! ps_pos final = Some "<"
            /\ Forall (fun c => c <> ">") (drop (ps_pos final + 1) html)
  else length html <= ps_pos final.
Proof.
  revert s. induction fuel as [|fuel IH]; intros s; [discriminate|].
  simpl. pose proof (parse_step_cases html s) as Hcase.
  destruct (parse_step html s) as [s'|s'|s'|]; try discriminate.
  - apply IH.
  - intros [= <- <- <- <-]. destruct Hcase as [-> H]. exact H.
  - intros [= <- <- <- <-]. destruct Hcase as (-> & H1 & H2). auto.
Qed.

(** ** Tree builder: the store is a tree *)

(** What creating a node and appending it under [p] does to the store:
    [f] stands for the assignment of [attrs] or [text] in between. *)
Lemma attach_lookup (h : heap) (p : ptr) (t : NodeType) (f : Node -> Node) :
  p < length h ->
  (forall n, parent (f n) = parent n /\ children (f n) = children n) ->
  let h' := node_append_child p (length h)
              (alter f (length h) (h ++ [fresh_node t])) in
  length h' = S (length h)
  /\ (forall j, j < length h -> j <> p -> h' !!! j = h !!! j)
  /\ parent (h' !!! p) = parent (h !!! p)
  /\ children (h' !!! p) = children (h !!! p) ++ [length h]
  /\ parent (h' !!! length h) = Some p
  /\ children (h' !!! length h) = [].
Proof.
  intros Hp Hf h'. subst h'. unfold node_append_child.
  set (n := length h).
  assert (Hlen : length (alter f n (h ++ [fresh_node t])) = S n)
    by (rewrite length_alter, length_app; simpl; lia).
  split; [rewrite !length_alter, length_app; simpl; lia|].
  split.
  { intros j Hj Hne. rewrite !lookup_total_alter_ne by lia.
    apply lookup_total_app_l. lia. }
  assert (Hpl : forall g, alter g p (alter f n (h ++ [fresh_node t])) !!! p
                          = g (h !!! p)).
  { intros g. rewrite list_lookup_total_alt, list_lookup_alter_eq.
    rewrite list_lookup_alter_ne by lia. rewrite lookup_app_l by lia.
    rewrite (list_lookup_lookup_total_lt h p) by lia. reflexivity. }
  split; [rewrite lookup_total_alter_ne by lia; rewrite Hpl; reflexivity|].
  split; [rewrite lookup_total_alter_ne by lia; rewrite Hpl; reflexivity|].
  assert (Hnl : alter (with_parent (Some p)) n
                  (alter (with_children (fun cs => cs ++ [n])) p
                     (alter f n (h ++ [fresh_node t]))) !!! n
                = with_parent (Some p) (f (fresh_node t))).
  { rewrite list_lookup_total_alt, list_lookup_alter_eq.
    rewrite list_lookup_alter_ne by lia. rewrite list_lookup_alter_eq.
    rewrite list_lookup_middle by reflexivity. reflexivity. }
  rewrite Hnl. split; [reflexivity|]. simpl. apply Hf.
Qed.

Lemma tree_wf_attach (h : heap) (p : ptr) (t : NodeType) (f : Node -> Node) :
  p < length h ->
  (forall n, parent (f n) = parent n /\ children (f n) = children n) ->
  tree_wf h ->
  tree_wf (node_append_child p (length h)
             (alter f (length h) (h ++ [fresh_node t]))).
Proof.
  intros Hp Hf (Hroot & Hpar & Hch & Hnd).
  destruct (attach_lookup h p t f Hp Hf) as (Hlen & Hold & Hpp & Hpc & Hnp & Hnc).
  set (h' := node_append_child _ _ _) in *.
  assert (Hparent : forall j, j < length h -> parent (h' !!! j) = parent (h !!! j)).
  { intros j Hj. destruct (Nat.eq_dec j p) as [->|Hne]; [exact Hpp|].
    rewrite Hold by assumption. reflexivity. }
  assert (Hchildren : forall j c, j < length h -> In c (children (h !!! j)) ->
                                  In c (children (h' !!! j))).
  { intros j c Hj Hin. destruct (Nat.eq_dec j p) as [->|Hne].
    - rewrite Hpc. apply in_or_app. left. exact Hin.
    - rewrite Hold by assumption. exact Hin. }
  split; [|split; [|split]].
  - destruct (Nat.eq_dec p 0) as [->|Hne].
    + rewrite Hpp. exact Hroot.
    + rewrite Hold by lia. exact Hroot.
  - intros j Hj. rewrite Hlen in Hj.
    destruct (Nat.eq_dec j (length h)) as [->|Hne].
    + exists p. split; [exact Hp|]. split; [exact Hnp|].
      rewrite Hpc. apply in_or_app. right. left. reflexivity.
    + destruct (Hpar j ltac:(lia)) as (q & Hq & Hqp & Hin).
      exists q. split; [exact Hq|]. rewrite Hparent by lia.
      split; [exact Hqp|]. apply Hchildren; [lia | exact Hin].
  - intros q c Hq Hin. rewrite Hlen in *.
    destruct (Nat.eq_dec q (length h)) as [->|Hqn].
    + rewrite Hnc in Hin. destruct Hin.
    + destruct (Nat.eq_dec q p) as [->|Hqp].
      * rewrite Hpc in Hin. apply in_app_or in Hin as [Hin|[<-|[]]].
        -- destruct (Hch p c Hp Hin) as [Hc Hcp]. split; [lia|].
           rewrite Hparent by lia. exact Hcp.
        -- split; [lia | exact Hnp].
      * rewrite Hold in Hin by lia.
        destruct (Hch q c ltac:(lia) Hin) as [Hc Hcp]. split; [lia|].
        rewrite Hparent by lia. exact Hcp.
  - intros q Hq. rewrite Hlen in Hq.
    destruct (Nat.eq_dec q (length h)) as [->|Hqn]; [rewrite Hnc; constructor|].
    destruct (Nat.eq_dec q p) as [->|Hqp].
    + rewrite Hpc. apply NoDup_app. split; [apply Hnd; exact Hp|].
      split; [|apply NoDup_singleton].
      intros c Hc Hcn. apply list_elem_of_In in Hc.
      apply list_elem_of_In in Hcn. destruct Hcn as [<-|[]].
      destruct (Hch p _ Hp Hc). lia.
    + rewrite Hold by lia. apply Hnd. lia.
Qed.

Lemma stack_top_valid (s : pstate) :
  builder_wf s ->
  ps_stack s !!! (length (ps_stack s) - 1) < length (ps_heap s).
Proof.
  intros (_ & _ & _ & Hs0 & _ & Hall).
  pose proof (lookup_lt_Some _ _ _ Hs0) as Hlen.
  rewrite Forall_lookup in Hall. eapply Hall.
  apply list_lookup_lookup_total_lt. lia.
Qed.

Lemma parse_init_tree_wf : tree_wf (ps_heap parse_init).
Proof.
  unfold tree_wf. simpl. split; [reflexivity|]. split; [intros j Hj; lia|].
  split.
  - intros p c Hp. assert (p = 0) as -> by lia. simpl. intros [].
  - intros p Hp. assert (p = 0) as -> by lia. constructor.
Qed.

Lemma alter_nothing (h : heap) (i : ptr) : h = alter (fun n => n) i h.
Proof.
  symmetry. apply list_eq. intros j. rewrite list_lookup_alter.
  destruct (decide (i = j)) as [->|]; [|reflexivity].
  destruct (h !! j); reflexivity.
Qed.

Lemma parse_step_tree_wf (html : cstr) (s s' : pstate) :
  builder_wf s -> tree_wf (ps_heap s) ->
  parse_step html s = Next s' -> tree_wf (ps_heap s').
Proof.
  intros Hwf Ht. pose proof (stack_top_valid s Hwf) as Htop. unfold parse_step.
  destruct (html !! ps_pos s) as [c|]; [|discriminate].
  destruct (c =? "<").
  - destruct (_ <=? _)%nat; [discriminate|].
    destruct (strncmp_eq _ _).
    + destruct (strstr _ _); intros [= <-]; exact Ht.
    + destruct (closing_mark _) as [[] p]; [intros [= <-]; exact Ht|].
      destruct (open_tag _ _ _ _) as [[h st]|] eqn:E; [|discriminate].
      intros [= <-]. simpl. unfold open_tag in E.
      destruct (match classify_open _ with Some k => k | None => _ end)
        as [[t stores] pushes].
      cbn [node_create] in E.
      assert (Hh : tree_wf h).
      { assert (h = node_append_child
                      (ps_stack s !!! (length (ps_stack s) - 1))
                      (length (ps_heap s))
                      (if stores
                       then alter (with_attrs
                              (parse_attrs (take 511
                                 (drop (length (take 63 (take_while is_tag_char p))) p))))
                              (length (ps_heap s))
                              (ps_heap s ++ [fresh_node t])
                       else ps_heap s ++ [fresh_node t])) as ->.
        { destruct pushes; [destruct (_ <? _)%nat; [|discriminate]|];
            injection E as <- _; reflexivity. }
        destruct stores.
        - apply tree_wf_attach; [exact Htop | intros n; split; reflexivity | exact Ht].
        - rewrite (alter_nothing (ps_heap s ++ [fresh_node t]) (length (ps_heap s))).
          apply tree_wf_attach; [exact Htop | intros n; split; reflexivity | exact Ht]. }
      exact Hh.
  - intros [= <-]. simpl. unfold add_text.
    destruct (take_while _ _) as [|c0 chunk]; [exact Ht|].
    set (verbatim := match type _ with NODE_PRE | NODE_CODE => true | _ => false end).
    cbn [node_create].
    destruct verbatim.
    + apply tree_wf_attach; [exact Htop | intros n; split; reflexivity | exact Ht].
    + destruct (collapse_whitespace (c0 :: chunk)); [exact Ht|].
      apply tree_wf_attach; [exact Htop | intros n; split; reflexivity | exact Ht].
Qed.

Lemma parse_loop_tree_wf (fuel : nat) (html : cstr) (s : pstate)
    (r : ptr) (h : heap) (final : pstate) (t : bool) :
  builder_wf s -> tree_wf (ps_heap s) ->
  parse_loop fuel html s = Returned r h final t ->
  tree_wf h.
Proof.
  revert s. induction fuel as [|fuel IH]; intros s Hwf Ht; [discriminate|].
  simpl. pose proof (parse_step_cases html s) as Hcase.
  destruct (parse_step html s) as [s'|s'|s'|] eqn:E; try discriminate.
  - apply IH; [eapply parse_step_wf | eapply parse_step_tree_wf]; eassumption.
  - intros [= <- <- <- <-]. destruct Hcase as [-> _]. exact Ht.
  - intros [= <- <- <- <-]. destruct Hcase as [-> _]. exact Ht.
Qed.

(** ** Tree builder: how a run ends *)

(** A run that writes past the stack does so in a state it has
    reached: the stack is full there and the pass is at a tag opener. *)
Lemma parse_loop_overflow_at (html : cstr) (fuel : nat) (s : pstate) :
  builder_wf s ->
  parse_loop fuel html s = Undefined ->
  exists k s', k < fuel
               /\ state_after k html s = Some s'
               /\ builder_wf s'
               /\ parse_step html s' = StackOverflow
               /\ length (ps_stack s') = STACK_SLOTS
               /\ html !! ps_pos s' = Some "<".
Proof.
  revert s. induction fuel as [|fuel IH]; intros s Hwf; [discriminate|].
  simpl. pose proof (parse_step_cases html s) as Hcase.
  destruct (parse_step html s) as [s'|s'|s'|] eqn:E; try discriminate.
  - intros Hrun.
    destruct (IH s' ltac:(eapply parse_step_wf; eassumption) Hrun)
      as (k & s2 & Hk & Hreach & Hrest).
    exists (S k), s2. split; [lia|]. split; [|exact Hrest].
    simpl. rewrite E. exact Hreach.
  - intros _. exists 0, s. split; [lia|]. split; [reflexivity|].
    split; [exact Hwf|]. split; [exact E|].
    destruct Hcase as [Hc Hfull]. destruct Hwf as (_ & _ & _ & _ & Hcap & _).
    split; [lia | exact Hc].
Qed.

(** A run that returns has reached its final state. *)
Lemma parse_loop_returned_at (html : cstr) (fuel : nat) (s : pstate)
    (r : ptr) (h : heap) (final : pstate) (t : bool) :
  parse_loop fuel html s = Returned r h final t ->
  exists k, k < fuel /\ state_after k html s = Some final.
Proof.
  revert s. induction fuel as [|fuel IH]; intros s; [discriminate|].
  simpl. pose proof (parse_step_cases html s) as Hcase.
  destruct (parse_step html s) as [s'|s'|s'|] eqn:E; try discriminate.
  - intros Hrun. destruct (IH s' Hrun) as (k & Hk & Hreach).
    exists (S k). split; [lia|]. simpl. rewrite E. exact Hreach.
  - intros [= <- <- <- <-]. destruct Hcase as [-> _].
    exists 0. split; [lia | reflexivity].
  - intros [= <- <- <- <-]. destruct Hcase as [-> _].
    exists 0. split; [lia | reflexivity].
Qed.

(** A run that has not ended after [strlen(html) - pos + 1] passes has
    reached a comment opener with no [-->] after it, where a pass
    leaves the state as it is. *)
Lemma parse_loop_stutters_at (html : cstr) (fuel : nat) (s : pstate) :
  length html - ps_pos s < fuel ->
  parse_loop fuel html s = OutOfFuel ->
  exists k s', k < fuel
               /\ state_after k html s = Some s'
               /\ parse_step html s' = Next s'
               /\ html !! ps_pos s' = Some "<"
               /\ strncmp_eq (drop (ps_pos s' + 1) html) (lit "!--") = true
               /\ strstr (drop (ps_pos s' + 4) html) (lit "-->") = None.
Proof.
  revert s. induction fuel as [|fuel IH]; intros s Hfuel; [lia|].
  simpl. pose proof (parse_step_cases html s) as Hcase.
  destruct (parse_step html s) as [s'|s'|s'|] eqn:E; try discriminate.
  intros Hrun.
  destruct Hcase as [(-> & Hc & Hcm & Hno) | (Hp & _)].
  - exists 0, s. split; [lia|]. split; [reflexivity|]. auto.
  - destruct (IH s' ltac:(lia) Hrun) as (k & s2 & Hk & Hreach & Hrest).
    exists (S k), s2. split; [lia|]. split; [|exact Hrest].
    simpl. rewrite E. exact Hreach.
Qed.

(** Every run of the builder ends in one of three ways, each in a
    state the loop reaches within [strlen(html)] passes from the
    start: it returns the root (node 0 of the store of that state),
    having stopped early exactly when a tag opener has no [>] after
    it; or it stands at a tag opener with its 4096-entry stack full
    and the pass writes past the stack; or it stands at a comment
    opener with no [-->] after it, where a pass changes nothing, and
    the loop never ends. *)
Theorem parse_html_tree_outcomes (html : cstr) :
  match parse_html_tree html with
  | Returned r h final truncated =>
      r = 0 /\ h = ps_heap final /\ builder_wf final /\ tree_wf h
      /\ (exists k, k <= length html
                    /\ state_after k html parse_init = Some final)
      /\ (forall fuel, S (length html) <= fuel ->
            parse_html_tree_fuel fuel html = Returned r h final truncated)
      /\ (if truncated
          then html !! ps_pos final = Some "<"
               /\ Forall (fun c => c <> ">") (drop (ps_pos final + 1) html)
          else length html <= ps_pos final)
  | Undefined =>
      exists k s, k <= length html
                  /\ state_after k html parse_init = Some s
                  /\ builder_wf s
                  /\ html !! ps_pos s = Some "<"
                  /\ length (ps_stack s) = STACK_SLOTS
                  /\ parse_step html s = StackOverflow
  | OutOfFuel =>
      (forall fuel, parse_html_tree_fuel fuel html = OutOfFuel)
      /\ exists k s, k <= length html
                     /\ state_after k html parse_init = Some s
                     /\ parse_step html s = Next s
                     /\ html !! ps_pos s = Some "<"
                     /\ strncmp_eq (drop (ps_pos s + 1) html) (lit "!--") = true
                     /\ strstr (drop (ps_pos s + 4) html) (lit "-->") = None
  end.
Proof.
  destruct (parse_html_tree html) as [r h final t| |] eqn:E.
  - unfold parse_html_tree, parse_html_tree_fuel in E.
    pose proof (parse_loop_tree_wf _ _ _ _ _ _ _ parse_init_wf
                  parse_init_tree_wf E) as Htree.
    destruct (parse_loop_returned_at _ _ _ _ _ _ _ E) as (k & Hk & Hreach).
    destruct (parse_loop_wf _ _ _ _ _ _ _ parse_init_wf E) as (Hwf & -> & ->).
    split; [reflexivity|]. split; [reflexivity|]. split; [exact Hwf|].
    split; [exact Htree|]. split; [exists k; split; [lia | exact Hreach]|]. split.
    + intros fuel Hfuel.
      replace fuel with (S (length html) + (fuel - S (length html))) by lia.
      unfold parse_html_tree_fuel.
      rewrite parse_loop_more_fuel; [exact E | rewrite E; discriminate].
    + exact (parse_loop_end _ _ _ _ _ _ _ E).
  - unfold parse_html_tree, parse_html_tree_fuel in E.
    destruct (parse_loop_overflow_at _ _ _ parse_init_wf E)
      as (k & s & Hk & Hreach & Hwf & Hstep & Hfull & Hc).
    exists k, s. repeat split; try assumption; try apply Hwf. lia.
  - split; [apply parse_html_tree_hangs; exact E|].
    unfold parse_html_tree, parse_html_tree_fuel in E.
    destruct (parse_loop_stutters_at html (S (length html)) parse_init
                ltac:(simpl; lia) E)
      as (k & s & Hk & Hrest).
    exists k, s. split; [lia | exact Hrest].
Qed.

(** When every comment opener is closed and the input has fewer than
    4096 tag openers, the builder returns its root, a NODE_DIV at the
    top of a well-formed tree, and it has stopped before the end of the
    input only at a tag opener with no [>] after it. *)
Theorem parse_html_tree_terminates (html : cstr) :
  comments_closed html = true ->
  count_byte "<" html < STACK_SLOTS ->
  exists h final truncated,
    parse_html_tree html = Returned 0 h final truncated
    /\ type (h !!! 0) = NODE_DIV
    /\ tree_wf h
    /\ (if truncated
        then html !! ps_pos final = Some "<"
             /\ Forall (fun c => c <> ">") (drop (ps_pos final + 1) html)
        else length html <= ps_pos final).
Proof.
  intros Hcc Hcnt.
  destruct (parse_loop_returns html (S (length html)) parse_init Hcc Hcnt)
    as (h & final & t & E); [simpl; lia | simpl; lia |].
  exists h, final, t. split; [exact E|].
  pose proof (parse_loop_tree_wf _ _ _ _ _ _ _ parse_init_wf
                parse_init_tree_wf E) as Htree.
  destruct (parse_loop_wf _ _ _ _ _ _ _ parse_init_wf E) as (Hwf & _ & ->).
  destruct Hwf as (Ht & _). split; [exact Ht|]. split; [exact Htree|].
  exact (parse_loop_end _ _ _ _ _ _ _ E).
Qed.

Lemma parse_html_tree_terminates_witness :
  exists h final truncated,
    parse_html_tree (lit "<p>This is <strong>bold</strong> text.</p><!-- note --><br")
    = Returned 0 h final truncated
    /\ type (h !!! 0) = NODE_DIV
    /\ tree_wf h
    /\ (if truncated
        then lit "<p>This is <strong>bold</strong> text.</p><!-- note --><br"
               !! ps_pos final = Some "<"
             /\ Forall (fun c => c <> ">")
                  (drop (ps_pos final + 1)
                     (lit "<p>This is <strong>bold</strong> text.</p><!-- note --><br"))
        else length (lit "<p>This is <strong>bold</strong> text.</p><!-- note --><br")
             <= ps_pos final).
Proof.
  apply (parse_html_tree_terminates
           (lit "<p>This is <strong>bold</strong> text.</p><!-- note --><br")).
  - vm_compute. reflexivity.
  - vm_compute. lia.
Defined.

(** A comment opener whose tag has a closing [>] but which is followed
    by no [-->] leaves [pos] where it is: [continue] re-enters the loop
    in the same state. *)
Lemma unterminated_comment_stutters (html : cstr) (s : pstate) (g : nat) :
  html !! ps_pos s = Some "<" ->
  strncmp_eq (drop (ps_pos s + 1) html) (lit "!--") = true ->
  strchr (drop (ps_pos s + 4) html) ">" = Some g ->
  strstr (drop (ps_pos s + 4) html) (lit "-->") = None ->
  parse_step html s = Next s.
Proof.
  intros Hc Hcm Hg Hno. unfold parse_step. rewrite Hc. simpl (_ =? _).
  set (rest := drop (ps_pos s + 1) html) in *.
  assert (Hrest : exists tl, rest = "!" :: "-" :: "-" :: tl
                             /\ drop (ps_pos s + 4) html = tl).
  { replace (ps_pos s + 4) with (ps_pos s + 1 + 3) by lia.
    rewrite <- drop_drop. fold rest.
    change (lit "!--") with ["!"; "-"; "-"] in Hcm.
    destruct rest as [|a [|b [|c tl]]]; cbn [strncmp_eq] in Hcm;
      rewrite ?andb_false_r in Hcm; try discriminate.
    apply andb_true_iff in Hcm as [Ha Hcm]. apply andb_true_iff in Hcm as [Hb Hcm].
    apply andb_true_iff in Hcm as [Hc' _].
    apply Ascii.eqb_eq in Ha, Hb, Hc'. subst. exists tl. split; reflexivity. }
  destruct Hrest as (tl & Hrest & Htl). rewrite Htl in *.
  assert (Hlen : length rest = length html - (ps_pos s + 1)) by apply length_drop.
  assert (Hscan : exists pre post, tl = pre ++ ">" :: post
            /\ take_while (fun c => negb (c =? ">")) tl = pre).
  { clear -Hg. revert g Hg. induction tl as [|c tl IH]; intros g; simpl; [discriminate|].
    destruct (c =? ">") eqn:E.
    - intros _. apply Ascii.eqb_eq in E. subst. exists [], tl. split; reflexivity.
    - destruct (strchr tl ">") as [k|]; simpl; [|discriminate]. intros _.
      destruct (IH k eq_refl) as (pre & post & -> & Hpre).
      exists (c :: pre), post. simpl. rewrite Hpre. split; reflexivity. }
  destruct Hscan as (pre & post & Htl' & Hpre).
  rewrite Hrest. simpl take_while. rewrite Hpre.
  rewrite Hrest, Htl' in Hlen. simpl in Hlen. rewrite length_app in Hlen. simpl in Hlen.
  replace (length html <=? _)%nat with false by (symmetry; apply Nat.leb_gt; simpl; lia).
  replace (ps_pos s + 1 + length ("!" :: "-" :: "-" :: pre) - (ps_pos s + 1))
    with (S (S (S (length pre)))) by (simpl; lia).
  assert (Hin : strncmp_eq (take (S (S (S (length pre)))) ("!" :: "-" :: "-" :: tl))
                           (lit "!--") = true) by reflexivity.
  rewrite Hin, Hno. reflexivity.
Qed.

(** C3, at its failing input: on "<!-- a >" (a comment opener, a later
    [>], no [-->]) the first iteration returns to the loop test with
    the state unchanged, and no number of iterations returns a tree.
    The same happens in every state that stands at such an opener. *)
Theorem unterminated_comment_never_returns :
  parse_step (lit "<!-- a >") parse_init = Next parse_init
  /\ (forall fuel, parse_html_tree_fuel fuel (lit "<!-- a >") = OutOfFuel)
  /\ (forall html s g,
        html !! ps_pos s = Some "<" ->
        strncmp_eq (drop (ps_pos s + 1) html) (lit "!--") = true ->
        strchr (drop (ps_pos s + 4) html) ">" = Some g ->
        strstr (drop (ps_pos s + 4) html) (lit "-->") = None ->
        forall fuel, parse_loop fuel html s = OutOfFuel).
Proof.
  split; [reflexivity|]. split; [apply parse_loop_stuck; reflexivity|].
  intros html s g Hc Hcm Hg Hno. apply parse_loop_stuck.
  exact (unterminated_comment_stutters html s g Hc Hcm Hg Hno).
Qed.

(** C6, at its failing input: on "<p>a</p><!-- b <i>c</i>" the builder
    returns no root node, whatever the number of iterations allowed. *)
Theorem malformed_comment_returns_no_root :
  forall fuel,
    parse_html_tree_fuel fuel (lit "<p>a</p><!-- b <i>c</i>") = OutOfFuel.
Proof. apply parse_html_tree_hangs. vm_compute. reflexivity. Qed.

Lemma length_concat_repeat (x : cstr) (n : nat) :
  length (concat (repeat x n)) = n * length x.
Proof.
  induction n as [|n IH]; [reflexivity|].
  cbn [repeat concat]. rewrite length_app, IH. lia.
Qed.

Lemma concat_repeat_split (x : cstr) (n j : nat) :
  j < n ->
  concat (repeat x n)
  = concat (repeat x j) ++ x ++ concat (repeat x (n - S j)).
Proof.
  intros Hj. replace n with (j + S (n - S j)) at 1 by lia.
  rewrite repeat_app, concat_app. reflexivity.
Qed.

(** One pass of the loop at an opening tag [<b>]. *)
Lemma parse_step_open_b (pre rest : cstr) (s : pstate) :
  ps_pos s = length pre ->
  parse_step (pre ++ lit "<b>" ++ rest) s
  = match open_tag (ps_heap s) (ps_stack s) (lit "b") [] with
    | Some (h, st) =>
        Next {| ps_pos := ps_pos s + 3; ps_heap := h; ps_stack := st |}
    | None => StackOverflow
    end.
Proof.
  intros Hpos. unfold parse_step.
  change (lit "<b>" ++ rest) with ("<" :: "b" :: ">" :: rest).
  rewrite (list_lookup_middle pre _ "<" (ps_pos s) Hpos).
  change ("<" =? "<") with true. cbv iota.
  assert (Hdrop : drop (ps_pos s + 1) (pre ++ "<" :: "b" :: ">" :: rest)
                  = "b" :: ">" :: rest).
  { rewrite Hpos. rewrite (cons_middle "<"), app_assoc.
    apply drop_app_length'. rewrite length_app. simpl. lia. }
  rewrite Hdrop.
  change (take_while (fun c => negb (c =? ">")) ("b" :: ">" :: rest)) with ["b"].
  assert (Hlenh : length (pre ++ "<" :: "b" :: ">" :: rest)
                  = length pre + 3 + length rest).
  { rewrite length_app. cbn [length]. lia. }
  rewrite Hlenh.
  destruct (Nat.leb_spec (length pre + 3 + length rest)
              (ps_pos s + 1 + length ["b"])) as [Hle|_];
    [cbn [length] in Hle; lia|].
  replace (ps_pos s + 1 + length ["b"] - (ps_pos s + 1)) with 1
    by (cbn [length]; lia).
  change (take 1 ("b" :: ">" :: rest)) with ["b"].
  change (strncmp_eq ["b"] (lit "!--")) with false. cbv iota.
  change (drop_while isspace ["b"]) with ["b"].
  change (closing_mark ["b"]) with (false, ["b"]). cbv iota beta.
  change (take 63 (take_while is_tag_char ["b"])) with ["b"].
  change (map tolower ["b"]) with (lit "b").
  change (take 511 (drop (length ["b"]) ["b"])) with (@nil ascii).
  destruct (open_tag _ _ _ _) as [[h st]|]; [|reflexivity].
  f_equal. f_equal. cbn [length]. lia.
Qed.

(** [<b>] pushes a node while the stack has a free slot, and writes
    past it otherwise. *)
Lemma open_tag_b (h : heap) (stack : list ptr) :
  (length stack < STACK_SLOTS ->
   exists h', open_tag h stack (lit "b") [] = Some (h', stack ++ [length h]))
  /\ (STACK_SLOTS <= length stack -> open_tag h stack (lit "b") [] = None).
Proof.
  unfold open_tag.
  change (classify_open (lit "b")) with (Some (NODE_BOLD, false, true)).
  cbv iota beta. cbn [node_create].
  split; intros H.
  - destruct (Nat.ltb_spec (length stack) STACK_SLOTS) as [_|Hge]; [|lia].
    eexists. reflexivity.
  - destruct (Nat.ltb_spec (length stack) STACK_SLOTS) as [Hlt|_]; [lia|].
    reflexivity.
Qed.

(** With as many [<b>] as the stack has slots, the loop pushes one node
    per tag until the stack is full, and the next tag writes past it. *)
Lemma nested_b_overflows (fuel j : nat) (s : pstate) :
  ps_pos s = 3 * j ->
  length (ps_stack s) = S j ->
  j < STACK_SLOTS ->
  STACK_SLOTS - j <= fuel ->
  parse_loop fuel (concat (repeat (lit "<b>") STACK_SLOTS)) s = Undefined.
Proof.
  revert j s. induction fuel as [|fuel IH]; intros j s Hpos Hst Hj Hfuel; [lia|].
  cbn [parse_loop].
  rewrite (concat_repeat_split (lit "<b>") STACK_SLOTS j Hj).
  rewrite parse_step_open_b
    by (rewrite length_concat_repeat; cbn [length lit list_ascii_of_string]; lia).
  destruct (open_tag_b (ps_heap s) (ps_stack s)) as [Hfree Hfull].
  destruct (Nat.lt_ge_cases (length (ps_stack s)) STACK_SLOTS) as [Hlt|Hge].
  - destruct (Hfree Hlt) as (h' & ->).
    rewrite <- (concat_repeat_split (lit "<b>") STACK_SLOTS j Hj).
    apply (IH (S j)); cbn [ps_pos ps_stack].
    + lia.
    + rewrite length_app. cbn [length]. lia.
    + lia.
    + lia.
  - rewrite (Hfull Hge). reflexivity.
Qed.

(** The other way of not returning: 4096 opening tags with no closing
    tag in between.  The stack holds the root and 4095 nodes when the
    last one is to be pushed at [stack[4096]]. *)
Lemma deep_nesting_overflows_stack :
  parse_html_tree (concat (repeat (lit "<b>") 4096)) = Undefined.
Proof.
  unfold parse_html_tree, parse_html_tree_fuel.
  change 4096 with STACK_SLOTS.
  apply (nested_b_overflows _ 0); [reflexivity | reflexivity | unfold STACK_SLOTS; lia |].
  rewrite length_concat_repeat. change (length (lit "<b>")) with 3. lia.
Qed.

(** ** Word wrap *)

Section WordWrap.

Variables W indent : Z.

Lemma longest_word_from_mono (txt : cstr) (a b : nat) :
  a <= b -> longest_word_from a txt <= longest_word_from b txt.
Proof.
  revert a b. induction txt as [|c txt IH]; intros a b Hab; simpl; [exact Hab|].
  destruct (c =? " "); [lia | apply IH; lia].
Qed.

Lemma longest_word_from_ge (txt : cstr) (a : nat) :
  a <= longest_word_from a txt.
Proof.
  revert a. induction txt as [|c txt IH]; intros a; simpl; [lia|].
  destruct (c =? " "); [lia | specialize (IH (S a)); lia].
Qed.

Lemma length_word_push (word : cstr) (c : ascii) :
  length (word_push word c) <= S (length word).
Proof.
  unfold word_push. destruct (_ <? _)%nat; [rewrite length_app; simpl|]; lia.
Qed.

Lemma wrap_word_fits (y curx : Z) (word : cstr) (y' curx' : Z) (ds : list draw) :
  wrap_word W indent y curx word = (y', curx', ds) ->
  (indent <= curx)%Z ->
  (indent + Z.of_nat (length word) < W)%Z ->
  Forall (fits_row W indent) ds /\ (indent <= curx')%Z.
Proof.
  unfold wrap_word. intros H Hcur Hfit.
  destruct (curx + Z.of_nat (length word) >=? W)%Z eqn:E;
    injection H as <- <- <-; (split; [repeat constructor; simpl; lia | lia]).
Qed.

Lemma wrap_space_fits (y curx : Z) (y' curx' : Z) (ds : list draw) :
  wrap_space W indent y curx = (y', curx', ds) ->
  (indent <= curx)%Z ->
  Forall (fits_row W indent) ds /\ (indent <= curx')%Z.
Proof.
  unfold wrap_space. intros H Hcur.
  destruct (curx + 1 >=? W)%Z eqn:E; injection H as <- <- <-.
  - split; [constructor | lia].
  - split; [repeat constructor; simpl; lia | lia].
Qed.

Lemma wrap_loop_fits (txt : cstr) (y curx : Z) (word : cstr) :
  (indent <= curx)%Z ->
  (indent + Z.of_nat (longest_word_from (length word) txt) < W)%Z ->
  Forall (fits_row W indent) (wrap_loop W indent txt y curx word).2.
Proof.
  revert y curx word. induction txt as [|c rest IH]; intros y curx word Hcur Hfit.
  - simpl in *. destruct word as [|w0 word]; [constructor|].
    destruct (wrap_word W indent y curx (w0 :: word)) as [[y1 x1] ds1] eqn:E1.
    apply wrap_word_fits in E1 as [H1 _]; [exact H1 | exact Hcur | exact Hfit].
  - cbn [wrap_loop longest_word_from] in *. destruct (c =? " ").
    + pose proof (longest_word_from_ge rest 0) as Hge.
      destruct word as [|w0 word].
      * destruct (wrap_space W indent y curx) as [[y1 x1] ds1] eqn:E1.
        apply wrap_space_fits in E1 as [H1 Hx1]; [|exact Hcur].
        specialize (IH y1 x1 [] Hx1).
        destruct (wrap_loop W indent rest y1 x1 []) as [y2 ds2].
        simpl in *. apply Forall_app. split; [exact H1 | apply IH; lia].
      * destruct (wrap_word W indent y curx (w0 :: word)) as [[y1 x1] ds1] eqn:E1.
        apply wrap_word_fits in E1 as [H1 Hx1]; [|exact Hcur|lia].
        destruct (wrap_space W indent y1 x1) as [[y2 x2] ds2] eqn:E2.
        apply wrap_space_fits in E2 as [H2 Hx2]; [|exact Hx1].
        specialize (IH y2 x2 [] Hx2).
        destruct (wrap_loop W indent rest y2 x2 []) as [y3 ds3].
        simpl in *. rewrite !Forall_app. repeat split; [exact H1 | exact H2 |].
        apply IH. lia.
    + apply IH; [exact Hcur|].
      pose proof (longest_word_from_mono rest _ _ (length_word_push word c)). lia.
Qed.

End WordWrap.

(** ** Tables *)

Ltac zeqb :=
  repeat match goal with
         | H : context [(?a =? ?b)%Z] |- _ =>
             first [ rewrite (proj2 (Z.eqb_eq a b)) in H by lia
                   | rewrite (proj2 (Z.eqb_neq a b)) in H by lia ]
         | |- context [(?a =? ?b)%Z] =>
             first [ rewrite (proj2 (Z.eqb_eq a b)) by lia
                   | rewrite (proj2 (Z.eqb_neq a b)) by lia ]
         end.

Section TableLayout.

Lemma row_text_app (y : Z) (a b : list draw) :
  row_text y (a ++ b) = row_text y a ++ row_text y b.
Proof. unfold row_text. apply flat_map_app. Qed.

Lemma row_text_ch (y y' x : Z) (c : ascii) (ds : list draw) :
  row_text y (mvwaddch y' x c :: ds)
  = (if (y' =? y)%Z then [c] else []) ++ row_text y ds.
Proof. reflexivity. Qed.

Lemma row_text_str (y y' x : Z) (s : cstr) (ds : list draw) :
  row_text y (mvwaddstr y' x s :: ds)
  = (if (y' =? y)%Z then s else []) ++ row_text y ds.
Proof. reflexivity. Qed.

Lemma count_bars_app (y : Z) (a b : list draw) :
  count_bars y (a ++ b) = count_bars y a + count_bars y b.
Proof.
  induction a as [|[y' x c|y' x s] a IH]; simpl; [reflexivity| |exact IH].
  rewrite IH. lia.
Qed.

Lemma count_bars_other (y y' x : Z) (c : ascii) (ds : list draw) :
  c <> "|" -> count_bars y (mvwaddch y' x c :: ds) = count_bars y ds.
Proof.
  intros Hc. simpl. destruct (Ascii.eqb_spec c "|"); [contradiction|].
  rewrite andb_false_r. reflexivity.
Qed.

Lemma put_run_row (y y' x : Z) (ch : ascii) (k : nat) :
  row_text y (put_run y' x ch k) = (if (y' =? y)%Z then repeat ch k else [])
  /\ (ch <> "|" -> count_bars y (put_run y' x ch k) = 0).
Proof.
  revert x. induction k as [|k IH]; intros x; cbn [put_run repeat].
  - destruct (y' =? y)%Z; auto.
  - destruct (IH (x + 1)%Z) as [IH1 IH2]. rewrite row_text_ch, IH1. split.
    + destruct (y' =? y)%Z; reflexivity.
    + intros Hch. rewrite count_bars_other by exact Hch. auto.
Qed.

Lemma border_cols_row (y y' x : Z) (colw : list Z) :
  row_text y (border_cols y' x colw)
  = (if (y' =? y)%Z
     then flat_map (fun w => repeat "-" (Z.to_nat (w + 2)) ++ ["+"]) colw
     else [])
  /\ count_bars y (border_cols y' x colw) = 0.
Proof.
  revert x. induction colw as [|w colw IH]; intros x; cbn [border_cols flat_map].
  - destruct (y' =? y)%Z; auto.
  - destruct (IH (x + (w + 2) + 1)%Z) as [IH1 IH2].
    destruct (put_run_row y y' x "-" (Z.to_nat (w + 2))) as [P1 P2].
    rewrite row_text_app, count_bars_app, row_text_ch, P1, P2, IH1 by discriminate.
    rewrite count_bars_other, IH2 by discriminate. split; [|reflexivity].
    destruct (y' =? y)%Z; [|reflexivity]. rewrite <- app_assoc. reflexivity.
Qed.

Lemma border_row_text (y y' : Z) (colw : list Z) :
  row_text y (border_row y' colw)
  = (if (y' =? y)%Z then border_text colw else [])
  /\ count_bars y (border_row y' colw) = 0.
Proof.
  destruct (border_cols_row y y' 1 colw) as [H1 H2].
  unfold border_row, border_text.
  rewrite row_text_ch, H1, count_bars_other, H2 by discriminate.
  split; [|reflexivity]. destruct (y' =? y)%Z; reflexivity.
Qed.

Lemma data_cols_text (y y' x : Z) (row : list (option cstr)) (c : nat)
    (colw : list Z) :
  c + length colw <= length row ->
  exists ds,
    data_cols y' x row c colw = Some ds
    /\ row_text y ds = (if (y' =? y)%Z then data_text_from row c colw else [])
    /\ count_bars y ds = (if (y' =? y)%Z then length colw else 0).
Proof.
  revert x c. induction colw as [|w colw IH]; intros x c Hlen;
    cbn [data_cols data_text_from length].
  - exists []. destruct (y' =? y)%Z; auto.
  - simpl in Hlen.
    destruct (row !! c) as [cell|] eqn:Hc;
      [|apply lookup_ge_None_1 in Hc; lia].
    destruct (IH (x + 1 + w + 2)%Z (S c)) as (ds & -> & Ht & Hb); [lia|].
    eexists. split; [reflexivity|].
    set (body := match cell with Some s => _ | None => _ end).
    assert (Hbody : row_text y body
                    = (if (y' =? y)%Z then padded_cell w cell else [])
                    /\ count_bars y body = 0).
    { subst body. destruct cell as [s|].
      - rewrite row_text_str. simpl. rewrite app_nil_r.
        destruct (y' =? y)%Z; auto.
      - destruct (put_run_row y y' (x + 1) " " (Z.to_nat w)) as [P1 P2].
        split; [exact P1 | apply P2; discriminate]. }
    destruct Hbody as [B1 B2].
    rewrite row_text_ch, row_text_app, B1, !row_text_ch, Ht.
    rewrite count_bars_other, count_bars_app, B2, count_bars_other by discriminate.
    cbn [count_bars]. rewrite Hb. simpl default.
    destruct (y' =? y)%Z; simpl; auto.
Qed.

Lemma data_row_text (y y' : Z) (row : list (option cstr)) (colw : list Z) :
  length colw <= length row ->
  exists ds,
    data_row y' row colw = Some ds
    /\ row_text y ds = (if (y' =? y)%Z then data_text row colw else [])
    /\ count_bars y ds = (if (y' =? y)%Z then S (length colw) else 0).
Proof.
  intros Hlen. unfold data_row.
  destruct (data_cols_text y y' 1 row 0 colw) as (ds & -> & Ht & Hb); [lia|].
  eexists. split; [reflexivity|]. rewrite row_text_ch. cbn [count_bars].
  rewrite Ht, Hb. unfold data_text. destruct (y' =? y)%Z; auto.
Qed.
Lemma table_rows_text (y0 : Z) (cells : list (list (option cstr)))
    (colw : list Z) :
  Forall (fun row => length colw <= length row) cells ->
  exists ds,
    table_rows y0 cells colw
    = Some ((y0 + 2 * Z.of_nat (length cells))%Z, ds)
    /\ (forall y, (y < y0)%Z -> row_text y ds = [] /\ count_bars y ds = 0)
    /\ (forall r row,
          cells !! r = Some row ->
          row_text (y0 + 2 * Z.of_nat r) ds = data_text row colw
          /\ count_bars (y0 + 2 * Z.of_nat r) ds = S (length colw)
          /\ row_text (y0 + 2 * Z.of_nat r + 1) ds = border_text colw).
Proof.
  intros Hall. revert y0. induction Hall as [|row cells Hrow Hall IH]; intros y0.
  - exists []. simpl. split; [f_equal; f_equal; lia|]. split; [auto|].
    intros r row Hr. discriminate.
  - destruct (IH (y0 + 2)%Z) as (ds' & Hrows & Hbelow & Hat).
    cbn [table_rows].
    assert (Hrt : forall y, exists ds,
               data_row y0 row colw = Some ds
               /\ row_text y ds = (if (y0 =? y)%Z then data_text row colw else [])
               /\ count_bars y ds = (if (y0 =? y)%Z then S (length colw) else 0))
      by (intros y; apply data_row_text; exact Hrow).
    destruct (Hrt y0) as (ds0 & Hd0 & _). rewrite Hd0, Hrows.
    eexists. split; [f_equal; f_equal; simpl length; lia|].
    assert (Hrow_at : forall y,
              row_text y ds0 = (if (y0 =? y)%Z then data_text row colw else [])
              /\ count_bars y ds0 = (if (y0 =? y)%Z then S (length colw) else 0)).
    { intros y. destruct (Hrt y) as (ds1 & Hd1 & H1 & H2).
      rewrite Hd0 in Hd1. injection Hd1 as <-. auto. }
    split.
    + intros y Hy. destruct (Hrow_at y) as [R1 R2].
      destruct (border_row_text y (y0 + 1) colw) as [B1 B2].
      destruct (Hbelow y ltac:(lia)) as [L1 L2]. zeqb.
      rewrite !row_text_app, !count_bars_app, R1, R2, B1, B2, L1, L2. auto.
    + intros r row' Hr. destruct r as [|r].
      * injection Hr as <-. replace (y0 + 2 * Z.of_nat 0)%Z with y0 by lia.
        destruct (Hrow_at y0) as [R1 R2]. destruct (Hrow_at (y0 + 1)%Z) as [R3 _].
        destruct (border_row_text y0 (y0 + 1) colw) as [B1 B2].
        destruct (border_row_text (y0 + 1) (y0 + 1) colw) as [B3 _].
        destruct (Hbelow y0 ltac:(lia)) as [L1 L2].
        destruct (Hbelow (y0 + 1)%Z ltac:(lia)) as [L3 _]. zeqb.
        rewrite !row_text_app, !count_bars_app, R1, R2, R3, B1, B2, B3, L1, L2, L3.
        rewrite !app_nil_r. simpl. split; [reflexivity|]. split; [lia | reflexivity].
      * simpl in Hr. destruct (Hat r row' Hr) as (A1 & A2 & A3).
        replace (y0 + 2 * Z.of_nat (S r))%Z with (y0 + 2 + 2 * Z.of_nat r)%Z by lia.
        destruct (Hrow_at (y0 + 2 + 2 * Z.of_nat r)%Z) as [R1 R2].
        destruct (Hrow_at (y0 + 2 + 2 * Z.of_nat r + 1)%Z) as [R3 _].
        destruct (border_row_text (y0 + 2 + 2 * Z.of_nat r) (y0 + 1) colw) as [B1 B2].
        destruct (border_row_text (y0 + 2 + 2 * Z.of_nat r + 1) (y0 + 1) colw) as [B3 _].
        zeqb.
        rewrite !row_text_app, !count_bars_app, R1, R2, R3, B1, B2, B3, A1, A2, A3.
        auto.
Qed.

Lemma widest_cell_nonneg (cells : list (list (option cstr))) (c : nat) :
  (0 <= widest_cell cells c)%Z.
Proof. induction cells as [|row cells IH]; simpl; lia. Qed.

Lemma col_width_max (cells : list (list (option cstr))) (c : nat) (mw : Z) :
  Forall (fun row => c < length row) cells ->
  (0 <= mw)%Z ->
  col_width cells c mw = Some (Z.max mw (widest_cell cells c)).
Proof.
  intros Hall. revert mw. induction Hall as [|row cells Hrow Hall IH]; intros mw Hmw.
  - simpl. f_equal. lia.
  - simpl. unfold cell_len.
    destruct (row !! c) as [[s|]|] eqn:Hc;
      [| |apply lookup_ge_None_1 in Hc; lia].
    + destruct (Z.gtb_spec (Z.of_nat (length s)) mw); rewrite IH by lia;
        f_equal; pose proof (widest_cell_nonneg cells c); lia.
    + rewrite IH by lia. f_equal. pose proof (widest_cell_nonneg cells c). lia.
Qed.

Lemma mapM_map {A B : Type} (f : A -> option B) (g : A -> B) (l : list A) :
  Forall (fun x => f x = Some (g x)) l -> mapM f l = Some (map g l).
Proof.
  induction 1 as [|x l Hx Hl IH]; [reflexivity|].
  simpl. rewrite Hx. simpl. rewrite IH. reflexivity.
Qed.

Lemma col_widths_max (cells : list (list (option cstr))) (cols : nat) :
  Forall (fun row => cols <= length row) cells ->
  col_widths cells cols
  = Some (map (fun c => Z.max 1 (widest_cell cells c)) (seq 0 cols)).
Proof.
  intros Hall. unfold col_widths. apply mapM_map.
  apply Forall_forall. intros c Hc. apply list_elem_of_In, in_seq in Hc.
  apply col_width_max; [|lia].
  eapply Forall_impl; [exact Hall|]. simpl. intros; lia.
Qed.

End TableLayout.

(** The layout C4 describes, for every table in which no row is more
    than one cell short of the widest ([cells[r][c]] is then always
    inside row [r]'s array): column [c] is max(1, longest cell text of
    the column) wide plus two bytes of padding; the first row written
    is a border; each data row is followed by the border again; a data
    row is a [|], then for each column a space, the cell text padded
    on the right to the column width, a space and a [|], which makes
    columns + 1 border bars. *)
Theorem table_layout (y : Z) (cells : list (list (option cstr))) :
  cells <> [] ->
  Forall (fun row => table_cols cells <= length row) cells ->
  exists colw ds,
    col_widths cells (table_cols cells) = Some colw
    /\ length colw = table_cols cells
    /\ (forall c, c < table_cols cells ->
                  colw !! c = Some (Z.max 1 (widest_cell cells c)))
    /\ render_cells y cells
       = Some ((y + 1 + 2 * Z.of_nat (length cells))%Z, ds)
    /\ row_text y ds = border_text colw
    /\ (forall r row,
          cells !! r = Some row ->
          row_text (y + 1 + 2 * Z.of_nat r) ds = data_text row colw
          /\ count_bars (y + 1 + 2 * Z.of_nat r) ds = S (table_cols cells)
          /\ row_text (y + 1 + 2 * Z.of_nat r + 1) ds = border_text colw).
Proof.
  intros Hne Hall.
  pose proof (col_widths_max cells (table_cols cells) Hall) as Hw.
  set (colw := map _ _) in Hw.
  assert (Hlen : length colw = table_cols cells)
    by (subst colw; rewrite length_map, length_seq; reflexivity).
  destruct (table_rows_text (y + 1) cells colw) as (ds & Hrows & Hbelow & Hat);
    [rewrite Hlen; exact Hall|].
  exists colw, (border_row y colw ++ ds).
  split; [exact Hw|]. split; [exact Hlen|]. split.
  { intros c Hc. subst colw. rewrite list_lookup_fmap, lookup_seq_lt by lia.
    reflexivity. }
  split.
  { unfold render_cells. destruct cells as [|row0 cells']; [contradiction|].
    rewrite Hw, Hrows. reflexivity. }
  destruct (Hbelow y ltac:(lia)) as [L1 L2]. split.
  { destruct (border_row_text y y colw) as [B1 _]. zeqb.
    rewrite row_text_app, B1, L1, app_nil_r. reflexivity. }
  intros r row Hr. destruct (Hat r row Hr) as (A1 & A2 & A3).
  destruct (border_row_text (y + 1 + 2 * Z.of_nat r) y colw) as [B1 B2].
  destruct (border_row_text (y + 1 + 2 * Z.of_nat r + 1) y colw) as [B3 _].
  zeqb. rewrite !row_text_app, count_bars_app, B1, B2, B3, A1, A2, A3, Hlen.
  auto.
Qed.

Lemma table_layout_witness :
  exists colw ds,
    col_widths [[Some (lit "A"); Some (lit "BB"); None];
                [Some (lit "1"); Some (lit "22"); None]] 2 = Some colw
    /\ length colw = 2
    /\ (forall c, c < 2 ->
                  colw !! c
                  = Some (Z.max 1 (widest_cell
                                     [[Some (lit "A"); Some (lit "BB"); None];
                                      [Some (lit "1"); Some (lit "22"); None]] c)))
    /\ render_cells 0 [[Some (lit "A"); Some (lit "BB"); None];
                       [Some (lit "1"); Some (lit "22"); None]]
       = Some (5%Z, ds)
    /\ row_text 0 ds = border_text colw
    /\ (forall r row,
          [[Some (lit "A"); Some (lit "BB"); None];
           [Some (lit "1"); Some (lit "22"); None]] !! r = Some row ->
          row_text (0 + 1 + 2 * Z.of_nat r) ds = data_text row colw
          /\ count_bars (0 + 1 + 2 * Z.of_nat r) ds = 3
          /\ row_text (0 + 1 + 2 * Z.of_nat r + 1) ds = border_text colw).
Proof.
  apply (table_layout 0 [[Some (lit "A"); Some (lit "BB"); None];
                         [Some (lit "1"); Some (lit "22"); None]]).
  - discriminate.
  - repeat constructor.
Defined.

(** The table of the specification's end-to-end example: column widths
    3 and 4 with the padding, and five rows. *)
Example table_end_to_end :
  exists h final,
    parse_html_tree
      (lit "<table><tr><th>A</th><th>BB</th></tr><tr><td>1</td><td>22</td></tr></table>")
    = Returned 0 h final false
    /\ col_widths (table_cells h 1) 2 = Some [1%Z; 2%Z]
    /\ exists ds,
         render_table_node 0 h 1 = Some (5%Z, ds)
         /\ map (fun y => row_text y ds) [0%Z; 1%Z; 2%Z; 3%Z; 4%Z]
            = [lit "+---+----+"; lit "| A | BB |"; lit "+---+----+";
               lit "| 1 | 22 |"; lit "+---+----+"].
Proof.
  eexists _, _. split; [vm_compute; reflexivity|]. split; [reflexivity|].
  eexists. split; [vm_compute; reflexivity|]. reflexivity.
Qed.

(** C4, at its failing input: a table whose first row has four cells
    and whose second row has one.  The second row's array holds two
    entries (its cell and the NULL after it); computing the width of
    column 2 reads its entry 2, outside the array, and the renderer
    has no defined result. *)
Theorem ragged_table_reads_outside_row :
  exists h final,
    parse_html_tree
      (lit "<table><tr><td>a</td><td>b</td><td>c</td><td>d</td></tr><tr><td>e</td></tr></table>")
    = Returned 0 h final false
    /\ type (h !!! 1) = NODE_TABLE
    /\ table_cells h 1
       = [[Some (lit "a"); Some (lit "b"); Some (lit "c"); Some (lit "d"); None];
          [Some (lit "e"); None]]
    /\ table_cols (table_cells h 1) = 4
    /\ col_width (table_cells h 1) 2 1 = None
    /\ render_table_node 0 h 1 = None.
Proof.
  eexists _, _. split; [vm_compute; reflexivity|]. repeat split.
Qed.

(** ** Scrolling *)

Lemma scroll_key_frame (k : key) (v : view) :
  g_pad_cur_y (scroll_key k v) = g_pad_cur_y v
  /\ g_term_h (scroll_key k v) = g_term_h v.
Proof.
  destruct k; simpl; try (split; reflexivity);
    repeat match goal with |- context [if ?b then _ else _] => destruct b end;
    split; reflexivity.
Qed.

Ltac scroll_cases :=
  unfold scroll_key, clamp_offset, offset_in_bounds, max_offset in *; simpl in *;
  repeat match goal with
         | |- context [(?a >? ?b)%Z] => destruct (Z.gtb_spec a b)
         | |- context [(?a <? ?b)%Z] => destruct (Z.ltb_spec a b)
         end; simpl; try lia.

Lemma scroll_key_clamps (v : view) :
  (2 <= g_term_h v)%Z ->
  offset_in_bounds v ->
  top_pos (scroll_key KEY_UP v) = clamp_offset v (top_pos v - 1)
  /\ top_pos (scroll_key KEY_DOWN v) = clamp_offset v (top_pos v + 1)
  /\ top_pos (scroll_key KEY_NPAGE v)
     = clamp_offset v (top_pos v + (g_term_h v - 2))
  /\ top_pos (scroll_key KEY_PPAGE v)
     = clamp_offset v (top_pos v - (g_term_h v - 2)).
Proof.
  intros HV Hb. repeat split; scroll_cases.
Qed.

Lemma scroll_key_in_bounds (k : key) (v : view) :
  (2 <= g_term_h v)%Z ->
  offset_in_bounds v ->
  offset_in_bounds (scroll_key k v).
Proof.
  intros HV Hb. destruct k; try exact Hb; scroll_cases.
Qed.

Lemma scroll_keys_in_bounds (keys : list key) (v : view) :
  (2 <= g_term_h v)%Z ->
  offset_in_bounds v ->
  offset_in_bounds (scroll_keys keys v)
  /\ g_pad_cur_y (scroll_keys keys v) = g_pad_cur_y v
  /\ g_term_h (scroll_keys keys v) = g_term_h v.
Proof.
  revert v. induction keys as [|k keys IH]; intros v HV Hb; [auto|].
  simpl. destruct (scroll_key_frame k v) as [HH HT].
  destruct (IH (scroll_key k v)) as (H1 & H2 & H3).
  - rewrite HT. exact HV.
  - apply scroll_key_in_bounds; assumption.
  - rewrite H2, H3, HH, HT. auto.
Qed.

Lemma load_page_resets (render_document : heap -> Z -> Z)
    (e : load_env) (s s' : session) :
  load_page render_document e s = Loaded s' ->
  top_pos (vw s') = 0%Z
  /\ g_term_h (vw s') = term_h e
  /\ (exists h, root s' = Some h
                /\ g_pad_cur_y (vw s') = (render_document h (term_w e) + 4)%Z)
  /\ offset_in_bounds (vw s').
Proof.
  unfold load_page. destruct (raw e) as [bytes|]; [|discriminate].
  destruct (parse_html_tree _) as [r h f t| |]; try discriminate.
  intros [= <-]. simpl. repeat split; [eauto | | ]; unfold max_offset; simpl; lia.
Qed.

(** Across reloads too: whenever [main] waits for a key, the offset is
    in bounds, provided every load saw a terminal of two rows or more. *)
Lemma ui_loop_in_bounds (render_document : heap -> Z -> Z)
    (keys : list key) (loads : list load_env) (s r : session) :
  Forall (fun e => (2 <= term_h e)%Z) loads ->
  (2 <= g_term_h (vw s))%Z ->
  offset_in_bounds (vw s) ->
  ui_loop render_document keys loads s = AwaitsKey r ->
  offset_in_bounds (vw r).
Proof.
  revert loads s. induction keys as [|k keys IH]; intros loads s Hl HV Hb.
  - intros [= <-]. exact Hb.
  - assert (Hscroll : ui_loop render_document keys loads
                        {| root := root s; vw := scroll_key k (vw s) |}
                      = AwaitsKey r -> offset_in_bounds (vw r)).
    { apply IH; [exact Hl | |]; simpl.
      - destruct (scroll_key_frame k (vw s)) as [_ ->]. exact HV.
      - apply scroll_key_in_bounds; assumption. }
    destruct k; try exact Hscroll; simpl; [discriminate|].
    destruct loads as [|e loads]; [discriminate|].
    apply Forall_cons in Hl as [He Hl].
    destruct (load_page render_document e s) as [s1| | |] eqn:E; try discriminate.
    simpl. apply load_page_resets in E as (_ & HT & _ & Hb1).
    apply IH; [exact Hl | rewrite HT; exact He | exact Hb1].
Qed.

Lemma main_in_bounds (render_document : heap -> Z -> Z)
    (loads : list load_env) (keys : list key) (r : session) :
  Forall (fun e => (2 <= term_h e)%Z) loads ->
  main render_document loads keys = AwaitsKey r ->
  offset_in_bounds (vw r).
Proof.
  unfold main. destruct loads as [|e loads]; [discriminate|].
  intros Hl. apply Forall_cons in Hl as [He Hl].
  destruct (load_page render_document e _) as [s1| | |] eqn:E; try discriminate.
  simpl. apply load_page_resets in E as (_ & HT & _ & Hb1).
  apply ui_loop_in_bounds; [exact Hl | rewrite HT; exact He | exact Hb1].
Qed.

(** C7, as amended: on a terminal of at least two rows, every sequence
    of scroll keys keeps the offset in [0, max(0, contentHeight -
    viewportHeight)] and changes neither height; line-up/down move the
    offset by 1 and page-up/down by viewportHeight - 2, clamped to that
    interval; a reload that succeeds sets the offset to 0 and replaces
    contentHeight (and viewportHeight) by the values of the new
    render, so the offset is in bounds whenever [main] waits for a
    key. *)
Theorem scroll_offset_stays_in_bounds (v : view) (keys : list key) :
  (2 <= g_term_h v)%Z ->
  offset_in_bounds v ->
  (offset_in_bounds (scroll_keys keys v)
   /\ g_pad_cur_y (scroll_keys keys v) = g_pad_cur_y v
   /\ g_term_h (scroll_keys keys v) = g_term_h v)
  /\ (top_pos (scroll_key KEY_UP v) = clamp_offset v (top_pos v - 1)
      /\ top_pos (scroll_key KEY_DOWN v) = clamp_offset v (top_pos v + 1)
      /\ top_pos (scroll_key KEY_NPAGE v)
         = clamp_offset v (top_pos v + (g_term_h v - 2))
      /\ top_pos (scroll_key KEY_PPAGE v)
         = clamp_offset v (top_pos v - (g_term_h v - 2)))
  /\ (forall render_document e s s',
        load_page render_document e s = Loaded s' ->
        top_pos (vw s') = 0%Z
        /\ g_term_h (vw s') = term_h e
        /\ (exists h, root s' = Some h
                      /\ g_pad_cur_y (vw s')
                         = (render_document h (term_w e) + 4)%Z)
        /\ offset_in_bounds (vw s'))
  /\ (forall render_document loads keys r,
        Forall (fun e => (2 <= term_h e)%Z) loads ->
        main render_document loads keys = AwaitsKey r ->
        offset_in_bounds (vw r)).
Proof.
  intros HV Hb. split; [apply scroll_keys_in_bounds; assumption|].
  split; [apply scroll_key_clamps; assumption|].
  split; [intros rd e s s'; apply load_page_resets|].
  intros rd loads ks r. apply main_in_bounds.
Qed.

Lemma scroll_offset_stays_in_bounds_witness :
  let v := {| top_pos := 0; g_pad_cur_y := 100; g_term_h := 24 |} in
  let keys := [KEY_NPAGE; KEY_NPAGE; KEY_DOWN; KEY_NPAGE; KEY_NPAGE; KEY_UP; KEY_PPAGE] in
  (offset_in_bounds (scroll_keys keys v)
   /\ g_pad_cur_y (scroll_keys keys v) = g_pad_cur_y v
   /\ g_term_h (scroll_keys keys v) = g_term_h v)
  /\ (top_pos (scroll_key KEY_UP v) = clamp_offset v (top_pos v - 1)
      /\ top_pos (scroll_key KEY_DOWN v) = clamp_offset v (top_pos v + 1)
      /\ top_pos (scroll_key KEY_NPAGE v)
         = clamp_offset v (top_pos v + (g_term_h v - 2))
      /\ top_pos (scroll_key KEY_PPAGE v)
         = clamp_offset v (top_pos v - (g_term_h v - 2)))
  /\ (forall render_document e s s',
        load_page render_document e s = Loaded s' ->
        top_pos (vw s') = 0%Z
        /\ g_term_h (vw s') = term_h e
        /\ (exists h, root s' = Some h
                      /\ g_pad_cur_y (vw s')
                         = (render_document h (term_w e) + 4)%Z)
        /\ offset_in_bounds (vw s'))
  /\ (forall render_document loads keys r,
        Forall (fun e => (2 <= term_h e)%Z) loads ->
        main render_document loads keys = AwaitsKey r ->
        offset_in_bounds (vw r)).
Proof.
  apply (scroll_offset_stays_in_bounds
           {| top_pos := 0; g_pad_cur_y := 100; g_term_h := 24 |}).
  - simpl. lia.
  - unfold offset_in_bounds, max_offset. simpl. lia.
Defined.

(** C7 as stated fails on a terminal of one row: there
    viewportHeight - 2 is negative, page-up moves the offset forward
    and nothing bounds it above.  With contentHeight 4 the offset
    leaves [0, 3] at the fourth page-up. *)
Lemma page_up_leaves_bounds_on_one_row :
  offset_in_bounds {| top_pos := 0; g_pad_cur_y := 4; g_term_h := 1 |}
  /\ max_offset {| top_pos := 0; g_pad_cur_y := 4; g_term_h := 1 |} = 3%Z
  /\ top_pos (scroll_keys [KEY_PPAGE; KEY_PPAGE; KEY_PPAGE; KEY_PPAGE]
                {| top_pos := 0; g_pad_cur_y := 4; g_term_h := 1 |}) = 4%Z.
Proof.
  unfold offset_in_bounds, max_offset. simpl. repeat split; lia.
Qed.

(** ** strcasestr_local *)

Lemma strncasecmp_eq_nil_false (p : ascii) (pat : cstr) :
  strncasecmp_eq [] (p :: pat) = false.
Proof. reflexivity. Qed.

Lemma strcasestr_scan_none (hay needle : cstr) :
  needle <> [] ->
  strcasestr_scan hay needle = None ->
  forall k, strncasecmp_eq (drop k hay) needle = false.
Proof.
  intros Hne. induction hay as [|c hay IH]; simpl.
  - intros _ k. rewrite drop_nil. destruct needle; [congruence | reflexivity].
  - destruct (strncasecmp_eq (c :: hay) needle) eqn:E; [discriminate|].
    destruct (strcasestr_scan hay needle); [discriminate|].
    intros _ [|k]; [exact E | simpl; apply IH; reflexivity].
Qed.

Lemma strcasestr_scan_first (hay needle : cstr) (e : nat) :
  strcasestr_scan hay needle = Some e ->
  forall k, k < e -> strncasecmp_eq (drop k hay) needle = false.
Proof.
  revert e. induction hay as [|c hay IH]; intros e; simpl; [discriminate|].
  destruct (strncasecmp_eq (c :: hay) needle) eqn:E.
  - intros [= <-] k Hk. lia.
  - destruct (strcasestr_scan hay needle) as [j|]; simpl; [|discriminate].
    intros [= <-] [|k] Hk; [exact E|]. simpl. apply (IH j eq_refl). lia.
Qed.

(** [strcasestr_local] returns the first place where the needle
    occurs, bytes compared ignoring letter case: the needle matches at
    the offset returned, lies within the haystack, and matches at no
    smaller offset (an empty needle is found at offset 0); when NULL is
    returned the needle is not empty and matches nowhere. *)
Theorem strcasestr_local_first_match (hay needle : cstr) :
  match strcasestr hay needle with
  | Some e =>
      strncasecmp_eq (drop e hay) needle = true
      /\ e + length needle <= length hay
      /\ forall k, k < e -> strncasecmp_eq (drop k hay) needle = false
  | None =>
      needle <> [] /\ forall k, strncasecmp_eq (drop k hay) needle = false
  end.
Proof.
  unfold strcasestr. destruct needle as [|p needle].
  - split; [reflexivity|]. split; [simpl; lia | intros k Hk; lia].
  - destruct (strcasestr_scan hay (p :: needle)) as [e|] eqn:E.
    + pose proof (strstr_like_bound _ _ _ E) as [Hm He].
      split; [exact Hm|]. split.
      * apply strncasecmp_eq_length in Hm. rewrite length_drop in Hm. lia.
      * apply strcasestr_scan_first. exact E.
    + split; [discriminate|]. apply strcasestr_scan_none; [discriminate | exact E].
Qed.

(** ** The preprocessor as a whole *)

Lemma sanitize_byte_clean (c : ascii) : clean_byte (sanitize_byte c) = true.
Proof. destruct c as [[] [] [] [] [] [] [] []]; reflexivity. Qed.

Lemma sanitize_byte_fixes (c : ascii) :
  sanitize_byte c = c <-> clean_byte c = true.
Proof.
  destruct c as [[] [] [] [] [] [] [] []]; vm_compute; split; congruence.
Qed.

(** Sanitizing twice is sanitizing once, and the buffers that
    [sanitize_ascii_inplace] leaves unchanged are exactly those made of
    the bytes 32 to 127 (printable ASCII and DEL), \n, \t and \r. *)
Theorem sanitize_idempotent (buf : cstr) :
  sanitize_ascii_inplace (sanitize_ascii_inplace buf) = sanitize_ascii_inplace buf
  /\ (sanitize_ascii_inplace buf = buf <-> forallb clean_byte buf = true).
Proof.
  unfold sanitize_ascii_inplace. split.
  - induction buf as [|c buf IH]; simpl; [reflexivity|]. f_equal; [|exact IH].
    apply sanitize_byte_fixes, sanitize_byte_clean.
  - induction buf as [|c buf IH]; simpl; [tauto|].
    rewrite andb_true_iff, <- IH, <- sanitize_byte_fixes. split.
    + intros [= H1 H2]. auto.
    + intros [-> ->]. reflexivity.
Qed.

Lemma strip_loop_sublist (fuel : nat) (src : cstr) (i : nat) (out : cstr) :
  out `sublist_of` take i src ->
  strip_loop fuel src i out `sublist_of` src.
Proof.
  revert i out. induction fuel as [|f IH]; intros i out Hout; simpl.
  - etransitivity; [exact Hout | apply sublist_take].
  - destruct (src !! i) as [c|] eqn:Hc;
      [|etransitivity; [exact Hout | apply sublist_take]].
    destruct (strip_at src i c) as [next| |b] eqn:Ha.
    + apply IH. apply strip_at_advances in Ha.
      etransitivity; [exact Hout|].
      replace (take i src) with (take i (take next src))
        by (rewrite take_take; f_equal; lia).
      apply sublist_take.
    + etransitivity; [exact Hout | apply sublist_take].
    + assert (b = c) as ->.
      { unfold strip_at in Ha.
        repeat match type of Ha with
               | context [if ?b then _ else _] => destruct b
               | context [match ?o with Some _ => _ | None => _ end] => destruct o
               end; congruence. }
      apply IH. replace (i + 1) with (S i) by lia. rewrite (take_S_r _ _ _ Hc).
      apply sublist_app; [exact Hout | reflexivity].
Qed.

Lemma strip_sublist (src : cstr) : strip_script_style_meta src `sublist_of` src.
Proof. apply strip_loop_sublist. rewrite take_0. reflexivity. Qed.

Lemma strip_no_tags (src : cstr) :
  Forall (fun c => c <> "<") src -> strip_script_style_meta src = src.
Proof.
  induction 1 as [|c src Hc _ IH]; [reflexivity|].
  rewrite strip_copies_other, IH; [reflexivity|].
  apply Ascii.eqb_neq. exact Hc.
Qed.

(** [strip_script_style_meta] only deletes: its output is a
    subsequence of its input (no byte is added, changed or moved), so
    the [n + 1] bytes allocated for [out] are never overrun; and an
    input without [<] is returned as it is. *)
Theorem strip_only_deletes (src : cstr) :
  strip_script_style_meta src `sublist_of` src
  /\ length (strip_script_style_meta src) <= length src
  /\ (Forall (fun c => c <> "<") src -> strip_script_style_meta src = src).
Proof.
  split; [apply strip_sublist|].
  split; [apply sublist_length, strip_sublist | apply strip_no_tags].
Qed.

Lemma sanitize_clean (buf : cstr) :
  Forall (fun c => clean_byte c = true) (sanitize_ascii_inplace buf).
Proof.
  unfold sanitize_ascii_inplace. apply Forall_fmap, Forall_true.
  intros c. apply sanitize_byte_clean.
Qed.

Lemma preprocess_clean (raw : cstr) :
  Forall (fun c => clean_byte c = true)
         (strip_script_style_meta (sanitize_ascii_inplace raw)).
Proof.
  apply Forall_forall. intros c Hc.
  pose proof (sanitize_clean raw) as Hall. rewrite Forall_forall in Hall.
  apply Hall. eapply elem_of_sublist; [exact Hc | apply strip_sublist].
Qed.

(** What the tree builder is given: after [sanitize_ascii_inplace]
    and [strip_script_style_meta] every byte is one from 32 to 127
    (printable ASCII or DEL) or one of \n, \t, \r, and there are no
    more bytes than were fetched. *)
Theorem preprocessed_input_is_clean (raw : cstr) :
  let clean := strip_script_style_meta (sanitize_ascii_inplace raw) in
  Forall (fun c => clean_byte c = true) clean
  /\ length clean <= length raw.
Proof.
  cbv zeta. split; [apply preprocess_clean|].
  etransitivity; [apply sublist_length, strip_sublist|].
  unfold sanitize_ascii_inplace. rewrite length_map. lia.
Qed.

(** ** Attributes: buffers, lookup, round trip *)

Lemma take_while_Forall (P : ascii -> bool) (s : cstr) :
  Forall (fun c => P c = true) (take_while P s).
Proof.
  induction s as [|c s IH]; simpl; [constructor|].
  destruct (P c) eqn:E; constructor; assumption.
Qed.

Lemma parse_attr_wf (p : cstr) (a : Attr) (p' : cstr) :
  parse_attr p = Some (a, p') -> attr_wf a.
Proof.
  unfold parse_attr.
  destruct (drop_while isspace p) as [|c0 p0]; [discriminate|].
  set (p1 := c0 :: p0).
  set (name := take 127 (take_while is_name_char p1)).
  set (p5 := drop_while isspace _).
  destruct (match p5 with
            | q :: r => _
            | [] => ([], [])
            end) as [value rest] eqn:Ev.
  assert (Hv : length value <= 511).
  { destruct p5 as [|q r]; [injection Ev as <- _; simpl; lia|].
    destruct (is_quote q); injection Ev as <- _; rewrite length_take; lia. }
  assert (Hn : length name <= 127) by (subst name; rewrite length_take; lia).
  assert (Hc : Forall (fun c => is_name_char c = true) name)
    by (subst name; apply Forall_take, take_while_Forall).
  destruct name as [|n0 name'] eqn:En; [discriminate|].
  intros [= <- _]. repeat split; simpl; auto. 
Qed.

Lemma parse_attrs_loop_wf (fuel : nat) (p : cstr) :
  Forall attr_wf (parse_attrs_loop fuel p)
  /\ length (parse_attrs_loop fuel p) <= length p.
Proof.
  revert p. induction fuel as [|fuel IH]; intros p; simpl;
    [split; [constructor | lia]|].
  destruct (parse_attr p) as [[a p']|] eqn:E; [|split; [constructor | simpl; lia]].
  destruct (IH p') as [H1 H2]. split.
  - constructor; [eapply parse_attr_wf; exact E | exact H1].
  - apply parse_attr_shrinks in E. simpl. lia.
Qed.

(** Every attribute [parse_attrs] returns has a name that is not
    empty, of at most 127 bytes, all of them letters, digits, [-] or
    [:], and a value of at most 511 bytes: [name[128]] and [value[512]]
    are never overrun.  There are no more attributes than input
    bytes. *)
Theorem parse_attrs_within_buffers (s : cstr) :
  Forall attr_wf (parse_attrs s) /\ length (parse_attrs s) <= length s.
Proof. apply parse_attrs_loop_wf. Qed.

(** [attr_get_value] returns the value of the first attribute whose
    name equals the key ignoring letter case, and NULL exactly when no
    name does. *)
Theorem attr_get_value_first_match (a : list Attr) (key : cstr) :
  match attr_get_value a key with
  | Some v =>
      exists pre p post,
        a = pre ++ p :: post
        /\ attr_value p = v
        /\ same_name (attr_name p) key
        /\ Forall (fun q => ~ same_name (attr_name q) key) pre
  | None => Forall (fun q => ~ same_name (attr_name q) key) a
  end.
Proof.
  induction a as [|p a IH]; simpl; [constructor|].
  destruct (cstr_eqb _ _) eqn:E.
  - apply cstr_eqb_eq in E. exists [], p, a. repeat split; auto.
  - assert (Hne : ~ same_name (attr_name p) key).
    { intros H. unfold same_name in H. rewrite H, cstr_eqb_refl in E. discriminate. }
    destruct (attr_get_value a key) as [v|].
    + destruct IH as (pre & q & post & -> & Hv & Hn & Hpre).
      exists (p :: pre), q, post. repeat split; auto.
    + constructor; assumption.
Qed.

Lemma take_while_app_end (P : ascii -> bool) (a : cstr) :
  Forall (fun x => P x = true) a -> take_while P a = a.
Proof.
  induction 1 as [|x a Hx _ IH]; simpl; [reflexivity|].
  rewrite Hx, IH. reflexivity.
Qed.

Lemma drop_while_app_stop (P : ascii -> bool) (a : cstr) (c : ascii) (r : cstr) :
  Forall (fun x => P x = true) a -> P c = false ->
  drop_while P (a ++ c :: r) = c :: r.
Proof.
  induction 1 as [|x a Hx _ IH]; intros Hc; simpl.
  - rewrite Hc. reflexivity.
  - rewrite Hx. apply IH. exact Hc.
Qed.

Lemma name_char_not_space (c : ascii) : is_name_char c = true -> isspace c = false.
Proof. destruct c as [[] [] [] [] [] [] [] []]; vm_compute; congruence. Qed.

Lemma quote_cases (q : ascii) :
  is_quote q = true ->
  isspace q = false /\ is_name_char q = false /\ (q =? "=") = false.
Proof.
  unfold is_quote. rewrite orb_true_iff, !Ascii.eqb_eq. intros [->| ->]; auto.
Qed.

Lemma parse_attr_quoted (ws name value rest : cstr) (q : ascii) :
  Forall (fun c => isspace c = true) ws ->
  name <> [] -> length name <= 127 ->
  Forall (fun c => is_name_char c = true) name ->
  is_quote q = true ->
  length value <= 511 -> Forall (fun c => c <> q) value ->
  parse_attr (ws ++ name ++ "=" :: q :: value ++ q :: rest)
  = Some ({| attr_name := name; attr_value := value |}, rest).
Proof.
  intros Hws Hne Hlen Hname Hq Hvlen Hval.
  destruct (quote_cases q Hq) as (Hqs & Hqn & Hqe).
  destruct name as [|n0 name']; [congruence|].
  unfold parse_attr.
  assert (Hn0 : isspace n0 = false)
    by (apply name_char_not_space; inversion Hname; assumption).
  cbn [app]. rewrite drop_while_app_stop by assumption.
  change (n0 :: name' ++ "=" :: q :: value ++ q :: rest)
    with ((n0 :: name') ++ "=" :: q :: value ++ q :: rest).
  rewrite take_while_app_stop by (auto; reflexivity).
  rewrite take_ge by lia.
  rewrite drop_app_length.
  cbn [drop_while isspace]. change (isspace "=") with false. cbv iota.
  cbn [drop_while]. rewrite Hqs, Hq.
  rewrite take_while_app_stop.
  - rewrite take_ge by lia. rewrite drop_app_length, Ascii.eqb_refl. reflexivity.
  - eapply Forall_impl; [exact Hval|]. simpl. intros c Hc.
    apply negb_true_iff, Ascii.eqb_neq. exact Hc.
  - rewrite Ascii.eqb_refl. reflexivity.
Qed.

(** Round trip: an attribute written as name, [=], a quote (single
    or double), a value free of that quote and the quote again, after
    any white space and with name and value within their buffers, is
    found by [attr_get_value] under its name in any letter case, with
    exactly that value. *)
Theorem attr_lookup_round_trip (ws name value rest key : cstr) (q : ascii) :
  Forall (fun c => isspace c = true) ws ->
  name <> [] -> length name <= 127 ->
  Forall (fun c => is_name_char c = true) name ->
  is_quote q = true ->
  length value <= 511 -> Forall (fun c => c <> q) value ->
  map tolower key = map tolower name ->
  attr_get_value (parse_attrs (ws ++ name ++ "=" :: q :: value ++ q :: rest)) key
  = Some value.
Proof.
  intros Hws Hne Hlen Hname Hq Hvlen Hval Hkey.
  unfold parse_attrs.
  destruct (length (ws ++ name ++ "=" :: q :: value ++ q :: rest)) as [|f] eqn:Hl.
  { rewrite !length_app in Hl. simpl in Hl. lia. }
  cbn [parse_attrs_loop]. rewrite parse_attr_quoted by assumption.
  cbn [attr_get_value attr_name attr_value].
  rewrite Hkey, cstr_eqb_refl. reflexivity.
Qed.

Lemma attr_lookup_round_trip_witness :
  attr_get_value
    (parse_attrs (lit " " ++ lit "href" ++ "=" :: "'" :: lit "a b.html" ++ "'"
                  :: lit " class=x"))
    (lit "HREF")
  = Some (lit "a b.html").
Proof.
  apply (attr_lookup_round_trip (lit " ") (lit "href") (lit "a b.html")
           (lit " class=x") (lit "HREF") "'").
  - repeat constructor.
  - discriminate.
  - simpl; lia.
  - repeat constructor.
  - reflexivity.
  - simpl; lia.
  - repeat constructor; discriminate.
  - reflexivity.
Defined.

Lemma parse_attrs_cons (s rest : cstr) (a : Attr) :
  parse_attr s = Some (a, rest) -> parse_attrs s = a :: parse_attrs rest.
Proof.
  intros E. unfold parse_attrs. pose proof (parse_attr_shrinks _ _ _ E) as Hs.
  destruct (length s) as [|f] eqn:Hl; [lia|].
  cbn [parse_attrs_loop]. rewrite E. f_equal. apply parse_attrs_loop_fuel; lia.
Qed.

(** An attribute written without a value takes the next token as
    its value: a name, a space and a token that begins with neither
    [=] nor a quote give one attribute, the name with the token as
    value.  In "disabled name=q" there is therefore no attribute
    "name". *)
Theorem valueless_attr_takes_next_token (name tok rest : cstr) :
  name <> [] -> length name <= 127 ->
  Forall (fun c => is_name_char c = true) name ->
  Forall (fun c => is_token_char c = true) tok -> length tok <= 511 ->
  (forall c, head tok = Some c -> (c =? "=") = false /\ is_quote c = false) ->
  tok <> [] ->
  (forall c, head rest = Some c -> is_token_char c = false) ->
  parse_attrs (name ++ " " :: tok ++ rest)
  = {| attr_name := name; attr_value := tok |} :: parse_attrs rest.
Proof.
  intros Hne Hlen Hname Htok Htlen Hhead Htne Hrest.
  apply parse_attrs_cons.
  destruct name as [|n0 name']; [congruence|].
  destruct tok as [|t0 tok']; [congruence|].
  destruct (Hhead t0 eq_refl) as [Heq Hquote].
  assert (Ht0 : is_token_char t0 = true) by (inversion Htok; assumption).
  assert (Ht0s : isspace t0 = false).
  { unfold is_token_char in Ht0. apply andb_true_iff in Ht0 as [H _].
    apply negb_true_iff in H. exact H. }
  unfold parse_attr.
  assert (Hn0 : isspace n0 = false)
    by (apply name_char_not_space; inversion Hname; assumption).
  cbn [app drop_while]. rewrite Hn0.
  change (n0 :: name' ++ " " :: t0 :: tok' ++ rest)
    with ((n0 :: name') ++ " " :: (t0 :: tok') ++ rest).
  rewrite take_while_app_stop by (auto; reflexivity).
  rewrite take_ge by lia.
  rewrite drop_app_length.
  cbn [drop_while app]. change (isspace " ") with true. cbv iota.
  rewrite Ht0s.
  assert (Hp4 : match t0 :: tok' ++ rest with
                | "=" :: p' => p'
                | _ => t0 :: tok' ++ rest
                end = t0 :: tok' ++ rest).
  { destruct (Ascii.eqb_spec t0 "=") as [->|Hn]; [discriminate|].
    destruct t0 as [[] [] [] [] [] [] [] []]; try reflexivity. congruence. }
  rewrite Hp4. cbn [drop_while]. rewrite Ht0s, Hquote.
  change (t0 :: tok' ++ rest) with ((t0 :: tok') ++ rest).
  assert (Htw : take_while (fun c => negb (isspace c) && negb (c =? ">"))
                  ((t0 :: tok') ++ rest) = t0 :: tok').
  { destruct rest as [|r0 rest'].
    - rewrite app_nil_r. apply take_while_app_end. exact Htok.
    - apply take_while_app_stop; [exact Htok|]. apply Hrest. reflexivity. }
  rewrite Htw, take_ge by lia. rewrite drop_app_length. reflexivity.
Qed.

Lemma valueless_attr_takes_next_token_witness :
  parse_attrs (lit "disabled" ++ " " :: lit "name=q" ++ [])
  = {| attr_name := lit "disabled"; attr_value := lit "name=q" |} :: parse_attrs [].
Proof.
  apply (valueless_attr_takes_next_token (lit "disabled") (lit "name=q") []).
  - discriminate.
  - simpl; lia.
  - repeat constructor.
  - repeat constructor.
  - simpl; lia.
  - intros c [= <-]. split; reflexivity.
  - discriminate.
  - intros c [=].
Defined.

(** ** Tree builder: headings *)



(** ** Tree builder: the nodes of the tree *)

Lemma attach_nodes (h : heap) (p : ptr) (t : NodeType) (f : Node -> Node) :
  p < length h ->
  let h' := node_append_child p (length h)
              (alter f (length h) (h ++ [fresh_node t])) in
  length h' = S (length h)
  /\ (forall j, j < length h -> j <> p -> h' !!! j = h !!! j)
  /\ h' !!! p = with_children (fun cs => cs ++ [length h]) (h !!! p)
  /\ h' !!! length h = with_parent (Some p) (f (fresh_node t)).
Proof.
  intros Hp h'. subst h'. unfold node_append_child.
  set (n := length h).
  split; [rewrite !length_alter, length_app; simpl; lia|].
  split.
  { intros j Hj Hne. rewrite !lookup_total_alter_ne by lia.
    apply lookup_total_app_l. lia. }
  split.
  - rewrite lookup_total_alter_ne by lia.
    rewrite list_lookup_total_alt, list_lookup_alter_eq.
    rewrite list_lookup_alter_ne by lia. rewrite lookup_app_l by lia.
    rewrite (list_lookup_lookup_total_lt h p) by lia. reflexivity.
  - rewrite list_lookup_total_alt, list_lookup_alter_eq.
    rewrite list_lookup_alter_ne by lia. rewrite list_lookup_alter_eq.
    rewrite list_lookup_middle by reflexivity. reflexivity.
Qed.

Lemma classify_open_types (tag : cstr) (t : NodeType) (stores pushes : bool) :
  classify_open tag = Some (t, stores, pushes) ->
  t <> NODE_TEXT /\ pushes = negb (is_void t).
Proof.
  unfold classify_open.
  repeat match goal with
         | |- context [if ?b then _ else _] => destruct b
         end; intros [= <- <- <-]; split; (discriminate || reflexivity).
Qed.

Lemma nodes_ok_attach (h : heap) (stack : list ptr) (p : ptr) (t : NodeType)
    (f : Node -> Node) :
  p < length h -> tree_wf h ->
  is_void (type (h !!! p)) = false ->
  (forall j, j < length h -> node_ok h j) ->
  (forall n, type (f n) = type n /\ children (f n) = children n
             /\ expanded (f n) = expanded n /\ list_number (f n) = list_number n) ->
  Forall attr_wf (attrs (f (fresh_node t))) ->
  match t with
  | NODE_TEXT =>
      attrs (f (fresh_node t)) = []
      /\ exists x, text (f (fresh_node t)) = Some x /\ x <> []
                   /\ (is_verbatim (type (h !!! p)) = false ->
                       collapse_whitespace x = x)
  | _ => text (f (fresh_node t)) = None
  end ->
  let h' := node_append_child p (length h)
              (alter f (length h) (h ++ [fresh_node t])) in
  (forall j, j < length h' -> node_ok h' j)
  /\ (forall j, j < length h -> type (h' !!! j) = type (h !!! j))
  /\ type (h' !!! length h) = t.
Proof.
  intros Hp Htree Hpv Hok Hf Hattrs Htext h'.
  destruct (attach_nodes h p t f Hp) as (Hlen & Hold & Hpn & Hnn).
  fold h' in Hlen, Hold, Hpn, Hnn.
  assert (Htype : forall j, j < length h -> type (h' !!! j) = type (h !!! j)).
  { intros j Hj. destruct (Nat.eq_dec j p) as [->|Hne].
    - rewrite Hpn. reflexivity.
    - rewrite Hold by assumption. reflexivity. }
  assert (Hparent : forall j, j < length h -> parent (h' !!! j) = parent (h !!! j)).
  { intros j Hj. destruct (Nat.eq_dec j p) as [->|Hne].
    - rewrite Hpn. reflexivity.
    - rewrite Hold by assumption. reflexivity. }
  assert (Hnt : type (h' !!! length h) = t).
  { rewrite Hnn. simpl. destruct (Hf (fresh_node t)) as [-> _]. reflexivity. }
  assert (Hunder : forall j, j < length h -> under_verbatim h' j = under_verbatim h j).
  { intros j Hj. unfold under_verbatim. rewrite Hparent by exact Hj.
    destruct (parent (h !!! j)) as [q|] eqn:Hq; [|reflexivity].
    destruct Htree as (Hroot & Hpar & _).
    destruct (Nat.eq_dec j 0) as [->|Hj0]; [congruence|].
    destruct (Hpar j ltac:(lia)) as (q' & Hq' & Hqp & _).
    assert (q' = q) as -> by congruence. rewrite Htype by lia. reflexivity. }
  split; [|split; [exact Htype | exact Hnt]].
  intros j Hj. rewrite Hlen in Hj.
  destruct (Nat.eq_dec j (length h)) as [->|Hjn].
  - unfold node_ok. cbv zeta. rewrite Hnt.
    assert (Hu : under_verbatim h' (length h) = is_verbatim (type (h !!! p))).
    { unfold under_verbatim. rewrite Hnn. simpl. rewrite Htype by exact Hp.
      reflexivity. }
    rewrite Hu, Hnn. destruct (Hf (fresh_node t)) as (_ & Hc & He & Hl).
    simpl. rewrite Hc, He, Hl. simpl.
    repeat split; auto.
  - assert (Hj' : j < length h) by lia. specialize (Hok j Hj').
    unfold node_ok in *. cbv zeta in *. rewrite (Hunder j Hj').
    destruct (Nat.eq_dec j p) as [->|Hne].
    + rewrite Hpn. simpl. destruct Hok as (H1 & H2 & H3 & H4 & H5).
      repeat split; auto.
      intros Hv. rewrite Hv in Hpv. discriminate.
    + rewrite Hold by assumption. exact Hok.
Qed.

Lemma nodes_ok_init : nodes_ok parse_init.
Proof.
  split.
  - simpl. intros j Hj. assert (j = 0) as -> by lia.
    unfold node_ok. simpl. repeat split; auto.
  - repeat constructor.
Qed.

Lemma Forall_types_preserved (h h' : heap) (stack : list ptr) :
  Forall (fun p => p < length h) stack ->
  (forall j, j < length h -> type (h' !!! j) = type (h !!! j)) ->
  Forall (fun p => is_void (type (h !!! p)) = false) stack ->
  Forall (fun p => is_void (type (h' !!! p)) = false) stack.
Proof.
  intros Hlt Ht Hv. rewrite Forall_forall in *. intros p Hp.
  rewrite Ht by (apply Hlt; exact Hp). apply Hv. exact Hp.
Qed.

Lemma stack_top_not_void (s : pstate) :
  builder_wf s -> nodes_ok s ->
  is_void (type (ps_heap s !!! (ps_stack s !!! (length (ps_stack s) - 1)))) = false.
Proof.
  intros (_ & _ & _ & Hs0 & _ & _) [_ Hv].
  pose proof (lookup_lt_Some _ _ _ Hs0) as Hlen.
  rewrite Forall_lookup in Hv. eapply Hv.
  apply list_lookup_lookup_total_lt. lia.
Qed.

Lemma parse_step_nodes_ok (html : cstr) (s s' : pstate) :
  builder_wf s -> tree_wf (ps_heap s) -> nodes_ok s ->
  parse_step html s = Next s' -> nodes_ok s'.
Proof.
  intros Hwf Ht Hok. pose proof (stack_top_valid s Hwf) as Htop.
  pose proof (stack_top_not_void s Hwf Hok) as Hnv.
  destruct Hok as [Hok Hst].
  assert (Hall : Forall (fun p => p < length (ps_heap s)) (ps_stack s))
    by (destruct Hwf as (_ & _ & _ & _ & _ & H); exact H).
  unfold parse_step.
  destruct (html !! ps_pos s) as [c|]; [|discriminate].
  destruct (c =? "<").
  - destruct (_ <=? _)%nat; [discriminate|].
    destruct (strncmp_eq _ _).
    + destruct (strstr _ _); intros [= <-]; split; assumption.
    + destruct (closing_mark _) as [[] p].
      * intros [= <-]. split; [exact Hok|]. simpl.
        destruct (close_tag_prefix (ps_heap s) (ps_stack s)
                    (map tolower (take 63 (take_while is_tag_char p))))
          as (i & -> & _).
        apply Forall_take. exact Hst.
      * destruct (open_tag _ _ _ _) as [[h st]|] eqn:E; [|discriminate].
        intros [= <-]. unfold open_tag in E.
        destruct (match classify_open _ with Some k => k | None => _ end)
          as [[t stores] pushes] eqn:Hcl.
        assert (Hty : t <> NODE_TEXT /\ pushes = negb (is_void t)).
        { destruct (classify_open _) as [k|] eqn:Hk.
          - subst k. eapply classify_open_types. exact Hk.
          - injection Hcl as <- <- <-. split; [discriminate | reflexivity]. }
        destruct Hty as [Hne Hpush].
        cbn [node_create] in E.
        set (a := parse_attrs _) in E.
        set (par := ps_stack s !!! (length (ps_stack s) - 1)) in *.
        assert (Hh : h = node_append_child par (length (ps_heap s))
                      (alter (if stores then with_attrs a else fun n => n)
                             (length (ps_heap s))
                             (ps_heap s ++ [fresh_node t]))).
        { destruct stores;
            [|rewrite <- alter_nothing];
            (destruct pushes; [destruct (_ <? _)%nat; [|discriminate]|];
             injection E as <- _; reflexivity). }
        destruct (nodes_ok_attach (ps_heap s) (ps_stack s) par t
                    (if stores then with_attrs a else fun n => n))
          as (Hnew & Htypes & Hnt);
          [exact Htop | exact Ht | exact Hnv | exact Hok
          | intros n; destruct stores; repeat split
          | destruct stores; simpl; [apply parse_attrs_loop_wf | constructor]
          | destruct t; try congruence; destruct stores; reflexivity |].
        rewrite <- Hh in Hnew, Htypes, Hnt.
        split; [exact Hnew|]. simpl.
        pose proof (Forall_types_preserved _ h _ Hall Htypes Hst) as Hst'.
        destruct pushes.
        -- destruct (_ <? _)%nat; [|discriminate]. injection E as _ <-.
           apply Forall_app. split; [exact Hst'|]. constructor; [|constructor].
           rewrite Hnt. destruct (is_void t); [discriminate | reflexivity].
        -- injection E as _ <-. exact Hst'.
  - intros [= <-]. simpl. unfold add_text.
    set (par := ps_stack s !!! (length (ps_stack s) - 1)) in *.
    destruct (take_while _ _) as [|c0 chunk]; [split; assumption|].
    change (match type (ps_heap s !!! par) with
            | NODE_PRE | NODE_CODE => true
            | _ => false
            end) with (is_verbatim (type (ps_heap s !!! par))).
    cbn [node_create].
    destruct (is_verbatim (type (ps_heap s !!! par))) eqn:Hverb.
    + destruct (nodes_ok_attach (ps_heap s) (ps_stack s) par NODE_TEXT
                  (with_text (Some (c0 :: chunk))))
        as (Hnew & Htypes & Hnt);
        [exact Htop | exact Ht | exact Hnv | exact Hok
        | intros n; repeat split | constructor
        | split; [reflexivity|]; exists (c0 :: chunk);
          split; [reflexivity|]; split; [discriminate | congruence] |].
      split; [exact Hnew|].
      exact (Forall_types_preserved _ _ _ Hall Htypes Hst).
    + destruct (collapse_whitespace (c0 :: chunk)) as [|o0 out] eqn:Hcw;
        [split; assumption|].
      destruct (nodes_ok_attach (ps_heap s) (ps_stack s) par NODE_TEXT
                  (with_text (Some (o0 :: out))))
        as (Hnew & Htypes & Hnt);
        [exact Htop | exact Ht | exact Hnv | exact Hok
        | intros n; repeat split | constructor
        | split; [reflexivity|]; exists (o0 :: out);
          split; [reflexivity|]; split; [discriminate|]; intros _;
          rewrite <- Hcw; apply collapse_whitespace_idempotent |].
      split; [exact Hnew|].
      exact (Forall_types_preserved _ _ _ Hall Htypes Hst).
Qed.

Lemma parse_loop_nodes_ok (fuel : nat) (html : cstr) (s : pstate)
    (r : ptr) (h : heap) (final : pstate) (t : bool) :
  builder_wf s -> tree_wf (ps_heap s) -> nodes_ok s ->
  parse_loop fuel html s = Returned r h final t ->
  nodes_ok final /\ h = ps_heap final.
Proof.
  revert s. induction fuel as [|fuel IH]; intros s Hwf Ht Hok; [discriminate|].
  simpl. pose proof (parse_step_cases html s) as Hcase.
  destruct (parse_step html s) as [s'|s'|s'|] eqn:E; try discriminate.
  - apply IH; [eapply parse_step_wf | eapply parse_step_tree_wf
               | eapply parse_step_nodes_ok]; eassumption.
  - intros [= <- <- <- <-]. destruct Hcase as [-> _]. auto.
  - intros [= <- <- <- <-]. destruct Hcase as [-> _]. auto.
Qed.

(** Every node of a tree the builder returns is well formed: its
    [expanded] and [list_number] are 0; its attributes are within their
    buffers; line breaks, rules, images, inputs, buttons and texts have
    no children; a text node has a text that is not empty and, unless
    its parent is a [NODE_PRE] or [NODE_CODE], is a fixed point of the
    whitespace collapsing; no other node has a text. *)
Theorem parsed_nodes_well_formed (html : cstr) (r : ptr) (h : heap)
    (final : pstate) (t : bool) :
  parse_html_tree html = Returned r h final t ->
  forall j, j < length h -> node_ok h j.
Proof.
  intros E. unfold parse_html_tree, parse_html_tree_fuel in E.
  destruct (parse_loop_nodes_ok _ _ _ _ _ _ _ parse_init_wf parse_init_tree_wf
              nodes_ok_init E) as [[Hok _] ->].
  exact Hok.
Qed.

Lemma parsed_nodes_well_formed_witness :
  exists h final,
    parse_html_tree (lit "<p>  a  b </p><br>") = Returned 0 h final false
    /\ node_ok h 2.
Proof.
  eexists _, _. split; [vm_compute; reflexivity|].
  eapply (parsed_nodes_well_formed (lit "<p>  a  b </p><br>")).
  - vm_compute. reflexivity.
  - simpl. lia.
Defined.

Lemma parsed_tree_facts (html : cstr) (r : ptr) (h : heap) (final : pstate)
    (t : bool) :
  parse_html_tree html = Returned r h final t ->
  r = 0 /\ 0 < length h /\ tree_wf h /\ forall j, j < length h -> node_ok h j.
Proof.
  intros E. unfold parse_html_tree, parse_html_tree_fuel in E.
  pose proof (parse_loop_tree_wf _ _ _ _ _ _ _ parse_init_wf
                parse_init_tree_wf E) as Htree.
  destruct (parse_loop_nodes_ok _ _ _ _ _ _ _ parse_init_wf parse_init_tree_wf
              nodes_ok_init E) as [[Hok _] _].
  destruct (parse_loop_wf _ _ _ _ _ _ _ parse_init_wf E) as (Hwf & -> & ->).
  destruct Hwf as (_ & _ & Hlen & _). auto.
Qed.

Lemma collapse_loop_bytes (P : ascii -> Prop) (chunk : cstr) (ls : bool) (out : cstr) :
  P " " -> Forall P chunk -> Forall P out -> Forall P (collapse_loop chunk ls out).
Proof.
  intros Hsp. revert ls out. induction chunk as [|ch rest IH]; intros ls out Hc Ho;
    [exact Ho|].
  apply Forall_cons in Hc as [Hch Hrest]. cbn [collapse_loop].
  destruct (ch =? "013"); [apply IH; assumption|].
  destruct ((ch =? "010") || (ch =? "009")).
  - change (isspace " ") with true. cbv iota.
    destruct ls; apply IH; auto. apply Forall_app. split; [exact Ho|]. repeat constructor.
    exact Hsp.
  - destruct (isspace ch).
    + destruct ls; apply IH; auto. apply Forall_app. split; [exact Ho|].
      repeat constructor. exact Hsp.
    + apply IH; auto. apply Forall_app. split; [exact Ho|]. repeat constructor.
      exact Hch.
Qed.

Lemma collapse_whitespace_bytes (P : ascii -> Prop) (chunk : cstr) :
  P " " -> Forall P chunk -> Forall P (collapse_whitespace chunk).
Proof.
  intros Hsp Hc. unfold collapse_whitespace.
  pose proof (collapse_loop_bytes P chunk false [] Hsp Hc ltac:(constructor)) as H.
  destruct (trim_trailing_spaces_prefix (collapse_loop chunk false [])) as [post Hp].
  rewrite Hp in H. apply Forall_app in H. apply H.
Qed.

Lemma take_while_In (P : ascii -> bool) (s : cstr) :
  Forall (fun c => In c s) (take_while P s).
Proof.
  induction s as [|c s IH]; simpl; [constructor|].
  destruct (P c); constructor; [left; reflexivity|].
  eapply Forall_impl; [exact IH|]. simpl. auto.
Qed.

Lemma text_attach (h : heap) (p : ptr) (t : NodeType) (f : Node -> Node) (j : ptr) :
  p < length h ->
  let h' := node_append_child p (length h)
              (alter f (length h) (h ++ [fresh_node t])) in
  text (h' !!! j) = text (h !!! j)
  \/ (j = length h /\ text (h' !!! j) = text (f (fresh_node t))).
Proof.
  intros Hp h'. destruct (attach_nodes h p t f Hp) as (Hlen & Hold & Hpn & Hnn).
  fold h' in Hlen, Hold, Hpn, Hnn.
  destruct (Nat.lt_trichotomy j (length h)) as [Hj|[->|Hj]].
  - left. destruct (Nat.eq_dec j p) as [->|Hne].
    + rewrite Hpn. reflexivity.
    + rewrite Hold by assumption. reflexivity.
  - right. split; [reflexivity|]. rewrite Hnn. reflexivity.
  - left. rewrite !list_lookup_total_alt, !lookup_ge_None_2 by lia. reflexivity.
Qed.

Lemma parse_step_text_bytes (html : cstr) (s s' : pstate) :
  builder_wf s -> text_bytes_from html (ps_heap s) ->
  parse_step html s = Next s' -> text_bytes_from html (ps_heap s').
Proof.
  intros Hwf Hb. pose proof (stack_top_valid s Hwf) as Htop. unfold parse_step.
  destruct (html !! ps_pos s) as [c|]; [|discriminate].
  destruct (c =? "<").
  - destruct (_ <=? _)%nat; [discriminate|].
    destruct (strncmp_eq _ _).
    + destruct (strstr _ _); intros [= <-]; exact Hb.
    + destruct (closing_mark _) as [[] p]; [intros [= <-]; exact Hb|].
      destruct (open_tag _ _ _ _) as [[h st]|] eqn:E; [|discriminate].
      intros [= <-]. simpl. unfold open_tag in E.
      destruct (match classify_open _ with Some k => k | None => _ end)
        as [[t stores] pushes].
      cbn [node_create] in E.
      set (a := parse_attrs _) in E.
      set (par := ps_stack s !!! (length (ps_stack s) - 1)) in *.
      assert (Hh : h = node_append_child par (length (ps_heap s))
                    (alter (if stores then with_attrs a else fun n => n)
                           (length (ps_heap s))
                           (ps_heap s ++ [fresh_node t]))).
      { destruct stores;
          [|rewrite <- alter_nothing];
          (destruct pushes; [destruct (_ <? _)%nat; [|discriminate]|];
           injection E as <- _; reflexivity). }
      intros j x Hx. rewrite Hh in Hx.
      destruct (text_attach (ps_heap s) par t
                  (if stores then with_attrs a else fun n => n) j Htop)
        as [Hsame|[_ Hnew]].
      * rewrite Hsame in Hx. eapply Hb. exact Hx.
      * rewrite Hnew in Hx. destruct stores; discriminate.
  - intros [= <-]. simpl. unfold add_text.
    set (par := ps_stack s !!! (length (ps_stack s) - 1)) in *.
    pose proof (take_while_In (fun c => negb (c =? "<")) (drop (ps_pos s) html))
      as Hchunk.
    assert (Hin : Forall (fun c => c = " " \/ In c html)
                    (take_while (fun c => negb (c =? "<")) (drop (ps_pos s) html))).
    { eapply Forall_impl; [exact Hchunk|]. simpl. intros x Hx. right.
      apply list_elem_of_In. apply list_elem_of_In in Hx.
      eapply elem_of_sublist; [exact Hx | apply sublist_drop]. }
    destruct (take_while _ _) as [|c0 chunk]; [exact Hb|].
    set (verbatim := match type _ with NODE_PRE | NODE_CODE => true | _ => false end).
    cbn [node_create].
    assert (Hnew : forall out,
               Forall (fun c => c = " " \/ In c html) out ->
               text_bytes_from html
                 (node_append_child par (length (ps_heap s))
                    (alter (with_text (Some out)) (length (ps_heap s))
                       (ps_heap s ++ [fresh_node NODE_TEXT])))).
    { intros out Hout j x Hx.
      destruct (text_attach (ps_heap s) par NODE_TEXT (with_text (Some out)) j Htop)
        as [Hsame|[_ Hn]].
      - rewrite Hsame in Hx. eapply Hb. exact Hx.
      - rewrite Hn in Hx. injection Hx as <-. exact Hout. }
    destruct verbatim; [apply Hnew; exact Hin|].
    destruct (collapse_whitespace (c0 :: chunk)) as [|o0 out] eqn:Hcw; [exact Hb|].
    apply Hnew. rewrite <- Hcw. apply collapse_whitespace_bytes; [auto | exact Hin].
Qed.

Lemma parse_loop_text_bytes (fuel : nat) (html : cstr) (s : pstate)
    (r : ptr) (h : heap) (final : pstate) (t : bool) :
  builder_wf s -> text_bytes_from html (ps_heap s) ->
  parse_loop fuel html s = Returned r h final t ->
  text_bytes_from html h.
Proof.
  revert s. induction fuel as [|fuel IH]; intros s Hwf Hb; [discriminate|].
  simpl. pose proof (parse_step_cases html s) as Hcase.
  destruct (parse_step html s) as [s'|s'|s'|] eqn:E; try discriminate.
  - apply IH; [eapply parse_step_wf | eapply parse_step_text_bytes]; eassumption.
  - intros [= <- <- <- <-]. destruct Hcase as [-> _]. exact Hb.
  - intros [= <- <- <- <-]. destruct Hcase as [-> _]. exact Hb.
Qed.

Lemma parse_init_text_bytes (html : cstr) : text_bytes_from html (ps_heap parse_init).
Proof.
  intros j t. simpl. destruct j as [|j]; [discriminate|].
  rewrite list_lookup_total_alt. simpl. discriminate.
Qed.

(** For every page a load brings in, whatever bytes were fetched:
    each text of the tree is made of the bytes 32 to 127 (printable
    ASCII and DEL), \n, \t and \r only (the texts hold bytes of the
    preprocessed input, and spaces put by the collapsing). *)
Theorem loaded_text_holds_sanitized_bytes (render : heap -> Z -> Z)
    (e : load_env) (s s' : session) (h : heap) :
  load_page render e s = Loaded s' ->
  root s' = Some h ->
  forall j t, text (h !!! j) = Some t ->
              Forall (fun c => clean_byte c = true) t.
Proof.
  unfold load_page. destruct (raw e) as [bytes|]; [|discriminate].
  destruct (parse_html_tree _) as [r h0 final tr| |] eqn:E; try discriminate.
  intros [= <-]. simpl. intros [= <-] j t Ht.
  unfold parse_html_tree, parse_html_tree_fuel in E.
  pose proof (parse_loop_text_bytes _ _ _ _ _ _ _ parse_init_wf
                (parse_init_text_bytes _) E j t Ht) as Hb.
  pose proof (preprocess_clean bytes) as Hclean.
  rewrite Forall_forall in Hclean.
  eapply Forall_impl; [exact Hb|]. simpl. intros c [->|Hc]; [reflexivity|].
  apply Hclean. apply list_elem_of_In. exact Hc.
Qed.

(** The bytes "caf", 233, 7 and 127 in a paragraph: 233 becomes [?],
    7 a space, and DEL stays in the text. *)
Lemma loaded_text_holds_sanitized_bytes_witness :
  exists s' h,
    load_page (fun _ _ => 0%Z)
      {| raw := Some ("<" :: "p" :: ">" :: "c" :: "a" :: "f" :: "233" :: "007"
                      :: "127" :: lit "</p>");
         term_h := 24; term_w := 80 |}
      {| root := None;
         vw := {| top_pos := 0; g_pad_cur_y := 0; g_term_h := 0 |} |}
    = Loaded s'
    /\ root s' = Some h
    /\ text (h !!! 2) = Some ["c"; "a"; "f"; "?"; " "; "127"]
    /\ Forall (fun c => clean_byte c = true) ["c"; "a"; "f"; "?"; " "; "127"].
Proof.
  eexists _, _. split; [vm_compute; reflexivity|].
  split; [reflexivity|]. split; [reflexivity|].
  eapply (loaded_text_holds_sanitized_bytes (fun _ _ => 0%Z)
            {| raw := Some ("<" :: "p" :: ">" :: "c" :: "a" :: "f" :: "233" :: "007"
                            :: "127" :: lit "</p>");
               term_h := 24; term_w := 80 |}
            {| root := None;
               vw := {| top_pos := 0; g_pad_cur_y := 0; g_term_h := 0 |} |})
    with (j := 2).
  - vm_compute. reflexivity.
  - reflexivity.
  - reflexivity.
Defined.

(** ** Releasing the tree *)

Section Free.

Variable h : heap.

Hypothesis Htree : tree_wf h.

Lemma parent_lt (j q : ptr) :
  j < length h -> parent (h !!! j) = Some q -> q < j /\ In j (children (h !!! q)).
Proof.
  intros Hj Hq. destruct Htree as (Hroot & Hpar & _).
  destruct (Nat.eq_dec j 0) as [->|Hj0]; [congruence|].
  destruct (Hpar j ltac:(lia)) as (q' & Hq' & Hqp & Hin).
  assert (q' = q) as -> by congruence. auto.
Qed.

Lemma below_le (p j : ptr) : below h p j -> j < length h -> p <= j.
Proof.
  induction 1 as [|j q Hq Hb IH]; intros Hj; [lia|].
  destruct (parent_lt j q Hj Hq) as [Hlt _]. specialize (IH ltac:(lia)). lia.
Qed.

Lemma below_root (j : ptr) : j < length h -> below h 0 j.
Proof.
  induction j as [j IH] using lt_wf_ind. intros Hj.
  destruct (Nat.eq_dec j 0) as [->|Hj0]; [constructor|].
  destruct Htree as (_ & Hpar & _).
  destruct (Hpar j ltac:(lia)) as (q & Hq & Hqp & _).
  eapply below_child; [exact Hqp | apply IH; lia].
Qed.

Lemma below_via_child (p j : ptr) :
  below h p j -> j < length h -> j <> p ->
  exists c, In c (children (h !!! p)) /\ below h c j.
Proof.
  induction 1 as [|j q Hq Hb IH]; intros Hj Hne; [congruence|].
  destruct (parent_lt j q Hj Hq) as [Hlt Hin].
  destruct (Nat.eq_dec q p) as [->|Hqp].
  - exists j. split; [exact Hin | constructor].
  - destruct (IH ltac:(lia) Hqp) as (c & Hc & Hbc).
    exists c. split; [exact Hc | eapply below_child; eassumption].
Qed.

Lemma siblings_disjoint (p c c' j : ptr) :
  c < length h -> c' < length h -> j < length h ->
  parent (h !!! c) = Some p -> parent (h !!! c') = Some p ->
  below h c j -> below h c' j -> c = c'.
Proof.
  intros Hc Hc' Hj Hpc Hpc' Hb. revert Hj.
  induction Hb as [|j q Hq Hb IH]; intros Hj Hb'.
  - inversion Hb' as [|j' q' Hq' Hb'']; subst; [reflexivity|].
    assert (q' = p) as -> by congruence.
    destruct (parent_lt c p Hc Hpc) as [Hlt _].
    destruct (parent_lt c' p Hc' Hpc') as [Hlt' _].
    pose proof (below_le _ _ Hb'' ltac:(lia)). lia.
  - destruct (parent_lt j q Hj Hq) as [Hlt _].
    inversion Hb' as [|j' q' Hq' Hb'']; subst.
    + assert (q = p) as -> by congruence.
      destruct (parent_lt c p Hc Hpc) as [Hlt1 _].
      pose proof (below_le _ _ Hb ltac:(lia)). lia.
    + assert (q' = q) as -> by congruence. apply IH; [lia | exact Hb''].
Qed.

Lemma NoDup_concat_disjoint (cs : list ptr) (ls : list (list free_call))
    (R : ptr -> list free_call -> Prop) :
  Forall2 R cs ls ->
  NoDup cs ->
  (forall c l, In c cs -> R c l -> NoDup l) ->
  (forall c c' l l' x, In c cs -> In c' cs -> R c l -> R c' l' ->
                       x ∈ l -> x ∈ l' -> c = c') ->
  NoDup (concat ls)
  /\ forall x, x ∈ concat ls -> exists c l, In c cs /\ R c l /\ x ∈ l.
Proof.
  induction 1 as [|c l cs ls Hcl Hrest IH]; intros Hnd Hl Hdis.
  - split; [constructor|]. simpl. intros x Hx. inversion Hx.
  - apply NoDup_cons in Hnd as [Hnot Hnd].
    destruct IH as [IH1 IH2]; [exact Hnd | | |].
    { intros c0 l0 Hc0. apply Hl. right. exact Hc0. }
    { intros c1 c2 l1 l2 x H1 H2. apply Hdis; right; assumption. }
    split.
    + simpl. apply NoDup_app. split; [apply (Hl c); [left; reflexivity | exact Hcl]|].
      split; [|exact IH1].
      intros x Hx Hx'. destruct (IH2 x Hx') as (c' & l' & Hc' & Hr' & Hxl').
      assert (c = c') as ->.
      { eapply (Hdis c c' l l' x); auto; [left; reflexivity | right; exact Hc']. }
      apply Hnot. apply list_elem_of_In. exact Hc'.
    + simpl. intros x Hx. apply elem_of_app in Hx as [Hx|Hx].
      * exists c, l. split; [left; reflexivity | auto].
      * destruct (IH2 x Hx) as (c' & l' & Hc' & Hr' & Hxl').
        exists c', l'. split; [right; exact Hc' | auto].
Qed.

Lemma node_free_recursive_subtree (fuel : nat) (p : ptr) :
  p < length h -> length h - p <= fuel ->
  exists calls, node_free_recursive fuel h p = Some calls /\ frees_subtree h p calls.
Proof.
  revert p. induction fuel as [|fuel IH]; intros p Hp Hfuel; [lia|].
  cbn [node_free_recursive]. cbv zeta.
  destruct Htree as (Hroot & Hpar & Hch & Hnd).
  set (cs := children (h !!! p)).
  assert (Hcs : forall c, In c cs -> p < c < length h /\ parent (h !!! c) = Some p)
    by (intros c Hc; apply Hch; assumption).
  assert (Hsub : exists ls,
             Forall2 (fun c l => node_free_recursive fuel h c = Some l
                                 /\ frees_subtree h c l) cs ls).
  { clear -IH Hcs Hfuel. induction cs as [|c cs' IHcs]; [exists []; constructor|].
    destruct (Hcs c ltac:(left; reflexivity)) as [Hc _].
    destruct (IH c) as (l & Hl & Hf); [lia | lia |].
    destruct IHcs as [ls Hls]; [intros c0 Hc0; apply Hcs; right; exact Hc0|].
    exists (l :: ls). constructor; auto. }
  destruct Hsub as [ls Hls].
  assert (HmapM : mapM (node_free_recursive fuel h) cs = Some ls).
  { apply mapM_Some. eapply Forall2_impl; [exact Hls|]. simpl. tauto. }
  rewrite HmapM.
  destruct (NoDup_concat_disjoint cs ls _ Hls (Hnd p Hp)) as [Hnodup Hfrom].
  { intros c l _ [_ (H & _)]. exact H. }
  { intros c c' l l' x Hc Hc' [_ (_ & Ho & _)] [_ (_ & Ho' & _)] Hx Hx'.
    destruct (Ho x Hx) as [Hb Hlt]. destruct (Ho' x Hx') as [Hb' _].
    destruct (Hcs c Hc) as [Hcr Hcp]. destruct (Hcs c' Hc') as [Hcr' Hcp'].
    eapply siblings_disjoint; eauto; lia. }
  assert (Hbelow : forall x, x ∈ concat ls ->
                     exists c, In c cs /\ below h c (freed_owner x)
                               /\ freed_owner x < length h).
  { intros x Hx. destruct (Hfrom x Hx) as (c & l & Hc & [_ (_ & Ho & _)] & Hxl).
    exists c. split; [exact Hc|]. apply Ho. exact Hxl. }
  assert (Hnotp : forall x, x ∈ concat ls -> freed_owner x <> p).
  { intros x Hx. destruct (Hbelow x Hx) as (c & Hc & Hb & Hlt).
    destruct (Hcs c Hc) as [Hcr _]. pose proof (below_le _ _ Hb Hlt). lia. }
  eexists. split; [reflexivity|]. split; [|split].
  - apply NoDup_app. split; [destruct (text (h !!! p)); [apply NoDup_singleton | constructor]|].
    split.
    { intros x Hx Hx'.
      assert (x = free_text p) as ->
        by (destruct (text (h !!! p)); [apply list_elem_of_singleton in Hx; exact Hx | inversion Hx]).
      apply elem_of_cons in Hx' as [Hx'|Hx']; [discriminate|].
      apply elem_of_app in Hx' as [Hx'|Hx']; [exact (Hnotp _ Hx' eq_refl)|].
      apply elem_of_app in Hx' as [Hx'|Hx'].
      - destruct cs; [inversion Hx'|]. apply list_elem_of_singleton in Hx'. discriminate.
      - apply list_elem_of_singleton in Hx'. discriminate. }
    apply NoDup_cons. split.
    { intros Hx'.
      apply elem_of_app in Hx' as [Hx'|Hx']; [exact (Hnotp _ Hx' eq_refl)|].
      apply elem_of_app in Hx' as [Hx'|Hx'].
      - destruct cs; [inversion Hx'|]. apply list_elem_of_singleton in Hx'. discriminate.
      - apply list_elem_of_singleton in Hx'. discriminate. }
    apply NoDup_app. split; [exact Hnodup|]. split.
    { intros x Hx Hx'. apply elem_of_app in Hx' as [Hx'|Hx'].
      - destruct cs; [inversion Hx'|]. apply list_elem_of_singleton in Hx'.
        subst. exact (Hnotp _ Hx eq_refl).
      - apply list_elem_of_singleton in Hx'. subst. exact (Hnotp _ Hx eq_refl). }
    apply NoDup_app. split; [destruct cs; [constructor | apply NoDup_singleton]|].
    split; [|apply NoDup_singleton].
    intros x Hx Hx'. apply list_elem_of_singleton in Hx'. subst.
    destruct cs; [inversion Hx|]. apply list_elem_of_singleton in Hx. discriminate.
  - intros x Hx.
    assert (Hown : freed_owner x = p \/ x ∈ concat ls).
    { apply elem_of_app in Hx as [Hx|Hx].
      - left. destruct (text (h !!! p)); [|inversion Hx].
        apply list_elem_of_singleton in Hx. subst. reflexivity.
      - apply elem_of_cons in Hx as [->|Hx]; [left; reflexivity|].
        apply elem_of_app in Hx as [Hx|Hx]; [right; exact Hx|].
        left. apply elem_of_app in Hx as [Hx|Hx].
        + destruct cs; [inversion Hx|]. apply list_elem_of_singleton in Hx.
          subst. reflexivity.
        + apply list_elem_of_singleton in Hx. subst. reflexivity. }
    destruct Hown as [->|Hin]; [split; [constructor | exact Hp]|].
    destruct (Hbelow x Hin) as (c & Hc & Hb & Hlt). split; [|exact Hlt].
    destruct (Hcs c Hc) as [_ Hcp].
    clear -Hb Hcp. induction Hb as [|j q Hq Hb IHb].
    + eapply below_child; [exact Hcp | constructor].
    + eapply below_child; [exact Hq | exact IHb].
  - intros j Hb Hj. destruct (Nat.eq_dec j p) as [->|Hne].
    + apply elem_of_app. right. apply elem_of_cons. right.
      apply elem_of_app. right. apply elem_of_app. right. constructor.
    + destruct (below_via_child p j Hb Hj Hne) as (c & Hc & Hbc).
      apply elem_of_app. right. apply elem_of_cons. right.
      apply elem_of_app. left.
      apply list_elem_of_In, list_elem_of_lookup_1 in Hc as [i Hi].
      destruct (Forall2_lookup_l _ _ _ _ _ Hls Hi) as (l & Hl & _ & _ & _ & Hall).
      apply list_elem_of_In, in_concat. exists l.
      split; apply list_elem_of_In;
        [eapply list_elem_of_lookup_2; exact Hl | apply Hall; [exact Hbc | exact Hj]].
Qed.

End Free.

(** [node_free_recursive] on the root of a tree the builder returned
    ends, makes no call twice (no text, attribute list, child array or
    node is freed twice) and frees every node of the store: exactly
    the nodes of the tree, each once. *)
Theorem node_free_recursive_frees_each_node_once (html : cstr) (r : ptr)
    (h : heap) (final : pstate) (t : bool) :
  parse_html_tree html = Returned r h final t ->
  exists calls,
    node_free_recursive (length h) h r = Some calls
    /\ NoDup calls
    /\ (forall j, free_node j ∈ calls <-> j < length h).
Proof.
  intros E. unfold parse_html_tree, parse_html_tree_fuel in E.
  pose proof (parse_loop_tree_wf _ _ _ _ _ _ _ parse_init_wf
                parse_init_tree_wf E) as Htree.
  destruct (parse_loop_wf _ _ _ _ _ _ _ parse_init_wf E) as (Hwf & -> & ->).
  destruct Hwf as (_ & _ & Hlen & _).
  destruct (node_free_recursive_subtree _ Htree (length (ps_heap final)) 0)
    as (calls & Hc & Hnd & Hown & Hall); [lia | lia |].
  exists calls. split; [exact Hc|]. split; [exact Hnd|].
  intros j. split.
  - intros Hj. apply Hown in Hj. apply Hj.
  - intros Hj. apply Hall; [apply below_root; assumption | exact Hj].
Qed.

Lemma node_free_recursive_frees_each_node_once_witness :
  exists h final calls,
    parse_html_tree (lit "<p>a<b>c</b></p>") = Returned 0 h final false
    /\ node_free_recursive (length h) h 0 = Some calls
    /\ NoDup calls
    /\ (forall j, free_node j ∈ calls <-> j < length h).
Proof.
  eexists _, _.
  destruct (node_free_recursive_frees_each_node_once (lit "<p>a<b>c</b></p>")
              0 _ _ false ltac:(vm_compute; reflexivity)) as (calls & H).
  exists calls. split; [vm_compute; reflexivity | exact H].
Defined.

(** ** Fetch failure *)

(** Releasing the tree of a session: every node of it, each once. *)
Lemma free_old_dom_releases (s : session) :
  session_ok s ->
  exists frees,
    free_old_dom (root s) = Some (map release frees)
    /\ NoDup frees
    /\ (forall h, root s = Some h -> forall j, free_node j ∈ frees <-> j < length h)
    /\ (root s = None -> frees = []).
Proof.
  unfold session_ok, free_old_dom. destruct (root s) as [h|].
  - intros [Htree Hlen].
    destruct (node_free_recursive_subtree h Htree (length h) 0)
      as (calls & Hc & Hnd & Hown & Hall); [lia | lia |].
    exists calls. rewrite Hc. split; [reflexivity|]. split; [exact Hnd|].
    split; [|discriminate].
    intros h' [= <-] j. split.
    + intros Hj. apply Hown in Hj. apply Hj.
    + intros Hj. apply Hall; [apply below_root; assumption | exact Hj].
  - intros _. exists []. repeat split; try constructor; discriminate.
Qed.

Lemma loaded_session_ok (html : cstr) (r : ptr) (h : heap) (final : pstate)
    (t : bool) (v : view) :
  parse_html_tree html = Returned r h final t ->
  session_ok {| root := Some h; vw := v |}.
Proof.
  intros E. unfold parse_html_tree, parse_html_tree_fuel in E.
  pose proof (parse_loop_tree_wf _ _ _ _ _ _ _ parse_init_wf
                parse_init_tree_wf E) as Htree.
  destruct (parse_loop_wf _ _ _ _ _ _ _ parse_init_wf E) as (Hwf & _ & ->).
  destruct Hwf as (_ & _ & Hlen & _). split; assumption.
Qed.

Section MainCallsFacts.

(** [rd] stands for the row [render_document] reaches, [arg] for
    [current_arg]. *)
Variable rd : heap -> Z -> Z.
Variable arg : cstr.

(** A failed fetch: the old tree released, one fetch, one report, and
    [main] returns 1 with [root] NULL; [k] is never entered. *)
Lemma need_load_fetch_failed (e : load_env) (s : session)
    (k : session -> list call * main_result) :
  raw e = None ->
  session_ok s ->
  exists frees,
    need_load rd arg e s k
    = (map release frees ++ fetch_raw :: after_failed_fetch arg,
       Exit 1 None)
    /\ NoDup frees
    /\ (forall h, root s = Some h -> forall j, free_node j ∈ frees <-> j < length h)
    /\ (root s = None -> frees = []).
Proof.
  intros He Hs. destruct (free_old_dom_releases s Hs) as (frees & Hf & Hrest).
  exists frees. split; [|exact Hrest].
  unfold need_load. rewrite Hf, He. reflexivity.
Qed.

(** How the body of [if(need_load)] can end. *)
Lemma need_load_cases (e : load_env) (s : session)
    (k : session -> list call * main_result) :
  session_ok s ->
  exists frees,
    free_old_dom (root s) = Some (map release frees)
    /\ ((raw e = None
         /\ need_load rd arg e s k
            = (map release frees ++ fetch_raw :: after_failed_fetch arg,
               Exit 1 None))
        \/ (exists bytes s',
              raw e = Some bytes
              /\ load_page rd e s = Loaded s'
              /\ session_ok s'
              /\ need_load rd arg e s k
                 = (map release frees ++ fetch_raw :: render_root :: (k s').1,
                    (k s').2))
        \/ (exists bytes r,
              raw e = Some bytes
              /\ (r = Undefined_behaviour \/ r = Hangs)
              /\ after_load (load_page rd e s) (fun _ => AwaitsLoad) = r
              /\ need_load rd arg e s k = (map release frees ++ [fetch_raw], r))).
Proof.
  intros Hs. destruct (free_old_dom_releases s Hs) as (frees & Hf & _).
  exists frees. split; [exact Hf|].
  unfold need_load, load_page. rewrite Hf.
  destruct (raw e) as [bytes|]; [|left; split; reflexivity].
  right.
  destruct (parse_html_tree _) as [r h final t| |] eqn:E.
  - left. eexists bytes, _. split; [reflexivity|]. split; [reflexivity|].
    split; [eapply loaded_session_ok; exact E|].
    destruct (k _) as [cs r']. reflexivity.
  - right. exists bytes, Undefined_behaviour. auto.
  - right. exists bytes, Hangs. auto.
Qed.

(** The calls are those of the run that [ui_loop] and [main] describe. *)
Lemma ui_calls_result (keys : list key) (loads : list load_env) (s : session) :
  session_ok s ->
  (ui_calls rd arg keys loads s).2 = ui_loop rd keys loads s.
Proof.
  revert loads s. induction keys as [|k keys IH]; intros loads s Hs; [reflexivity|].
  assert (Hscroll : forall v,
            (let '(cs, r) := ui_calls rd arg keys loads {| root := root s; vw := v |} in
             (prefresh (top_pos (vw s)) :: getch k :: cs, r)).2
            = ui_loop rd keys loads {| root := root s; vw := v |}).
  { intros v. specialize (IH loads {| root := root s; vw := v |} Hs).
    destruct (ui_calls rd arg keys loads _) as [cs r]. exact IH. }
  destruct k; cbn [ui_calls ui_loop]; try apply Hscroll.
  - destruct (free_old_dom_releases s Hs) as (frees & -> & _). reflexivity.
  - destruct loads as [|e loads]; [reflexivity|].
    destruct (need_load_cases e s (ui_calls rd arg keys loads) Hs)
      as (frees & _ & [[He ->] | [(b & s' & He & Hl & Hs' & ->)
                                  | (b & r & He & Hr0 & Hr & ->)]]).
    + unfold load_page. rewrite He. reflexivity.
    + rewrite Hl. cbn [after_load snd]. apply IH. exact Hs'.
    + cbn [snd].
      destruct (load_page rd e s), Hr0 as [-> | ->];
        cbn [after_load] in *; try discriminate; reflexivity.
Qed.

Lemma main_calls_result (loads : list load_env) (keys : list key) :
  (main_calls rd arg loads keys).2 = main rd loads keys.
Proof.
  unfold main_calls, main. destruct loads as [|e loads]; [reflexivity|].
  set (s0 := {| root := None; vw := _ |}).
  assert (Hs : session_ok s0) by exact I.
  destruct (need_load_cases e s0 (ui_calls rd arg keys loads) Hs)
    as (frees & _ & [[He ->] | [(b & s' & He & Hl & Hs' & ->)
                                | (b & r & He & Hr0 & Hr & ->)]]).
  - unfold load_page. rewrite He. reflexivity.
  - rewrite Hl. cbn [after_load snd]. apply ui_calls_result. exact Hs'.
  - cbn [snd].
    destruct (load_page rd e s0), Hr0 as [-> | ->];
      cbn [after_load] in *; try discriminate; reflexivity.
Qed.

(** Whenever [main] waits for a key it holds a tree. *)
Lemma ui_calls_session_ok (keys : list key) (loads : list load_env)
    (s r : session) (cs : list call) :
  session_ok s ->
  ui_calls rd arg keys loads s = (cs, AwaitsKey r) ->
  session_ok r.
Proof.
  revert loads s cs. induction keys as [|k keys IH]; intros loads s cs Hs.
  - intros [= _ <-]. exact Hs.
  - assert (Hscroll : forall v,
              (let '(cs, r) := ui_calls rd arg keys loads {| root := root s; vw := v |} in
               (prefresh (top_pos (vw s)) :: getch k :: cs, r))
              = (cs, AwaitsKey r) -> session_ok r).
    { intros v. destruct (ui_calls rd arg keys loads _) as [cs' r'] eqn:E.
      intros [= _ ->].
      eapply (IH loads {| root := root s; vw := v |}); [exact Hs | exact E]. }
    destruct k; cbn [ui_calls]; try apply Hscroll.
    + destruct (free_old_dom (root s)); discriminate.
    + destruct loads as [|e loads]; [discriminate|].
      destruct (need_load_cases e s (ui_calls rd arg keys loads) Hs)
        as (frees & _ & [[He ->] | [(b & s' & He & Hl & Hs' & ->)
                                    | (b & r0 & He & [-> | ->] & Hr & ->)]]);
        try discriminate.
      destruct (ui_calls rd arg keys loads s') as [cs' r'] eqn:E. cbn [fst snd].
      intros [= _ ->]. eapply IH; [exact Hs' | exact E].
Qed.

(** Every way [main] returns 1 is a failed fetch: the calls end with
    the release of the tree held, one fetch and the one report; [root]
    is NULL. *)
Lemma ui_calls_exit_1 (keys : list key) (loads : list load_env)
    (s : session) (cs : list call) (held : option heap) :
  session_ok s ->
  ui_calls rd arg keys loads s = (cs, Exit 1 held) ->
  held = None
  /\ exists pre frees,
       cs = pre ++ map release frees ++ fetch_raw :: after_failed_fetch arg
       /\ Forall (fun c => forall m, c <> fprintf_stderr m) pre.
Proof.
  revert loads s cs. induction keys as [|k keys IH]; intros loads s cs Hs.
  - discriminate.
  - assert (Hscroll : forall v,
              (let '(cs, r) := ui_calls rd arg keys loads {| root := root s; vw := v |} in
               (prefresh (top_pos (vw s)) :: getch k :: cs, r))
              = (cs, Exit 1 held) ->
              held = None
              /\ exists pre frees,
                   cs = pre ++ map release frees
                            ++ fetch_raw :: after_failed_fetch arg
                   /\ Forall (fun c => forall m, c <> fprintf_stderr m) pre).
    { intros v. destruct (ui_calls rd arg keys loads _) as [cs' r'] eqn:E.
      intros [= <- ->].
      destruct (IH loads {| root := root s; vw := v |} cs' Hs E)
        as (Hh & pre & frees & -> & Hpre).
      split; [exact Hh|].
      exists (prefresh (top_pos (vw s)) :: getch k :: pre), frees.
      split; [reflexivity|]. repeat constructor; try discriminate. exact Hpre. }
    destruct k; cbn [ui_calls]; try apply Hscroll.
    + destruct (free_old_dom (root s)); discriminate.
    + destruct loads as [|e loads]; [discriminate|].
      destruct (need_load_cases e s (ui_calls rd arg keys loads) Hs)
        as (frees & _ & [[He ->] | [(b & s' & He & Hl & Hs' & ->)
                                    | (b & r0 & He & [-> | ->] & Hr & ->)]]);
        try discriminate.
      * intros [= <- <-]. split; [reflexivity|].
        exists [prefresh (top_pos (vw s)); getch KEY_r], frees.
        split; [reflexivity|]. repeat constructor; discriminate.
      * destruct (ui_calls rd arg keys loads s') as [cs' r'] eqn:E. cbn [fst snd].
        intros [= <- ->].
        destruct (IH loads s' cs' Hs' E) as (Hh & pre & frees' & -> & Hpre).
        split; [exact Hh|].
        exists (prefresh (top_pos (vw s)) :: getch KEY_r
                :: map release frees ++ fetch_raw :: render_root :: pre), frees'.
        split; [cbn [app]; rewrite <- !app_assoc; reflexivity|].
        constructor; [discriminate|]. constructor; [discriminate|].
        apply Forall_app. split.
        -- apply Forall_forall. intros c Hc m.
           apply list_elem_of_fmap in Hc as (c' & -> & _). discriminate.
        -- constructor; [discriminate|]. constructor; [discriminate|]. exact Hpre.
Qed.

Lemma main_calls_exit_1 (loads : list load_env) (keys : list key)
    (cs : list call) (held : option heap) :
  main_calls rd arg loads keys = (cs, Exit 1 held) ->
  held = None
  /\ exists pre frees,
       cs = pre ++ map release frees ++ fetch_raw :: after_failed_fetch arg
       /\ Forall (fun c => forall m, c <> fprintf_stderr m) pre.
Proof.
  unfold main_calls. destruct loads as [|e loads]; [discriminate|].
  set (s0 := {| root := None; vw := _ |}).
  assert (Hs : session_ok s0) by exact I.
  destruct (need_load_cases e s0 (ui_calls rd arg keys loads) Hs)
    as (frees & _ & [[He ->] | [(b & s' & He & Hl & Hs' & ->)
                                | (b & r0 & He & [-> | ->] & Hr & ->)]]);
    try discriminate.
  - intros [= <- <-]. split; [reflexivity|]. exists [], frees.
    split; [reflexivity | constructor].
  - destruct (ui_calls rd arg keys loads s') as [cs' r'] eqn:E. cbn [fst snd].
    intros [= <- ->].
    destruct (ui_calls_exit_1 keys loads s' cs' held Hs' E)
      as (Hh & pre & frees' & -> & Hpre).
    split; [exact Hh|].
    exists (map release frees ++ fetch_raw :: render_root :: pre), frees'.
    split; [rewrite <- !app_assoc; reflexivity|].
    apply Forall_app. split.
    + apply Forall_forall. intros c Hc m.
      apply list_elem_of_fmap in Hc as (c' & -> & _). discriminate.
    + constructor; [discriminate|]. constructor; [discriminate|]. exact Hpre.
Qed.

Lemma main_calls_session_ok (loads : list load_env) (keys : list key)
    (cs : list call) (r : session) :
  main_calls rd arg loads keys = (cs, AwaitsKey r) -> session_ok r.
Proof.
  unfold main_calls. destruct loads as [|e loads]; [discriminate|].
  set (s0 := {| root := None; vw := _ |}).
  assert (Hs : session_ok s0) by exact I.
  destruct (need_load_cases e s0 (ui_calls rd arg keys loads) Hs)
    as (frees & _ & [[He ->] | [(b & s' & He & Hl & Hs' & ->)
                                | (b & r0 & He & [-> | ->] & Hr & ->)]]);
    try discriminate.
  destruct (ui_calls rd arg keys loads s') as [cs' r'] eqn:E. cbn [fst snd].
  intros [= _ ->]. eapply ui_calls_session_ok; [exact Hs' | exact E].
Qed.

End MainCallsFacts.

(** C9, as amended: a failed fetch ends the session, on the initial
    load and on a reload alike.  On the initial load [main] fetches
    once, reports the failure once on [stderr] and returns 1.  On a
    reload it first releases the tree it holds, every node once, sets
    [root] to NULL, then fetches once, reports once and returns 1: the
    keys that follow are never read, so no caller is asked whether to
    keep the previous view.  In every run that returns 1 the calls end
    in this way and no tree is held; whenever [main] waits for a key
    the store it holds is a tree, which the release frees wholly; the
    results are those of [main]. *)
Theorem fetch_failure_ends_session (e : load_env) (s : session) :
  raw e = None ->
  session_ok s ->
  (forall rd arg loads keys,
     main_calls rd arg (e :: loads) keys
     = (fetch_raw :: after_failed_fetch arg, Exit 1 None))
  /\ (forall rd arg loads keys,
        exists frees,
          ui_calls rd arg (KEY_r :: keys) (e :: loads) s
          = (prefresh (top_pos (vw s)) :: getch KEY_r
             :: map release frees ++ fetch_raw :: after_failed_fetch arg,
             Exit 1 None)
          /\ NoDup frees
          /\ (forall h, root s = Some h ->
                forall j, free_node j ∈ frees <-> j < length h)
          /\ (root s = None -> frees = []))
  /\ (forall rd arg loads keys cs held,
        main_calls rd arg loads keys = (cs, Exit 1 held) ->
        held = None
        /\ exists pre frees,
             cs = pre ++ map release frees ++ fetch_raw :: after_failed_fetch arg
             /\ Forall (fun c => forall m, c <> fprintf_stderr m) pre)
  /\ (forall rd arg loads keys cs r,
        main_calls rd arg loads keys = (cs, AwaitsKey r) -> session_ok r)
  /\ (forall rd arg loads keys,
        (main_calls rd arg loads keys).2 = main rd loads keys).
Proof.
  intros He Hs. split; [|split; [|split; [|split]]].
  - intros rd arg loads keys. unfold main_calls.
    destruct (need_load_fetch_failed rd arg e
                {| root := None;
                   vw := {| top_pos := 0; g_pad_cur_y := 0; g_term_h := 0 |} |}
                (ui_calls rd arg keys loads) He I)
      as (frees & -> & _ & _ & Hnil).
    rewrite (Hnil eq_refl). reflexivity.
  - intros rd arg loads keys. cbn [ui_calls].
    destruct (need_load_fetch_failed rd arg e s (ui_calls rd arg keys loads) He Hs)
      as (frees & -> & Hrest).
    exists frees. split; [reflexivity | exact Hrest].
  - intros rd arg loads keys cs held. apply main_calls_exit_1.
  - intros rd arg loads keys cs r. apply main_calls_session_ok.
  - intros rd arg loads keys. apply main_calls_result.
Qed.

(** A reload that fails after the page "<p>page</p>" was loaded. *)
Lemma fetch_failure_ends_session_witness :
  exists s,
    load_page (fun _ _ => 30%Z)
      {| raw := Some (lit "<p>page</p>"); term_h := 24; term_w := 80 |}
      {| root := None; vw := {| top_pos := 0; g_pad_cur_y := 0; g_term_h := 0 |} |}
    = Loaded s
    /\ (forall rd arg loads keys,
          main_calls rd arg ({| raw := None; term_h := 24; term_w := 80 |} :: loads) keys
          = (fetch_raw :: after_failed_fetch arg, Exit 1 None))
    /\ (forall rd arg loads keys,
          exists frees,
            ui_calls rd arg (KEY_r :: keys)
              ({| raw := None; term_h := 24; term_w := 80 |} :: loads) s
            = (prefresh (top_pos (vw s)) :: getch KEY_r
               :: map release frees ++ fetch_raw :: after_failed_fetch arg,
               Exit 1 None)
            /\ NoDup frees
            /\ (forall h, root s = Some h ->
                  forall j, free_node j ∈ frees <-> j < length h)
            /\ (root s = None -> frees = []))
    /\ (forall rd arg loads keys cs held,
          main_calls rd arg loads keys = (cs, Exit 1 held) ->
          held = None
          /\ exists pre frees,
               cs = pre ++ map release frees ++ fetch_raw :: after_failed_fetch arg
               /\ Forall (fun c => forall m, c <> fprintf_stderr m) pre)
    /\ (forall rd arg loads keys cs r,
          main_calls rd arg loads keys = (cs, AwaitsKey r) -> session_ok r)
    /\ (forall rd arg loads keys,
          (main_calls rd arg loads keys).2 = main rd loads keys).
Proof.
  eexists. split; [vm_compute; reflexivity|].
  apply (fetch_failure_ends_session
           {| raw := None; term_h := 24; term_w := 80 |}).
  - reflexivity.
  - eapply (loaded_session_ok (lit "<p>page</p>")). vm_compute. reflexivity.
Defined.

(** C9 as stated fails on a reload: after a page has been loaded and
    shown, [r] followed by a failed fetch makes [main] release the
    tree, report the failure and return 1.  The keys after [r] are
    never read and nothing is drawn again, so the previous view
    cannot be kept. *)
Lemma failed_reload_exits :
  main_calls (fun _ _ => 30%Z) (lit "page.html")
    [{| raw := Some (lit "<p>page</p>"); term_h := 24; term_w := 80 |};
     {| raw := None; term_h := 24; term_w := 80 |}]
    [KEY_DOWN; KEY_r; KEY_DOWN; KEY_q]
  = ([fetch_raw; render_root; prefresh 0; getch KEY_DOWN;
      prefresh 1; getch KEY_r;
      release (attr_free_all 0); release (attr_free_all 1);
      release (free_text 2); release (attr_free_all 2);
      release (free_node 2); release (free_children 1);
      release (free_node 1); release (free_children 0);
      release (free_node 0);
      fetch_raw; endwin;
      fprintf_stderr (lit "Failed to fetch 'page.html'" ++ ["010"]);
      free_current_arg; curl_global_cleanup],
     Exit 1 None).
Proof. vm_compute. reflexivity. Qed.

(** ** Fetching *)

Lemma strncmp_eq_prefix (s pat : cstr) :
  strncmp_eq s pat = true -> s = pat ++ drop (length pat) s.
Proof.
  revert s. induction pat as [|p pat IH]; intros [|c s]; simpl;
    try discriminate; try reflexivity.
  intros H. apply andb_true_iff in H as [Hc H]. apply Ascii.eqb_eq in Hc.
  subst. f_equal. apply IH. exact H.
Qed.

(** What [fetch_url] returns: for a location that begins with
    "http://" or "https://" in lower case, what the libcurl transfer
    of the location gives; for one that begins with "file://", what
    [read_file_local] gives for the rest of the location; and in every
    other case ("HTTP://..." and "ftp://..." included) what
    [read_file_local] gives for the location itself. *)
Theorem fetch_url_dispatch (src : sources) (url : cstr) :
  (strncmp_eq url (lit "http://") || strncmp_eq url (lit "https://") = true ->
   fetch_url src url = curl_transfer src url)
  /\ (strncmp_eq url (lit "file://") = true ->
      fetch_url src url = read_file_local src (drop 7 url))
  /\ (strncmp_eq url (lit "http://") || strncmp_eq url (lit "https://") = false ->
      strncmp_eq url (lit "file://") = false ->
      fetch_url src url = read_file_local src url).
Proof.
  unfold fetch_url. split; [|split].
  - intros H. rewrite H.
    apply orb_true_iff in H as [H|H]; apply strncmp_eq_prefix in H;
      rewrite H; reflexivity.
  - intros ->. reflexivity.
  - intros H1 H2. rewrite H1, H2. destruct (is_local_path url); reflexivity.
Qed.

(** ** Word wrap: the words written *)

Lemma word_push_take (cur : cstr) (c : ascii) :
  word_push (take 1023 cur) c = take 1023 (cur ++ [c]).
Proof.
  unfold word_push. rewrite length_take.
  destruct (Nat.ltb_spec (1023 `min` length cur + 1) 1024) as [H|H].
  - rewrite take_ge by lia. rewrite take_ge by (rewrite length_app; simpl; lia).
    reflexivity.
  - rewrite take_app_le by lia. reflexivity.
Qed.

Lemma written_strings_app (a b : list draw) :
  written_strings (a ++ b) = written_strings a ++ written_strings b.
Proof. unfold written_strings. apply flat_map_app. Qed.

Lemma wrap_loop_words (W indent : Z) (txt : cstr) (y curx : Z) (cur : cstr) :
  written_strings (wrap_loop W indent txt y curx (take 1023 cur)).2
  = map (take 1023) (words_from cur txt).
Proof.
  assert (Hword : forall y curx word,
             written_strings (wrap_word W indent y curx word).2 = [word]).
  { intros y0 x0 word. unfold wrap_word. destruct (_ >=? _)%Z; reflexivity. }
  assert (Hspace : forall y curx,
             written_strings (wrap_space W indent y curx).2 = []).
  { intros y0 x0. unfold wrap_space. destruct (_ >=? _)%Z; reflexivity. }
  assert (Hnil : forall cur : cstr, take 1023 cur = [] -> cur = [])
    by (intros [|c0 cur0]; [reflexivity | discriminate]).
  revert y curx cur. induction txt as [|c rest IH]; intros y curx cur.
  - cbn [wrap_loop words_from]. destruct (take 1023 cur) as [|w0 word] eqn:E.
    + rewrite (Hnil _ E). reflexivity.
    + destruct cur as [|c0 cur]; [discriminate|]. rewrite <- E.
      specialize (Hword y curx (take 1023 (c0 :: cur))).
      destruct (wrap_word _ _ _ _ _) as [[y1 x1] ds1]. exact Hword.
  - cbn [wrap_loop words_from]. destruct (c =? " ").
    + destruct (take 1023 cur) as [|w0 word] eqn:E.
      * rewrite (Hnil _ E). specialize (Hspace y curx).
        destruct (wrap_space W indent y curx) as [[y1 x1] ds1].
        specialize (IH y1 x1 []). change (take 1023 []) with (@nil ascii) in IH.
        destruct (wrap_loop W indent rest y1 x1 []) as [y2 ds2].
        cbn [snd] in *. rewrite written_strings_app, Hspace, IH. reflexivity.
      * destruct cur as [|c0 cur]; [discriminate|]. rewrite <- E.
        specialize (Hword y curx (take 1023 (c0 :: cur))).
        destruct (wrap_word _ _ _ _ _) as [[y1 x1] ds1].
        specialize (Hspace y1 x1).
        destruct (wrap_space W indent y1 x1) as [[y2 x2] ds2].
        specialize (IH y2 x2 []). change (take 1023 []) with (@nil ascii) in IH.
        destruct (wrap_loop W indent rest y2 x2 []) as [y3 ds3].
        cbn [snd] in *.
        rewrite !written_strings_app, Hword, Hspace, IH. reflexivity.
    + rewrite word_push_take. apply IH.
Qed.

(** Wrapping loses no word and makes none up: the strings
    [render_wrapped_text] writes are, in order, the words of the text
    (its maximal runs of bytes other than the space), each cut to the
    1023 bytes that [word[1024]] holds. *)
Theorem wrapping_keeps_every_word (W y indent : Z) (txt : cstr) :
  written_strings (render_wrapped_text W y indent txt).2
  = map (take 1023) (words_from [] txt).
Proof.
  unfold render_wrapped_text.
  pose proof (wrap_loop_words W indent txt y indent []) as H.
  change (take 1023 []) with (@nil ascii) in H.
  destruct (wrap_loop W indent txt y indent []) as [y' ds]. exact H.
Qed.

Lemma wrap_loop_one_row (W indent : Z) (txt : cstr) (y curx : Z) (word : cstr) :
  (curx + Z.of_nat (length word) + Z.of_nat (length txt) < W)%Z ->
  length word + length txt < 1024 ->
  exists ds,
    wrap_loop W indent txt y curx word = (y, ds)
    /\ row_text y ds = word ++ txt
    /\ Forall (fun d => draw_row d = y) ds.
Proof.
  revert curx word. induction txt as [|c rest IH]; intros curx word HW Hlen.
  - cbn [wrap_loop]. destruct word as [|w0 word].
    + exists []. repeat split. constructor.
    + unfold wrap_word.
      destruct (Z.geb_spec (curx + Z.of_nat (length (w0 :: word))) W) as [H|H];
        [simpl length in *; lia|].
      eexists. split; [reflexivity|]. split.
      * rewrite row_text_str, Z.eqb_refl. cbn [row_text flat_map].
        rewrite !app_nil_r. reflexivity.
      * repeat constructor.
  - cbn [wrap_loop]. destruct (Ascii.eqb_spec c " ") as [->|Hc].
    + destruct word as [|w0 word].
      * unfold wrap_space.
        destruct (Z.geb_spec (curx + 1) W) as [H|H]; [simpl length in *; lia|].
        destruct (IH (curx + 1)%Z []) as (ds & E & Hrow & Hall);
          [simpl length in *; lia | simpl length in *; lia|].
        rewrite E. eexists. split; [reflexivity|]. split.
        -- cbn [app]. rewrite row_text_ch, Z.eqb_refl, Hrow. reflexivity.
        -- constructor; [reflexivity | exact Hall].
      * unfold wrap_word.
        destruct (Z.geb_spec (curx + Z.of_nat (length (w0 :: word))) W) as [H|H];
          [simpl length in *; lia|].
        unfold wrap_space.
        destruct (Z.geb_spec (curx + Z.of_nat (length (w0 :: word)) + 1) W)
          as [H1|H1]; [simpl length in *; lia|].
        destruct (IH (curx + Z.of_nat (length (w0 :: word)) + 1)%Z [])
          as (ds & E & Hrow & Hall);
          [simpl length in *; lia | simpl length in *; lia|].
        rewrite E. eexists. split; [reflexivity|]. split.
        -- cbn [app]. rewrite row_text_str, Z.eqb_refl.
           rewrite row_text_ch, Z.eqb_refl, Hrow.
           cbn [app]. reflexivity.
        -- constructor; [reflexivity|]. constructor; [reflexivity | exact Hall].
    + assert (Hpush : word_push word c = word ++ [c]).
      { unfold word_push. destruct (Nat.ltb_spec (length word + 1) 1024) as [H|H];
          [reflexivity | simpl length in *; lia]. }
      rewrite Hpush.
      destruct (IH curx (word ++ [c])) as (ds & E & Hrow & Hall).
      * rewrite length_app. simpl length in *. lia.
      * rewrite length_app. simpl length in *. lia.
      * exists ds. split; [exact E|]. split; [|exact Hall].
        rewrite Hrow, <- app_assoc. reflexivity.
Qed.

(** A text that fits between the indent and the width (and in
    [word[1024]]) is written as it is, on one row: the bytes written
    on row [y], in order, are the text, nothing is written elsewhere,
    no write reaches column [W], and [y] advances by one. *)
Theorem short_text_is_written_as_it_is (W y indent : Z) (txt : cstr) :
  (indent + Z.of_nat (length txt) < W)%Z ->
  length txt < 1024 ->
  exists ds,
    render_wrapped_text W y indent txt = ((y + 1)%Z, ds)
    /\ row_text y ds = txt
    /\ Forall (fun d => draw_row d = y) ds
    /\ Forall (fits_row W indent) ds.
Proof.
  intros HW Hlen.
  destruct (wrap_loop_one_row W indent txt y indent []) as (ds & E & Hrow & Hall);
    [simpl; lia | simpl; lia|].
  exists ds. unfold render_wrapped_text. rewrite E.
  split; [reflexivity|]. split; [exact Hrow|]. split; [exact Hall|].
  pose proof (wrap_loop_fits W indent txt y indent [] (Z.le_refl _)) as Hfit.
  rewrite E in Hfit. apply Hfit.
  assert (Hlw : forall t a, longest_word_from a t <= a + length t).
  { induction t as [|c t IHt]; intros a; simpl; [lia|].
    destruct (c =? " "); [specialize (IHt 0) | specialize (IHt (S a))]; lia. }
  specialize (Hlw txt (length (@nil ascii))). simpl in *. lia.
Qed.

Lemma short_text_is_written_as_it_is_witness :
  exists ds,
    render_wrapped_text 80 0 0 (lit "This is bold text.") = ((0 + 1)%Z, ds)
    /\ row_text 0 ds = lit "This is bold text."
    /\ Forall (fun d => draw_row d = 0%Z) ds
    /\ Forall (fits_row 80 0) ds.
Proof.
  apply (short_text_is_written_as_it_is 80 0 0 (lit "This is bold text."));
    simpl; lia.
Defined.

(** ** Word wrap: the wrap rule *)

Lemma wrap_word_rule (W indent y curx : Z) (w : cstr) (its : list item) :
  wrap_rule W indent (a_word w :: its) y curx
  = (let '(y1, x1, ds1) := wrap_word W indent y curx (take 1023 w) in
     let '(y', ds') := wrap_rule W indent its y1 x1 in
     (y', ds1 ++ ds')).
Proof.
  cbn [wrap_rule]. unfold wrap_word.
  destruct (Z.leb_spec W (curx + Z.of_nat (length (take 1023 w)))) as [H|H];
    destruct (Z.geb_spec (curx + Z.of_nat (length (take 1023 w))) W) as [H'|H'];
    try lia; destruct (wrap_rule _ _ _ _ _); reflexivity.
Qed.

Lemma wrap_space_rule (W indent y curx : Z) (its : list item) :
  wrap_rule W indent (a_space :: its) y curx
  = (let '(y1, x1, ds1) := wrap_space W indent y curx in
     let '(y', ds') := wrap_rule W indent its y1 x1 in
     (y', ds1 ++ ds')).
Proof.
  cbn [wrap_rule]. unfold wrap_space.
  destruct (Z.leb_spec W (curx + 1)) as [H|H];
    destruct (Z.geb_spec (curx + 1) W) as [H'|H'];
    try lia; destruct (wrap_rule _ _ _ _ _); reflexivity.
Qed.

(** The loop over the bytes does what the rule says over the items. *)
Lemma wrap_loop_rule (W indent : Z) (txt : cstr) (y curx : Z) (cur : cstr) :
  wrap_loop W indent txt y curx (take 1023 cur)
  = wrap_rule W indent (items_from cur txt) y curx.
Proof.
  revert y curx cur. induction txt as [|c rest IH]; intros y curx cur.
  - cbn [wrap_loop items_from]. destruct cur as [|c0 cur]; [reflexivity|].
    rewrite wrap_word_rule.
    change (take 1023 (c0 :: cur)) with (c0 :: take 1022 cur).
    destruct (wrap_word W indent y curx (c0 :: take 1022 cur)) as [[y1 x1] ds1].
    cbn [wrap_rule]. rewrite app_nil_r. reflexivity.
  - cbn [wrap_loop items_from]. destruct (c =? " ").
    + destruct cur as [|c0 cur].
      * rewrite wrap_space_rule. change (take 1023 []) with (@nil ascii).
        cbv iota. destruct (wrap_space W indent y curx) as [[y1 x1] ds1].
        rewrite <- IH. reflexivity.
      * rewrite wrap_word_rule.
        change (take 1023 (c0 :: cur)) with (c0 :: take 1022 cur).
        cbv iota.
        destruct (wrap_word W indent y curx (c0 :: take 1022 cur)) as [[y1 x1] ds1].
        rewrite wrap_space_rule.
        destruct (wrap_space W indent y1 x1) as [[y2 x2] ds2].
        rewrite <- IH. change (take 1023 []) with (@nil ascii).
        destruct (wrap_loop W indent rest y2 x2 []) as [y3 ds3].
        rewrite app_assoc. reflexivity.
    + rewrite word_push_take. apply IH.
Qed.

Lemma word_push_length (word : cstr) (c : ascii) (cur : nat) :
  length word = Nat.min 1023 cur ->
  length (word_push word c) = Nat.min 1023 (S cur).
Proof.
  intros H. unfold word_push.
  destruct (Nat.ltb_spec (length word + 1) 1024) as [Hlt|Hge];
    [rewrite length_app; cbn [length]|]; lia.
Qed.

(** Every write lies within the width when no word, cut to the 1023
    bytes kept, is longer than the room after the indent. *)
Lemma wrap_loop_within (W indent : Z) (txt : cstr) (y curx : Z)
    (word : cstr) (cur : nat) :
  (indent <= curx)%Z ->
  length word = Nat.min 1023 cur ->
  longest_word_from cur txt = 0
  \/ (indent + Z.of_nat (Nat.min 1023 (longest_word_from cur txt)) <= W)%Z ->
  Forall (within_width W indent) (wrap_loop W indent txt y curx word).2.
Proof.
  revert y curx word cur.
  induction txt as [|c rest IH]; intros y curx word cur Hcur Hlen Hfit.
  - cbn [wrap_loop longest_word_from] in *.
    destruct word as [|w0 word]; [constructor|].
    unfold wrap_word.
    destruct (Z.geb_spec (curx + Z.of_nat (length (w0 :: word))) W);
      repeat constructor; simpl draw_col; simpl draw_width;
      simpl length in *; lia.
  - cbn [wrap_loop longest_word_from] in *. destruct (c =? " ").
    + assert (Hrest : longest_word_from 0 rest = 0
                      \/ (indent + Z.of_nat (Nat.min 1023 (longest_word_from 0 rest))
                          <= W)%Z) by lia.
      assert (Hsp : forall y0 x0, (indent <= x0)%Z ->
                 Forall (within_width W indent)
                   (let '(y1, x1, ds1) := wrap_space W indent y0 x0 in
                    let '(y', ds') := wrap_loop W indent rest y1 x1 [] in
                    (y', ds1 ++ ds')).2).
      { intros y0 x0 Hx0. unfold wrap_space.
        destruct (Z.geb_spec (x0 + 1) W).
        - specialize (IH (y0 + 1)%Z indent [] 0 ltac:(lia) eq_refl Hrest).
          destruct (wrap_loop W indent rest (y0 + 1) indent []). exact IH.
        - specialize (IH y0 (x0 + 1)%Z [] 0 ltac:(lia) eq_refl Hrest).
          destruct (wrap_loop W indent rest y0 (x0 + 1) []).
          constructor; [split; simpl; lia | exact IH]. }
      destruct word as [|w0 word].
      * specialize (Hsp y curx Hcur).
        destruct (wrap_space W indent y curx) as [[y1 x1] ds1].
        destruct (wrap_loop W indent rest y1 x1 []). exact Hsp.
      * unfold wrap_word.
        destruct (Z.geb_spec (curx + Z.of_nat (length (w0 :: word))) W).
        -- specialize (Hsp (y + 1)%Z (indent + Z.of_nat (length (w0 :: word)))%Z
                         ltac:(lia)).
           destruct (wrap_space W indent _ _) as [[y1 x1] ds1].
           destruct (wrap_loop W indent rest y1 x1 []).
           constructor; [split; simpl draw_col; simpl draw_width;
                         simpl length in *; lia | exact Hsp].
        -- specialize (Hsp y (curx + Z.of_nat (length (w0 :: word)))%Z ltac:(lia)).
           destruct (wrap_space W indent _ _) as [[y1 x1] ds1].
           destruct (wrap_loop W indent rest y1 x1 []).
           constructor; [split; simpl draw_col; simpl draw_width;
                         simpl length in *; lia | exact Hsp].
    + apply (IH y curx (word_push word c) (S cur) Hcur);
        [apply word_push_length; exact Hlen | exact Hfit].
Qed.

(** A word longer than that room is written whole: its write ends
    past column [W]. *)
Lemma wrap_loop_exceeds (W indent : Z) (txt : cstr) (y curx : Z)
    (word : cstr) (cur : nat) :
  (indent <= curx)%Z ->
  length word = Nat.min 1023 cur ->
  0 < longest_word_from cur txt ->
  (W < indent + Z.of_nat (Nat.min 1023 (longest_word_from cur txt)))%Z ->
  Exists (fun d => (W < draw_col d + draw_width d)%Z)
         (wrap_loop W indent txt y curx word).2.
Proof.
  revert y curx word cur.
  induction txt as [|c rest IH]; intros y curx word cur Hcur Hlen Hpos Hlong.
  - cbn [wrap_loop longest_word_from] in *.
    destruct word as [|w0 word]; [cbn [length] in Hlen; lia|].
    unfold wrap_word.
    destruct (Z.geb_spec (curx + Z.of_nat (length (w0 :: word))) W);
      constructor; simpl draw_col; simpl draw_width; simpl length in *; lia.
  - cbn [wrap_loop longest_word_from] in *. destruct (c =? " ").
    + assert (Hsp : forall y0 x0, (indent <= x0)%Z ->
                 0 < longest_word_from 0 rest ->
                 (W < indent + Z.of_nat (Nat.min 1023 (longest_word_from 0 rest)))%Z ->
                 Exists (fun d => (W < draw_col d + draw_width d)%Z)
                   (let '(y1, x1, ds1) := wrap_space W indent y0 x0 in
                    let '(y', ds') := wrap_loop W indent rest y1 x1 [] in
                    (y', ds1 ++ ds')).2).
      { intros y0 x0 Hx0 Hp Hl. unfold wrap_space.
        destruct (Z.geb_spec (x0 + 1) W).
        - specialize (IH (y0 + 1)%Z indent [] 0 ltac:(lia) eq_refl Hp Hl).
          destruct (wrap_loop W indent rest (y0 + 1) indent []). exact IH.
        - specialize (IH y0 (x0 + 1)%Z [] 0 ltac:(lia) eq_refl Hp Hl).
          destruct (wrap_loop W indent rest y0 (x0 + 1) []).
          apply Exists_cons_tl. exact IH. }
      destruct word as [|w0 word].
      * cbn [length] in Hlen.
        assert (cur = 0) by lia. subst cur.
        specialize (Hsp y curx Hcur ltac:(lia) ltac:(lia)).
        destruct (wrap_space W indent y curx) as [[y1 x1] ds1].
        destruct (wrap_loop W indent rest y1 x1 []). exact Hsp.
      * assert (Hdec : (W < indent + Z.of_nat (length (w0 :: word)))%Z
                       \/ (0 < longest_word_from 0 rest
                           /\ (W < indent + Z.of_nat (Nat.min 1023
                                      (longest_word_from 0 rest)))%Z)).
        { simpl length in *. lia. }
        unfold wrap_word.
        destruct (Z.geb_spec (curx + Z.of_nat (length (w0 :: word))) W).
        -- destruct Hdec as [Hw | [Hp Hl]].
           ++ destruct (wrap_space W indent _ _) as [[y1 x1] ds1].
              destruct (wrap_loop W indent rest y1 x1 []).
              constructor. cbn [draw_col draw_width length] in *. lia.
           ++ specialize (Hsp (y + 1)%Z (indent + Z.of_nat (length (w0 :: word)))%Z
                            ltac:(lia) Hp Hl).
              destruct (wrap_space W indent _ _) as [[y1 x1] ds1].
              destruct (wrap_loop W indent rest y1 x1 []).
              apply Exists_cons_tl. exact Hsp.
        -- destruct Hdec as [Hw | [Hp Hl]]; [lia|].
           specialize (Hsp y (curx + Z.of_nat (length (w0 :: word)))%Z
                         ltac:(lia) Hp Hl).
           destruct (wrap_space W indent _ _) as [[y1 x1] ds1].
           destruct (wrap_loop W indent rest y1 x1 []).
           apply Exists_cons_tl. exact Hsp.
    + apply (IH y curx (word_push word c) (S cur) Hcur);
        [apply word_push_length; exact Hlen | exact Hpos | exact Hlong].
Qed.

(** C2, as amended.  The routine does what the wrap rule says over the
    words and spaces of the text: a completed word whose placement
    would make col + length reach or exceed W is put on the next row,
    starting at the indent, and an inter-word space that does not fit
    is not written, the row advances instead.  Every write starts at
    or after the indent and ends at or before column W - 1 exactly
    when the text has no word or its longest word, cut to the 1023
    bytes the routine keeps, has at most W - indent bytes; a longer
    word is written whole, past column W. *)
Theorem wrapped_words_fit (W y indent : Z) (txt : cstr) :
  render_wrapped_text W y indent txt
  = (let '(y', ds) := wrap_rule W indent (items_from [] txt) y indent in
     ((y' + 1)%Z, ds))
  /\ (Forall (within_width W indent) (render_wrapped_text W y indent txt).2
      <-> longest_word txt = 0
          \/ (indent + Z.of_nat (Nat.min 1023 (longest_word txt)) <= W)%Z).
Proof.
  split.
  - unfold render_wrapped_text.
    rewrite <- wrap_loop_rule. reflexivity.
  - unfold render_wrapped_text, longest_word.
    pose proof (wrap_loop_within W indent txt y indent [] 0 (Z.le_refl _) eq_refl)
      as Hin.
    pose proof (wrap_loop_exceeds W indent txt y indent [] 0 (Z.le_refl _) eq_refl)
      as Hout.
    destruct (wrap_loop W indent txt y indent []) as [y' ds]. cbn [snd] in *.
    split; [|exact Hin].
    intros Hall.
    destruct (Nat.eq_dec (longest_word_from 0 txt) 0) as [Hz|Hnz]; [left; exact Hz|].
    right.
    destruct (Z_le_gt_dec (indent + Z.of_nat (Nat.min 1023 (longest_word_from 0 txt))) W)
      as [Hle|Hgt]; [exact Hle|].
    exfalso. specialize (Hout ltac:(lia) ltac:(lia)).
    apply Exists_exists in Hout as (d & Hd & Hex).
    rewrite Forall_forall in Hall. destruct (Hall d Hd) as [_ Hw]. lia.
Qed.

(** At width 20 and indent 2 the 18-byte word fills the columns 2 to
    19 of its row, and the space after it starts a new row. *)
Lemma wrapped_words_fit_witness :
  render_wrapped_text 20 0 2 (lit "see abcdefghijklmnopqr now")
  = (let '(y', ds) :=
       wrap_rule 20 2 (items_from [] (lit "see abcdefghijklmnopqr now")) 0 2 in
     ((y' + 1)%Z, ds))
  /\ render_wrapped_text 20 0 2 (lit "see abcdefghijklmnopqr now")
     = (3%Z, [mvwaddstr 0 2 (lit "see"); mvwaddch 0 5 " ";
              mvwaddstr 1 2 (lit "abcdefghijklmnopqr");
              mvwaddstr 2 2 (lit "now")])
  /\ Forall (within_width 20 2)
            (render_wrapped_text 20 0 2 (lit "see abcdefghijklmnopqr now")).2.
Proof.
  pose proof (wrapped_words_fit 20 0 2 (lit "see abcdefghijklmnopqr now"))
    as [Hrule Hfit].
  split; [exact Hrule|]. split; [reflexivity|].
  apply Hfit. right. vm_compute. discriminate.
Defined.

(** C2 as stated fails at width 20 on "see abcdefghijklmnopqrstuvwxyz":
    the 26-byte word is moved to a new row and written there whole by
    one call, from column 0 to column 25. *)
Lemma long_word_exceeds_width :
  render_wrapped_text 20 0 0 (lit "see abcdefghijklmnopqrstuvwxyz")
  = (2%Z, [mvwaddstr 0 0 (lit "see"); mvwaddch 0 3 " ";
           mvwaddstr 1 0 (lit "abcdefghijklmnopqrstuvwxyz")])
  /\ (draw_col (mvwaddstr 1 0 (lit "abcdefghijklmnopqrstuvwxyz"))
      + draw_width (mvwaddstr 1 0 (lit "abcdefghijklmnopqrstuvwxyz")) = 26)%Z.
Proof. split; reflexivity. Qed.

(** ** Code blocks *)

Lemma length_fitted (w : Z) (ln : cstr) :
  (0 <= w)%Z -> length (fitted w ln) = Z.to_nat w.
Proof.
  intros Hw. unfold fitted. destruct (Z.gtb_spec (Z.of_nat (length ln)) w).
  - rewrite length_take. lia.
  - rewrite length_app, repeat_length. lia.
Qed.

Lemma strtok_lines_tokens (cur text : cstr) :
  Forall (fun c => c <> "010") cur ->
  Forall (fun ln => ln <> [] /\ Forall (fun c => c <> "010") ln)
         (strtok_lines cur text).
Proof.
  revert cur. induction text as [|c text IH]; intros cur Hcur; simpl.
  - destruct cur; [constructor|]. constructor; [|constructor].
    split; [discriminate | exact Hcur].
  - destruct (Ascii.eqb_spec c "010") as [->|Hc].
    + destruct cur as [|c0 cur].
      * apply IH. constructor.
      * constructor; [split; [discriminate | exact Hcur]|]. apply IH. constructor.
    + apply IH. apply Forall_app. split; [exact Hcur|]. constructor; [exact Hc | constructor].
Qed.

Lemma code_line_text (y boxw : Z) (ln : cstr) :
  (boxw < 1024)%Z ->
  exists ds, code_line y boxw ln = Some ds
             /\ forall y0, row_text y0 ds
                           = if (y =? y0)%Z then lit "| " ++ fitted boxw ln ++ lit " |"
                             else [].
Proof.
  intros Hb. unfold code_line, fitted.
  apply Z.ltb_lt in Hb. rewrite Hb.
  destruct (_ >? _)%Z; eexists; (split; [reflexivity|]); intros y0;
    rewrite !row_text_str; destruct (y =? y0)%Z; simpl; 
    rewrite ?app_nil_r; try reflexivity.
  rewrite <- app_assoc. reflexivity.
Qed.

Lemma code_lines_text (y boxw : Z) (lines : list cstr) :
  (boxw < 1024)%Z ->
  exists ds,
    code_lines y boxw lines = Some ((y + Z.of_nat (length lines))%Z, ds)
    /\ (forall y0, (y0 < y \/ y + Z.of_nat (length lines) <= y0)%Z ->
                   row_text y0 ds = [])
    /\ (forall i ln, lines !! i = Some ln ->
          row_text (y + Z.of_nat i) ds = lit "| " ++ fitted boxw ln ++ lit " |").
Proof.
  intros Hb. revert y. induction lines as [|ln lines IH]; intros y.
  - exists []. simpl. split; [f_equal; f_equal; lia|]. split; [reflexivity|].
    intros i l Hl. discriminate.
  - destruct (code_line_text y boxw ln Hb) as (d0 & E0 & H0).
    destruct (IH (y + 1)%Z) as (ds & E1 & Hout & Hin).
    exists (d0 ++ ds). cbn [code_lines]. rewrite E0, E1. split.
    { f_equal. f_equal. simpl length. lia. }
    split.
    + intros y0 Hy0. rewrite row_text_app, H0, Hout by (simpl length in Hy0; lia).
      destruct (Z.eqb_spec y y0); [simpl length in Hy0; lia | reflexivity].
    + intros [|i] l Hl.
      * injection Hl as <-. rewrite row_text_app, H0, Hout by lia.
        replace (y + Z.of_nat 0)%Z with y by lia. rewrite Z.eqb_refl, app_nil_r.
        reflexivity.
      * rewrite row_text_app, H0.
        destruct (Z.eqb_spec y (y + Z.of_nat (S i))); [lia|].
        replace (y + Z.of_nat (S i))%Z with (y + 1 + Z.of_nat i)%Z by lia.
        apply Hin. exact Hl.
Qed.

(** The box of [render_code_block] on a terminal of fewer than 1028
    columns: the box is [boxw = max(10, W - 4)] wide inside; the lines
    drawn are the non-empty lines of the text (empty lines vanish);
    the first and the last row are the border, [boxw + 2] bytes; each
    line is a row of its own, "| ", the line cut or padded to [boxw]
    bytes, " |": [boxw + 4] bytes, two more than the border. *)
Theorem code_block_layout (W y : Z) (text : cstr) :
  (W < 1028)%Z ->
  let boxw := code_box_width W in
  let lines := strtok_lines [] text in
  (10 <= boxw)%Z
  /\ Forall (fun ln => ln <> [] /\ Forall (fun c => c <> "010") ln) lines
  /\ exists ds,
       render_code_block W y (Some text)
       = Some ((y + 2 + Z.of_nat (length lines))%Z, ds)
       /\ row_text y ds = box_border boxw
       /\ row_text (y + 1 + Z.of_nat (length lines)) ds = box_border boxw
       /\ length (box_border boxw) = Z.to_nat boxw + 2
       /\ forall i ln, lines !! i = Some ln ->
            row_text (y + 1 + Z.of_nat i) ds
            = lit "| " ++ fitted boxw ln ++ lit " |"
            /\ length (row_text (y + 1 + Z.of_nat i) ds) = Z.to_nat boxw + 4.
Proof.
  intros HW boxw lines.
  assert (Hb : (10 <= boxw < 1024)%Z).
  { subst boxw. unfold code_box_width. destruct (Z.ltb_spec (W - 4) 10); lia. }
  split; [lia|]. split; [apply strtok_lines_tokens; constructor|].
  destruct (code_lines_text (y + 1) boxw lines ltac:(lia)) as (ds & E & Hout & Hin).
  exists (code_border y boxw :: ds
          ++ [code_border (y + 1 + Z.of_nat (length lines)) boxw]).
  split.
  { unfold render_code_block. fold boxw. fold lines. rewrite E.
    f_equal. f_equal. lia. }
  unfold code_border. fold (box_border boxw).
  split; [|split; [|split]].
  - rewrite row_text_str, Z.eqb_refl, row_text_app, Hout by lia.
    rewrite row_text_str.
    destruct (Z.eqb_spec (y + 1 + Z.of_nat (length lines)) y); [lia|].
    simpl. rewrite app_nil_r. reflexivity.
  - rewrite row_text_str.
    destruct (Z.eqb_spec y (y + 1 + Z.of_nat (length lines))); [lia|].
    rewrite row_text_app, Hout by lia.
    rewrite row_text_str, Z.eqb_refl. simpl. rewrite app_nil_r. reflexivity.
  - unfold box_border. simpl. rewrite length_app, repeat_length. simpl. lia.
  - intros i ln Hi. pose proof (lookup_lt_Some _ _ _ Hi) as Hlt.
    assert (Hrow : row_text (y + 1 + Z.of_nat i)
                     (mvwaddstr y 0 (box_border boxw)
                      :: ds ++ [mvwaddstr (y + 1 + Z.of_nat (length lines)) 0
                                          (box_border boxw)])
                   = lit "| " ++ fitted boxw ln ++ lit " |").
    { rewrite row_text_str.
      destruct (Z.eqb_spec y (y + 1 + Z.of_nat i)); [lia|].
      rewrite row_text_app, (Hin i ln Hi), row_text_str.
      destruct (Z.eqb_spec (y + 1 + Z.of_nat (length lines)) (y + 1 + Z.of_nat i));
        [lia|].
      simpl. rewrite app_nil_r. reflexivity. }
    split; [exact Hrow|]. rewrite Hrow.
    rewrite !length_app, length_fitted by lia. simpl. lia.
Qed.

Lemma code_block_layout_witness :
  (10 <= code_box_width 40)%Z
  /\ Forall (fun ln => ln <> [] /\ Forall (fun c => c <> "010") ln)
            (strtok_lines [] ["a"; "010"; "010"; "b"])
  /\ exists ds,
       render_code_block 40 0 (Some ["a"; "010"; "010"; "b"])
       = Some ((0 + 2 + Z.of_nat (length (strtok_lines [] ["a"; "010"; "010"; "b"])))%Z, ds)
       /\ row_text 0 ds = box_border (code_box_width 40)
       /\ row_text (0 + 1 + Z.of_nat (length (strtok_lines [] ["a"; "010"; "010"; "b"]))) ds
          = box_border (code_box_width 40)
       /\ length (box_border (code_box_width 40))
          = Z.to_nat (code_box_width 40) + 2
       /\ forall i ln, strtok_lines [] ["a"; "010"; "010"; "b"] !! i = Some ln ->
            row_text (0 + 1 + Z.of_nat i) ds
            = lit "| " ++ fitted (code_box_width 40) ln ++ lit " |"
            /\ length (row_text (0 + 1 + Z.of_nat i) ds)
               = Z.to_nat (code_box_width 40) + 4.
Proof.
  apply (code_block_layout 40 0 ["a"; "010"; "010"; "b"]). lia.
Defined.

(** ** Rendering the tree *)

Lemma same_shape_refl (h : heap) : same_shape h h.
Proof. split; [reflexivity|]. intros j. repeat split. Qed.

Lemma same_shape_trans (h1 h2 h3 : heap) :
  same_shape h1 h2 -> same_shape h2 h3 -> same_shape h1 h3.
Proof.
  intros [L1 F1] [L2 F2]. split; [congruence|]. intros j.
  destruct (F1 j) as (?&?&?&?&?&?), (F2 j) as (?&?&?&?&?&?).
  repeat split; congruence.
Qed.

Lemma same_shape_list_number (h : heap) (k : Z) (li : ptr) :
  same_shape h (alter (with_list_number k) li h).
Proof.
  split; [apply length_alter|]. intros j.
  rewrite !list_lookup_total_alt, list_lookup_alter.
  destruct (decide (li = j)) as [->|]; [|repeat split].
  destruct (h !! j); repeat split.
Qed.

Lemma kids_after_shape (h h' : heap) :
  same_shape h h' -> kids_after h -> kids_after h'.
Proof.
  intros [L F] K p c Hc. destruct (F p) as (_&_&_&Hch&_).
  rewrite Hch in Hc. rewrite L. apply K. exact Hc.
Qed.

Lemma tree_wf_kids_after (h : heap) : tree_wf h -> kids_after h.
Proof.
  intros (_ & _ & Hch & _) p c Hc.
  destruct (Nat.lt_ge_cases p (length h)) as [Hp|Hp].
  - apply Hch in Hc; [tauto | exact Hp].
  - rewrite list_lookup_total_alt, lookup_ge_None_2 in Hc by lia. destruct Hc.
Qed.

Lemma rows_within_widen (y0 y y' y1 : Z) (ds : list draw) :
  (y0 <= y)%Z -> (y' <= y1)%Z -> rows_within y y' ds -> rows_within y0 y1 ds.
Proof.
  intros H0 H1 [Hle Hall]. split; [lia|].
  eapply Forall_impl; [exact Hall|]. simpl. intros; lia.
Qed.

Lemma rows_within_app (y y' y'' : Z) (ds ds' : list draw) :
  rows_within y y' ds -> rows_within y' y'' ds' -> rows_within y y'' (ds ++ ds').
Proof.
  intros H1 H2. pose proof H1 as [L1 _]. pose proof H2 as [L2 _].
  split; [lia|]. apply Forall_app. split.
  - apply (rows_within_widen y y y' y'') in H1; [apply H1 | lia | lia].
  - apply (rows_within_widen y y' y'' y'') in H2; [apply H2 | lia | lia].
Qed.

(** The second part of a sequence may write on the rows of the first. *)
Lemma then_render_back (U : Prop) (h : heap) (y : Z) (r : render_result)
    (k : heap -> Z -> render_result) :
  renders_within U h y r ->
  (forall h1 y1, same_shape h h1 -> (y <= y1)%Z ->
     match k h1 y1 with
     | Rendered h2 y2 ds =>
         (y1 <= y2)%Z /\ Forall (fun d => (y <= draw_row d < y2)%Z) ds
         /\ same_shape h1 h2
     | RenderUndefined => U
     | RenderOutOfFuel => False
     end) ->
  renders_within U h y (then_render r k).
Proof.
  destruct r as [h1 y1 ds| |]; simpl; auto.
  intros [[Hle Hall] Hshape] Hk. specialize (Hk h1 y1 Hshape Hle).
  destruct (k h1 y1) as [h2 y2 ds'| |]; simpl in *; auto.
  destruct Hk as (Hle' & Hall' & Hshape'). split.
  - split; [lia|]. apply Forall_app. split; [|exact Hall'].
    eapply Forall_impl; [exact Hall|]. simpl. intros; lia.
  - eapply same_shape_trans; eassumption.
Qed.

Lemma then_render_within (U : Prop) (h : heap) (y : Z) (r : render_result)
    (k : heap -> Z -> render_result) :
  renders_within U h y r ->
  (forall h1 y1, same_shape h h1 -> (y <= y1)%Z -> renders_within U h1 y1 (k h1 y1)) ->
  renders_within U h y (then_render r k).
Proof.
  intros Hr Hk. apply (then_render_back U); [exact Hr|].
  intros h1 y1 Hs Hle. specialize (Hk h1 y1 Hs Hle).
  destruct (k h1 y1) as [h2 y2 ds'| |]; simpl in *; auto.
  destruct Hk as [[Hle' Hall] Hs']. split; [exact Hle'|]. split; [|exact Hs'].
  eapply Forall_impl; [exact Hall|]. simpl. intros; lia.
Qed.

Lemma rendered_within (U : Prop) (h : heap) (y y' : Z) (ds : list draw) :
  rows_within y y' ds -> renders_within U h y (Rendered h y' ds).
Proof. intros H. split; [exact H | apply same_shape_refl]. Qed.

Lemma one_line_within (U : Prop) (h : heap) (y indent : Z) (s : cstr) :
  renders_within U h y (one_line h y indent s).
Proof.
  apply (rendered_within U). split; [lia|]. repeat constructor; simpl; lia.
Qed.

Lemma put_run_rows (y x : Z) (c : ascii) (k : nat) :
  Forall (fun d => draw_row d = y) (put_run y x c k).
Proof.
  revert x. induction k as [|k IH]; intros x; simpl; constructor; auto.
Qed.

Lemma wrap_loop_rows (W indent : Z) (txt : cstr) (y curx : Z) (word : cstr)
    (y' : Z) (ds : list draw) :
  wrap_loop W indent txt y curx word = (y', ds) ->
  (y <= y')%Z /\ Forall (fun d => (y <= draw_row d <= y')%Z) ds.
Proof.
  revert y curx word y' ds.
  assert (Hword : forall y curx word y1 x1 ds1,
             wrap_word W indent y curx word = (y1, x1, ds1) ->
             (y <= y1)%Z /\ Forall (fun d => draw_row d = y1) ds1).
  { intros y curx word y1 x1 ds1. unfold wrap_word.
    destruct (_ >=? _)%Z; intros [= <- <- <-]; split; try lia;
      repeat constructor. }
  assert (Hspace : forall y curx y1 x1 ds1,
             wrap_space W indent y curx = (y1, x1, ds1) ->
             (y <= y1)%Z /\ Forall (fun d => draw_row d = y) ds1).
  { intros y curx y1 x1 ds1. unfold wrap_space.
    destruct (_ >=? _)%Z; intros [= <- <- <-]; split; try lia;
      repeat constructor. }
  induction txt as [|c rest IH]; intros y curx word y' ds.
  - simpl. destruct word as [|w0 word].
    + intros [= <- <-]. split; [lia | constructor].
    + destruct (wrap_word W indent y curx (w0 :: word)) as [[y1 x1] ds1] eqn:E.
      intros [= <- <-]. destruct (Hword _ _ _ _ _ _ E) as [H1 H2].
      split; [exact H1|]. eapply Forall_impl; [exact H2|]. simpl. intros; lia.
  - cbn [wrap_loop]. destruct (c =? " ").
    + destruct word as [|w0 word].
      * destruct (wrap_space W indent y curx) as [[y1 x1] ds1] eqn:E1.
        destruct (wrap_loop W indent rest y1 x1 []) as [y2 ds2] eqn:E2.
        intros [= <- <-]. destruct (Hspace _ _ _ _ _ E1) as [H1 H2].
        destruct (IH _ _ _ _ _ E2) as [H3 H4]. split; [lia|].
        apply Forall_app. split.
        -- eapply Forall_impl; [exact H2|]. simpl. intros; lia.
        -- eapply Forall_impl; [exact H4|]. simpl. intros; lia.
      * destruct (wrap_word W indent y curx (w0 :: word)) as [[y0 x0] ds0] eqn:E0.
        destruct (wrap_space W indent y0 x0) as [[y1 x1] ds1] eqn:E1.
        destruct (wrap_loop W indent rest y1 x1 []) as [y2 ds2] eqn:E2.
        intros [= <- <-]. destruct (Hword _ _ _ _ _ _ E0) as [H01 H02].
        destruct (Hspace _ _ _ _ _ E1) as [H1 H2].
        destruct (IH _ _ _ _ _ E2) as [H3 H4]. split; [lia|].
        apply Forall_app. split; [|apply Forall_app; split].
        -- eapply Forall_impl; [exact H02|]. simpl. intros; lia.
        -- eapply Forall_impl; [exact H2|]. simpl. intros; lia.
        -- eapply Forall_impl; [exact H4|]. simpl. intros; lia.
    + apply IH.
Qed.

Lemma render_wrapped_text_rows (W y indent : Z) (txt : cstr) (y' : Z)
    (ds : list draw) :
  render_wrapped_text W y indent txt = (y', ds) ->
  rows_within y y' ds /\ (y < y')%Z.
Proof.
  unfold render_wrapped_text.
  destruct (wrap_loop W indent txt y indent []) as [y1 ds1] eqn:E.
  intros [= <- <-]. destruct (wrap_loop_rows _ _ _ _ _ _ _ _ E) as [H1 H2].
  split; [|lia]. split; [lia|].
  eapply Forall_impl; [exact H2|]. simpl. intros; lia.
Qed.

Lemma border_cols_rows (y x : Z) (colw : list Z) :
  Forall (fun d => draw_row d = y) (border_cols y x colw).
Proof.
  revert x. induction colw as [|w colw IH]; intros x; simpl; [constructor|].
  apply Forall_app. split; [apply put_run_rows|]. constructor; [reflexivity | apply IH].
Qed.

Lemma border_row_rows (y : Z) (colw : list Z) :
  Forall (fun d => draw_row d = y) (border_row y colw).
Proof. constructor; [reflexivity | apply border_cols_rows]. Qed.

Lemma data_cols_rows (y x : Z) (row : list (option cstr)) (c : nat)
    (colw : list Z) (ds : list draw) :
  data_cols y x row c colw = Some ds -> Forall (fun d => draw_row d = y) ds.
Proof.
  revert x c ds. induction colw as [|w colw IH]; intros x c ds; simpl.
  - intros [= <-]. constructor.
  - destruct (row !! c) as [cell|]; [|discriminate].
    destruct (data_cols y _ row (S c) colw) as [ds'|] eqn:E; [|discriminate].
    intros [= <-]. constructor; [reflexivity|]. apply Forall_app. split.
    + destruct cell; [repeat constructor | apply put_run_rows].
    + constructor; [reflexivity|]. constructor; [reflexivity|]. eapply IH. exact E.
Qed.

Lemma table_rows_rows (y : Z) (cells : list (list (option cstr)))
    (colw : list Z) (y' : Z) (ds : list draw) :
  table_rows y cells colw = Some (y', ds) -> rows_within y y' ds.
Proof.
  revert y y' ds. induction cells as [|row cells IH]; intros y y' ds; simpl.
  - intros [= <- <-]. split; [lia | constructor].
  - unfold data_row. destruct (data_cols y 1 row 0 colw) as [d0|] eqn:E0; [|discriminate].
    destruct (table_rows (y + 2) cells colw) as [[y1 ds1]|] eqn:E1; [|discriminate].
    intros [= <- <-]. destruct (IH _ _ _ E1) as [H1 H2]. split; [lia|].
    change (Forall (fun d => (y <= draw_row d < y1)%Z)
              ((mvwaddch y 0 "|" :: d0) ++ border_row (y + 1) colw ++ ds1)).
    apply Forall_app. split.
    + constructor; [simpl; lia|].
      eapply Forall_impl; [eapply data_cols_rows; exact E0|]. simpl. intros; lia.
    + apply Forall_app. split.
      * eapply Forall_impl; [apply border_row_rows|]. simpl. intros; lia.
      * eapply Forall_impl; [exact H2|]. simpl. intros; lia.
Qed.

Lemma render_table_node_rows (y : Z) (h : heap) (table : ptr) (y' : Z)
    (ds : list draw) :
  render_table_node y h table = Some (y', ds) -> rows_within y y' ds.
Proof.
  unfold render_table_node, render_cells.
  destruct (table_cells h table) as [|row cells].
  - intros [= <- <-]. split; [lia | constructor].
  - destruct (col_widths _ _) as [colw|]; [|discriminate].
    destruct (table_rows (y + 1) (row :: cells) colw) as [[y1 ds1]|] eqn:E;
      [|discriminate].
    intros [= <- <-]. destruct (table_rows_rows _ _ _ _ _ E) as [H1 H2].
    split; [lia|].
    change (Forall (fun d => (y <= draw_row d < y1)%Z) (border_row y colw ++ ds1)).
    apply Forall_app. split.
    + eapply Forall_impl; [apply border_row_rows|]. simpl. intros; lia.
    + eapply Forall_impl; [exact H2|]. simpl. intros; lia.
Qed.

Lemma code_lines_rows (y boxw : Z) (lines : list cstr) (y' : Z) (ds : list draw) :
  code_lines y boxw lines = Some (y', ds) ->
  y' = (y + Z.of_nat (length lines))%Z /\ rows_within y y' ds.
Proof.
  revert y y' ds. induction lines as [|ln lines IH]; intros y y' ds; simpl.
  - intros [= <- <-]. split; [lia|]. split; [lia | constructor].
  - destruct (code_line y boxw ln) as [d0|] eqn:E0; [|discriminate].
    destruct (code_lines (y + 1) boxw lines) as [[y1 ds1]|] eqn:E1; [|discriminate].
    intros [= <- <-]. destruct (IH _ _ _ E1) as (-> & H1 & H2).
    split; [lia|]. split; [lia|]. apply Forall_app. split.
    + unfold code_line in E0.
      destruct (_ >? _)%Z; [destruct (_ <? _)%Z; [|discriminate]|];
        injection E0 as <-; repeat constructor; simpl; lia.
    + eapply Forall_impl; [exact H2|]. simpl. intros; lia.
Qed.

Lemma render_code_block_rows (W y : Z) (text : option cstr) (y' : Z)
    (ds : list draw) :
  render_code_block W y text = Some (y', ds) -> rows_within y y' ds.
Proof.
  unfold render_code_block.
  destruct (code_lines (y + 1) _ _) as [[y1 ds1]|] eqn:E; [|discriminate].
  intros [= <- <-]. destruct (code_lines_rows _ _ _ _ _ E) as (-> & H1 & H2).
  split; [lia|]. constructor; [simpl; lia|]. apply Forall_app. split.
  - eapply Forall_impl; [exact H2|]. simpl. intros; lia.
  - repeat constructor; simpl; lia.
Qed.

Lemma renderable_shape (U : Prop) (W : Z) (h h' : heap) :
  same_shape h h' -> renderable U W h -> renderable U W h'.
Proof.
  intros Hs [Hk (H1 & H2 & H3)]. split; [eapply kids_after_shape; eassumption|].
  destruct Hs as [_ F]. split; [exact H1|]. split.
  - intros j Hj. destruct (F j) as (Ht & _). rewrite Ht in Hj. eauto.
  - intros j Hj Htx. destruct (F j) as (Ht & Hx & _). rewrite Ht in Hj.
    rewrite Hx in Htx. eauto.
Qed.

Lemma code_lines_none (y boxw : Z) (lines : list cstr) :
  code_lines y boxw lines = None -> (1024 <= boxw)%Z.
Proof.
  revert y. induction lines as [|ln lines IH]; intros y; simpl; [discriminate|].
  destruct (code_line y boxw ln) as [d0|] eqn:E0.
  - destruct (code_lines (y + 1) boxw lines) as [[y1 ds1]|] eqn:E1; [discriminate|].
    intros _. eapply IH. exact E1.
  - intros _. unfold code_line in E0. destruct (_ >? _)%Z; [|discriminate].
    destruct (boxw <? 1024)%Z eqn:E; [discriminate|]. apply Z.ltb_ge in E. exact E.
Qed.

Lemma render_code_block_none (W y : Z) (text : option cstr) :
  render_code_block W y text = None -> (1028 <= W)%Z.
Proof.
  unfold render_code_block.
  destruct (code_lines _ _ _) as [[y1 ds1]|] eqn:E; [discriminate|].
  intros _. apply code_lines_none in E. unfold code_box_width in E.
  destruct (W - 4 <? 10)%Z; lia.
Qed.

Section ChildLoops.

Variable U : Prop.

Variable W : Z.

Variable rec : heap -> ptr -> Z -> Z -> render_result.

Variables L lo : nat.

Hypothesis Hrec : rec_ok U W rec L lo.

Lemma render_each_within (cs : list ptr) (indent : Z) (h : heap) (y : Z) :
  renderable U W h -> length h = L -> Forall (fun c => lo < c < L) cs ->
  renders_within U h y (render_each rec cs indent h y).
Proof.
  revert h y. induction cs as [|c cs IH]; intros h y Hk HL Hcs; simpl.
  - apply (rendered_within U). split; [lia | constructor].
  - apply Forall_cons in Hcs as [Hc Hcs].
    apply (then_render_within U); [apply Hrec; assumption|].
    intros h1 y1 Hs _. apply IH; [eapply renderable_shape; eassumption | | exact Hcs].
    destruct Hs as [-> _]. exact HL.
Qed.

Lemma render_styled_within (cs : list ptr) (indent : Z) (h : heap) (y : Z) :
  renderable U W h -> length h = L -> Forall (fun c => lo < c < L) cs ->
  renders_within U h y (render_styled rec W cs indent h y).
Proof.
  revert h y. induction cs as [|c cs IH]; intros h y Hk HL Hcs; simpl.
  - apply (rendered_within U). split; [lia | constructor].
  - apply Forall_cons in Hcs as [Hc Hcs].
    apply then_render_within.
    + assert (Hr : renders_within U h y (rec h c y indent)) by (apply Hrec; assumption).
      destruct (type (h !!! c)); try exact Hr.
      destruct (text (h !!! c)) as [t|]; [|exact Hr].
      destruct (render_wrapped_text W y indent t) as [y' ds] eqn:E.
      apply (rendered_within U). eapply render_wrapped_text_rows. exact E.
    + intros h1 y1 Hs _. apply IH; [eapply renderable_shape; eassumption | | exact Hcs].
      destruct Hs as [-> _]. exact HL.
Qed.

Lemma rows_in_range (y y' : Z) : Forall (fun ly => (y <= ly < y')%Z) (rows y y').
Proof.
  unfold rows. apply Forall_forall. intros ly Hly.
  apply list_elem_of_fmap in Hly as (k & -> & Hk).
  apply elem_of_seq in Hk. lia.
Qed.

Lemma render_quoted_within (cs : list ptr) (indent : Z) (h : heap) (y : Z) :
  renderable U W h -> length h = L -> Forall (fun c => lo < c < L) cs ->
  renders_within U h y (render_quoted rec cs indent h y).
Proof.
  revert h y. induction cs as [|c cs IH]; intros h y Hk HL Hcs; simpl.
  - apply (rendered_within U). split; [lia | constructor].
  - apply Forall_cons in Hcs as [Hc Hcs].
    apply then_render_within.
    + (* the child, then its bars *)
      pose proof (Hrec h c y (indent + 3)%Z Hk HL Hc) as Hr.
      destruct (rec h c y (indent + 3)%Z) as [h1 y1 ds1| |]; simpl in *; auto.
      destruct Hr as [[Hle Hall] Hs]. split; [|exact Hs]. split; [lia|].
      apply Forall_app. split; [exact Hall|].
      apply Forall_fmap. eapply Forall_impl; [apply rows_in_range|].
      simpl. intros; lia.
    + intros h1 y1 Hs _. apply IH; [eapply renderable_shape; eassumption | | exact Hcs].
      destruct Hs as [-> _]. exact HL.
Qed.

Lemma render_numbered_within (cs : list ptr) (i : Z) (indent : Z) (h : heap) (y : Z) :
  renderable U W h -> length h = L -> Forall (fun c => lo < c < L) cs ->
  renders_within U h y (render_numbered rec cs i indent h y).
Proof.
  revert i h y. induction cs as [|c cs IH]; intros i h y Hk HL Hcs; simpl.
  - apply (rendered_within U). split; [lia | constructor].
  - apply Forall_cons in Hcs as [Hc Hcs].
    pose proof (same_shape_list_number h (i + 1) c) as Hs0.
    set (h0 := alter (with_list_number (i + 1)) c h) in *.
    assert (Hk0 : renderable U W h0) by (eapply renderable_shape; eassumption).
    assert (HL0 : length h0 = L) by (destruct Hs0 as [-> _]; exact HL).
    pose proof (Hrec h0 c y indent Hk0 HL0 Hc) as Hr.
    assert (Hr' : renders_within U h y (rec h0 c y indent)).
    { destruct (rec h0 c y indent) as [h1 y1 ds1| |]; simpl in *; auto.
      destruct Hr as [Hrows Hs]. split; [exact Hrows|].
      eapply same_shape_trans; eassumption. }
    apply (then_render_within U); [exact Hr'|].
    intros h1 y1 Hs _. apply IH; [eapply renderable_shape; eassumption | | exact Hcs].
    destruct Hs as [-> _]. exact HL.
Qed.

Lemma render_top_within (pad_h : Z) (cs : list ptr) (h : heap) (y : Z) :
  renderable U W h -> length h = L -> Forall (fun c => lo < c < L) cs ->
  renders_within U h y (render_top rec pad_h cs h y).
Proof.
  revert h y. induction cs as [|c cs IH]; intros h y Hk HL Hcs; simpl.
  - apply (rendered_within U). split; [lia | constructor].
  - apply Forall_cons in Hcs as [Hc Hcs].
    apply (then_render_within U); [apply Hrec; assumption|].
    intros h1 y1 Hs _. destruct (y1 >=? pad_h - 50)%Z.
    + apply (rendered_within U). split; [lia | constructor].
    + apply IH; [eapply renderable_shape; eassumption | | exact Hcs].
      destruct Hs as [-> _]. exact HL.
Qed.

End ChildLoops.

Ltac within_step :=
  match goal with
  | |- renders_within ?U _ _ (then_render _ _) =>
      apply (then_render_within U); [|intros ? ? ? ?]
  | |- renders_within ?U _ _ (one_line _ _ _ _) => apply (one_line_within U)
  | |- renders_within ?U ?h _ (Rendered ?h _ []) =>
      apply (rendered_within U); split; [lia | constructor]
  | |- renders_within ?U _ _ (match first_text ?h ?n with _ => _ end) =>
      destruct (first_text h n)
  | |- renders_within ?U _ _ (match joined_text ?s ?h ?n with _ => _ end) =>
      destruct (joined_text s h n)
  | |- renders_within ?U _ _
         (let '(_, _) := render_wrapped_text ?W ?y ?i ?t in _) =>
      let E := fresh "E" in
      destruct (render_wrapped_text W y i t) eqn:E;
      apply (rendered_within U); eapply render_wrapped_text_rows; exact E
  | |- renders_within ?U _ _ (match render_code_block ?W ?y ?t with _ => _ end) =>
      let E := fresh "E" in
      destruct (render_code_block W y t) as [[? ?]|] eqn:E;
      [apply (rendered_within U); eapply render_code_block_rows; exact E
      |apply render_code_block_none in E]
  | |- renders_within ?U _ _ (match render_table_node ?y ?h ?n with _ => _ end) =>
      let E := fresh "E" in
      destruct (render_table_node y h n) as [[? ?]|] eqn:E;
      [apply (rendered_within U); eapply render_table_node_rows; exact E|]
  end.

Lemma render_node_within (U : Prop) (fuel : nat) (W : Z) (h : heap) (n : ptr) (y indent : Z) :
  renderable U W h -> n < length h -> length h - n <= fuel ->
  renders_within U h y (render_node_recursive fuel W h n y indent).
Proof.
  revert h n y indent. induction fuel as [|fuel IH]; intros h n y indent Hk Hn Hf;
    [lia|].
  assert (Hrec : rec_ok U W (render_node_recursive fuel W) (length h) n).
  { intros h1 c y1 i1 Hk1 HL1 Hc. apply IH; [exact Hk1 | lia | lia]. }
  assert (Hkids : Forall (fun c => n < c < length h) (children (h !!! n))).
  { apply Forall_forall. intros c Hc. apply (proj1 Hk). apply list_elem_of_In. exact Hc. }
  assert (Hloop : forall h1, same_shape h h1 -> renderable U W h1 /\ length h1 = length h).
  { intros h1 Hs. split; [eapply renderable_shape; eassumption | apply Hs]. }
  assert (Heach : forall cs ind h1 y1,
             same_shape h h1 -> Forall (fun c => n < c < length h) cs ->
             renders_within U h1 y1
               (render_each (render_node_recursive fuel W) cs ind h1 y1)).
  { intros cs ind h1 y1 Hs Hcs. destruct (Hloop h1 Hs).
    eapply render_each_within; eassumption. }
  pose proof (same_shape_refl h) as Hrefl.
  cbn [render_node_recursive]. cbv zeta.
  destruct (type (h !!! n)) eqn:Ht; cbn [is_transparent]; cbv iota.
  - (* NODE_TEXT *) destruct (text (h !!! n)); repeat within_step.
  - (* NODE_BR *) apply (rendered_within U). split; [lia | constructor].
  - (* NODE_HR *)
    apply (rendered_within U). split; [lia|].
    eapply Forall_impl; [apply put_run_rows|]. simpl. intros; lia.
  - (* NODE_DIV *) apply Heach; assumption.
  - (* NODE_HEADER *) repeat within_step.
  - (* NODE_PARAGRAPH *)
    repeat within_step. apply Heach; assumption.
  - (* NODE_PRE *) repeat within_step. apply Hk. assumption.
  - (* NODE_CODE *) repeat within_step. apply Hk. assumption.
  - (* NODE_BOLD *) eapply render_styled_within; eauto.
  - (* NODE_ITALIC *) eapply render_styled_within; eauto.
  - (* NODE_MARK *) eapply render_styled_within; eauto.
  - (* NODE_UNDER *) eapply render_styled_within; eauto.
  - (* NODE_STRIKE *)
    apply (then_render_back U); [apply Heach; assumption|].
    intros h1 y1 Hs Hle. split; [lia|]. split; [|apply same_shape_refl].
    apply Forall_forall. intros d Hd.
    apply list_elem_of_In, in_flat_map in Hd as (ly & Hly & Hd).
    pose proof (rows_in_range y y1) as Hr. rewrite Forall_forall in Hr.
    apply list_elem_of_In in Hly. specialize (Hr ly Hly).
    pose proof (put_run_rows ly indent "-" (Z.to_nat (W - indent))) as Hp.
    rewrite Forall_forall in Hp. apply list_elem_of_In in Hd.
    rewrite (Hp d Hd). lia.
  - (* NODE_BLOCKQUOTE *)
    repeat within_step.
    match goal with
    | Hs : same_shape h ?h1 |- renders_within U ?h1 _ _ =>
        destruct (Hloop h1 Hs); eapply render_quoted_within; eassumption
    end.
  - (* NODE_UL *)
    repeat within_step. apply Heach; assumption.
  - (* NODE_OL *)
    repeat within_step. eapply render_numbered_within; eauto.
  - (* NODE_LI *)
    destruct (if (list_number (h !!! n) >? 0)%Z then _ else _) as [marker step].
    destruct (first_text h n) as [t|].
    + destruct (render_wrapped_text W y _ t) as [y' ds] eqn:E.
      apply (rendered_within U). apply render_wrapped_text_rows in E as [[H1 H2] H3].
      split; [lia|]. constructor; [simpl; lia | exact H2].
    + repeat within_step. apply Heach; assumption.
  - (* NODE_DL *)
    repeat within_step. apply Heach; assumption.
  - (* NODE_DT *) repeat within_step.
  - (* NODE_DD *) repeat within_step.
  - (* NODE_IMG *) repeat within_step.
  - (* NODE_FIGURE *) apply Heach; assumption.
  - (* NODE_FIGCAP *) repeat within_step.
  - (* NODE_DETAILS *)
    destruct (find_summary h (children (h !!! n))) as [summary|];
      [|apply Heach; assumption].
    destruct (children (h !!! summary)) as [|c cs]; [apply Heach; assumption|].
    destruct (type (h !!! c)) eqn:Htc; try (apply Heach; assumption).
    destruct (text (h !!! c)) as [t|] eqn:Htx;
      [|destruct Hk as (_ & _ & _ & Hnull); exact (Hnull c Htc Htx)].
    within_step; [apply (one_line_within U)|].
    destruct (negb _).
    + apply Heach; [assumption|]. apply Forall_forall. intros c0 Hc0.
      apply list_elem_of_filter in Hc0 as [_ Hc0].
      rewrite Forall_forall in Hkids. apply Hkids. exact Hc0.
    + apply (rendered_within U). split; [lia | constructor].
  - (* NODE_SUMMARY *) apply Heach; assumption.
  - (* NODE_TABLE *)
    repeat within_step. destruct Hk as (_ & _ & Htab & _). exact (Htab n Ht).
  - (* NODE_TR *) apply Heach; assumption.
  - (* NODE_TD *) apply Heach; assumption.
  - (* NODE_TH *) apply Heach; assumption.
  - (* NODE_A *) apply (one_line_within U).
  - (* NODE_FORM *) repeat within_step. apply Heach; assumption.
  - (* NODE_INPUT *) apply (one_line_within U).
  - (* NODE_TEXTAREA *) repeat within_step.
  - (* NODE_SELECT *) apply Heach; assumption.
  - (* NODE_BUTTON *) apply (one_line_within U).
  - (* NODE_MAIN *) apply Heach; assumption.
  - (* NODE_HEADERBAR *) apply Heach; assumption.
  - (* NODE_FOOTER *) apply Heach; assumption.
Qed.

Lemma parsed_tree_renderable (W : Z) (h : heap) :
  tree_wf h -> (forall j, j < length h -> node_ok h j) ->
  renderable ((1028 <= W)%Z \/ exists j, type (h !!! j) = NODE_TABLE) W h.
Proof.
  intros Htree Hok. split; [apply tree_wf_kids_after; exact Htree|].
  split; [auto|]. split; [eauto|].
  intros j Hj Hnull. exfalso.
  destruct (Nat.lt_ge_cases j (length h)) as [Hlt|Hge].
  - destruct (Hok j Hlt) as (_ & _ & _ & _ & Hty). rewrite Hj in Hty.
    destruct Hty as (_ & x & Hx & _). congruence.
  - rewrite list_lookup_total_alt, lookup_ge_None_2 in Hj by lia. discriminate.
Qed.

(** Rendering a tree the builder returned, at any width: the
    recursion ends within the depth [render_document] allows; every
    write starts on a row from 0 up to, not including, the final [y]
    (and [g_pad_cur_y] is [y + 4]); the tree is left as it was but for
    [list_number] fields.  The rendering is undefined only on a
    terminal of 1028 columns or more or for a tree with a table. *)
Theorem render_document_stays_in_rows (html : cstr) (r : ptr) (h : heap)
    (final : pstate) (t : bool) (W : Z) :
  parse_html_tree html = Returned r h final t ->
  renders_within ((1028 <= W)%Z \/ exists j, type (h !!! j) = NODE_TABLE)
                 h 0 (render_document W h r).
Proof.
  intros E. destruct (parsed_tree_facts _ _ _ _ _ E) as (-> & Hlen & Htree & Hok).
  pose proof (parsed_tree_renderable W h Htree Hok) as Hr.
  unfold render_document.
  eapply (render_top_within _ W _ (length h) 0); [|exact Hr | reflexivity|].
  - intros h1 c y1 i1 Hk1 HL1 Hc. apply render_node_within; [exact Hk1 | lia | lia].
  - apply Forall_forall. intros c Hc. apply (proj1 Hr). apply list_elem_of_In. exact Hc.
Qed.

Lemma render_document_stays_in_rows_witness :
  exists h final,
    parse_html_tree (lit "<h1>T</h1><ol><li>a</li></ol><pre>x</pre>")
    = Returned 0 h final false
    /\ renders_within ((1028 <= 80)%Z \/ exists j, type (h !!! j) = NODE_TABLE)
                      h 0 (render_document 80 h 0).
Proof.
  eexists _, _. split; [vm_compute; reflexivity|].
  eapply (render_document_stays_in_rows
            (lit "<h1>T</h1><ol><li>a</li></ol><pre>x</pre>")).
  vm_compute. reflexivity.
Defined.

Lemma find_summary_from (h : heap) (cs : list ptr) (acc : option ptr) (s : ptr) :
  fold_left
    (fun summary c =>
       match type (h !!! c) with NODE_SUMMARY => Some c | _ => summary end)
    cs acc = Some s ->
  acc = Some s \/ In s cs.
Proof.
  revert acc. induction cs as [|c cs IH]; intros acc; simpl; [auto|].
  intros H. apply IH in H as [H|H]; [|auto].
  destruct (type (h !!! c)); auto. injection H as <-. auto.
Qed.

Lemma find_summary_In (h : heap) (cs : list ptr) (s : ptr) :
  find_summary h cs = Some s -> In s cs.
Proof.
  intros H. apply find_summary_from in H as [H|H]; [discriminate | exact H].
Qed.

(** [expanded] is set by nothing: a details node of a parsed tree,
    with a summary that begins with a text, is always drawn collapsed,
    as the one row "> summary (>)"; its other children are not drawn. *)
Theorem details_stay_collapsed (html : cstr) (r : ptr) (h : heap)
    (final : pstate) (t : bool) (n summary c : ptr) (cs : list ptr)
    (fuel : nat) (W y indent : Z) :
  parse_html_tree html = Returned r h final t ->
  n < length h ->
  type (h !!! n) = NODE_DETAILS ->
  find_summary h (children (h !!! n)) = Some summary ->
  children (h !!! summary) = c :: cs ->
  type (h !!! c) = NODE_TEXT ->
  exists txt,
    text (h !!! c) = Some txt
    /\ render_node_recursive (S fuel) W h n y indent
       = Rendered h (y + 1)%Z [mvwaddstr y indent (lit "> " ++ txt ++ lit " (>)")].
Proof.
  intros E Hn Ht Hsum Hkids Htc.
  destruct (parsed_tree_facts _ _ _ _ _ E) as (_ & _ & Htree & Hok).
  pose proof (tree_wf_kids_after h Htree) as Hk.
  assert (Hs : summary < length h)
    by (apply find_summary_In in Hsum; apply Hk in Hsum; lia).
  assert (Hc : c < length h).
  { assert (In c (children (h !!! summary))) by (rewrite Hkids; left; reflexivity).
    apply Hk in H. lia. }
  destruct (Hok c Hc) as (_ & _ & _ & _ & Hty). rewrite Htc in Hty.
  destruct Hty as (_ & txt & Htxt & _).
  destruct (Hok n Hn) as (Hexp & _).
  exists txt. split; [exact Htxt|].
  cbn [render_node_recursive]. cbv zeta. rewrite Ht. cbn [is_transparent]. cbv iota.
  rewrite Hsum, Hkids, Htc, Htxt, Hexp. reflexivity.
Qed.

Lemma details_stay_collapsed_witness :
  exists h final txt,
    parse_html_tree (lit "<details><summary>More</summary>hidden</details>")
    = Returned 0 h final false
    /\ text (h !!! 3) = Some txt
    /\ render_node_recursive (S 5) 80 h 1 0 0
       = Rendered h (0 + 1)%Z [mvwaddstr 0 0 (lit "> " ++ txt ++ lit " (>)")].
Proof.
  eexists _, _.
  destruct (details_stay_collapsed
              (lit "<details><summary>More</summary>hidden</details>")
              0 _ _ false 1 2 3 [] 5 80 0 0
              ltac:(vm_compute; reflexivity) ltac:(vm_compute; lia)
              eq_refl eq_refl eq_refl eq_refl) as (txt & H).
  exists txt. split; [vm_compute; reflexivity | exact H].
Defined.

Lemma kids_after_renderable (W : Z) (h : heap) : kids_after h -> renderable True W h.
Proof. intros Hk. split; [exact Hk|]. repeat split. Qed.

Lemma li_draws_its_number (fuel : nat) (W : Z) (h : heap) (li : ptr)
    (y indent : Z) (k : Z) (h' : heap) (y' : Z) (ds : list draw) :
  li < length h -> type (h !!! li) = NODE_LI -> (0 <= k)%Z ->
  render_node_recursive fuel W (alter (with_list_number (k + 1)) li h) li y indent
  = Rendered h' y' ds ->
  exists ds', ds = mvwaddstr y indent (decimal (k + 1) ++ lit ". ") :: ds'.
Proof.
  intros Hli Ht Hk. destruct fuel as [|fuel]; [discriminate|].
  cbn [render_node_recursive]. cbv zeta.
  assert (Hnode : alter (with_list_number (k + 1)) li h !!! li
                  = with_list_number (k + 1) (h !!! li)).
  { rewrite list_lookup_total_alt, list_lookup_alter_eq.
    rewrite (list_lookup_lookup_total_lt h li) by lia. reflexivity. }
  rewrite Hnode. cbn [type with_list_number list_number children].
  rewrite Ht. cbn [is_transparent]. cbv iota.
  assert (Hpos : (k + 1 >? 0)%Z = true) by (apply Z.gtb_lt; lia).
  rewrite Hpos.
  destruct (first_text _ li) as [t|].
  - destruct (render_wrapped_text W y _ t) as [y1 d1].
    intros [= <- <- <-]. eexists. reflexivity.
  - unfold one_line. cbn [then_render].
    destruct (render_each _ _ _ _ _) as [h1 y1 d1| |]; try discriminate.
    intros [= <- <- <-]. eexists. reflexivity.
Qed.

Lemma render_numbered_markers (fuel : nat) (W : Z) (n : nat) (cs : list ptr)
    (i0 : Z) (indent : Z) (h : heap) (y : Z) (h' : heap) (y' : Z)
    (ds : list draw) :
  (0 <= i0)%Z ->
  kids_after h -> length h - n - 1 <= fuel ->
  Forall (fun c => n < c < length h) cs ->
  render_numbered (render_node_recursive fuel W) cs i0 indent h y
  = Rendered h' y' ds ->
  forall k li, cs !! k = Some li -> type (h !!! li) = NODE_LI ->
    exists row,
      In (mvwaddstr row indent (decimal (i0 + Z.of_nat k + 1) ++ lit ". ")) ds.
Proof.
  revert i0 h y h' y' ds.
  induction cs as [|c cs IH]; intros i0 h y h' y' ds Hi Hk Hf Hcs E k li Hl Ht;
    [discriminate|].
  apply Forall_cons in Hcs as [Hc Hcs].
  cbn [render_numbered] in E.
  pose proof (same_shape_list_number h (i0 + 1) c) as Hs0.
  set (h0 := alter (with_list_number (i0 + 1)) c h) in *.
  assert (Hk0 : kids_after h0) by (eapply kids_after_shape; eassumption).
  assert (HL0 : length h0 = length h) by apply Hs0.
  pose proof (render_node_within True fuel W h0 c y indent
                (kids_after_renderable W h0 Hk0) ltac:(lia) ltac:(lia)) as Hr.
  destruct (render_node_recursive fuel W h0 c y indent) as [h1 y1 d1| |] eqn:E1;
    try discriminate.
  cbn [then_render] in E.
  destruct (render_numbered _ cs (i0 + 1) indent h1 y1) as [h2 y2 d2| |] eqn:E2;
    try discriminate.
  injection E as <- <- <-.
  destruct Hr as [_ Hs1].
  destruct k as [|k].
  - injection Hl as <-.
    destruct (li_draws_its_number fuel W h c y indent i0 h1 y1 d1
                ltac:(lia) Ht Hi E1) as [d' ->].
    exists y. replace (i0 + Z.of_nat 0 + 1)%Z with (i0 + 1)%Z by lia.
    left. reflexivity.
  - pose proof (same_shape_trans _ _ _ Hs0 Hs1) as Hs.
    destruct (IH (i0 + 1)%Z h1 y1 h2 y2 d2) with (k := k) (li := li)
      as [row Hrow]; try assumption.
    + lia.
    + eapply kids_after_shape; eassumption.
    + destruct Hs as [-> _]. lia.
    + destruct Hs as [-> _]. exact Hcs.
    + destruct Hs as [_ F]. destruct (F li) as [-> _]. exact Ht.
    + exists row. apply in_or_app. right.
      replace (i0 + Z.of_nat (S k) + 1)%Z with (i0 + 1 + Z.of_nat k + 1)%Z by lia.
      exact Hrow.
Qed.

(** The number of a list item is its position among all the
    children of the ordered list, counted from 1, not among the items:
    when an ordered list of a parsed tree is rendered, the child at
    index [k], if it is a list item, is drawn with the marker
    "k+1. " at the list's indent. *)
Theorem ol_numbers_count_all_children (html : cstr) (r : ptr) (h : heap)
    (final : pstate) (t : bool) (n : ptr) (fuel : nat) (W y indent : Z)
    (h' : heap) (y' : Z) (ds : list draw) :
  parse_html_tree html = Returned r h final t ->
  n < length h -> type (h !!! n) = NODE_OL -> length h - n <= fuel ->
  render_node_recursive fuel W h n y indent = Rendered h' y' ds ->
  forall k li,
    children (h !!! n) !! k = Some li -> type (h !!! li) = NODE_LI ->
    exists row,
      In (mvwaddstr row indent (decimal (Z.of_nat k + 1) ++ lit ". ")) ds.
Proof.
  intros E Hn Ht Hf Hr k li Hl Hli.
  destruct (parsed_tree_facts _ _ _ _ _ E) as (_ & _ & Htree & _).
  pose proof (tree_wf_kids_after h Htree) as Hk.
  destruct fuel as [|fuel]; [lia|].
  cbn [render_node_recursive] in Hr. cbv zeta in Hr. rewrite Ht in Hr.
  cbn [is_transparent] in Hr. cbv iota in Hr.
  destruct (render_numbered _ _ 0 indent h y) as [h1 y1 d1| |] eqn:E1;
    try discriminate.
  cbn [then_render] in Hr. injection Hr as <- <- <-.
  destruct (render_numbered_markers fuel W n (children (h !!! n)) 0 indent h y
              h1 y1 d1) with (k := k) (li := li) as [row Hrow];
    try assumption; try lia.
  - apply Forall_forall. intros c Hc. apply Hk. apply list_elem_of_In. exact Hc.
  - exists row. apply in_or_app. left. exact Hrow.
Qed.

Lemma ol_numbers_count_all_children_witness :
  exists h final h' y' ds,
    parse_html_tree (lit "<ol>note<li>a</li></ol>") = Returned 0 h final false
    /\ render_node_recursive 5 80 h 1 0 0 = Rendered h' y' ds
    /\ exists row, In (mvwaddstr row 0 (decimal (Z.of_nat 1 + 1) ++ lit ". ")) ds.
Proof.
  eexists _, _, _, _, _. split; [vm_compute; reflexivity|].
  split; [vm_compute; reflexivity|].
  eapply (ol_numbers_count_all_children (lit "<ol>note<li>a</li></ol>")
            0 _ _ false 1 5 80 0 0).
  - vm_compute. reflexivity.
  - vm_compute. lia.
  - reflexivity.
  - vm_compute. lia.
  - vm_compute. reflexivity.
  - reflexivity.
  - reflexivity.
Defined.

Lemma cell_at_app (a b : list draw) (y x : Z) :
  cell_at (a ++ b) y x
  = match cell_at b y x with Some c => Some c | None => cell_at a y x end.
Proof.
  induction a as [|d a IH]; simpl.
  - destruct (cell_at b y x); reflexivity.
  - rewrite IH. destruct (cell_at b y x); reflexivity.
Qed.

Lemma cell_at_put_run (ly x0 : Z) (c : ascii) (k : nat) (y x : Z) :
  cell_at (put_run ly x0 c k) y x
  = if (ly =? y)%Z && (x0 <=? x)%Z && (x <? x0 + Z.of_nat k)%Z
    then Some c else None.
Proof.
  revert x0. induction k as [|k IH]; intros x0; cbn [put_run cell_at].
  - destruct (ly =? y)%Z, (x0 <=? x)%Z eqn:E1, (x <? x0 + Z.of_nat 0)%Z eqn:E2;
      try reflexivity. apply Z.leb_le in E1. apply Z.ltb_lt in E2. lia.
  - rewrite IH. cbn [covers].
    destruct (Z.eqb_spec ly y); cbn [andb]; [|reflexivity].
    destruct (Z.leb_spec (x0 + 1) x), (Z.ltb_spec x (x0 + 1 + Z.of_nat k)),
             (Z.eqb_spec x0 x), (Z.leb_spec x0 x),
             (Z.ltb_spec x (x0 + Z.of_nat (S k)));
      cbn [andb]; try reflexivity; lia.
Qed.

Lemma cell_at_dashes (from to indent W y x : Z) :
  (from <= y < to)%Z -> (indent <= x < W)%Z ->
  cell_at (flat_map (fun ly => put_run ly indent "-" (Z.to_nat (W - indent)))
                    (rows from to)) y x
  = Some "-".
Proof.
  intros Hy Hx. unfold rows.
  assert (Hin : In (Z.to_nat (y - from)) (seq 0 (Z.to_nat (to - from))))
    by (apply in_seq; lia).
  revert Hin. generalize (seq 0 (Z.to_nat (to - from))).
  induction l as [|k l IH]; [intros []|].
  cbn [map flat_map]. rewrite cell_at_app. intros [->|Hin].
  - destruct (cell_at (flat_map _ _) y x) eqn:E.
    + clear -E. revert E. generalize (map (fun k => (from + Z.of_nat k)%Z) l).
      intros l0. induction l0 as [|ly l0 IH]; [discriminate|].
      cbn [flat_map]. rewrite cell_at_app.
      destruct (cell_at (flat_map _ l0) y x) eqn:E0.
      * intros [= <-]. apply IH. reflexivity.
      * rewrite cell_at_put_run. destruct (_ && _ && _); congruence.
    + rewrite cell_at_put_run.
      replace (from + Z.of_nat (Z.to_nat (y - from)))%Z with y by lia.
      rewrite Z.eqb_refl.
      destruct (Z.leb_spec indent x), (Z.ltb_spec x (indent + Z.of_nat (Z.to_nat (W - indent))));
        cbn [andb]; try reflexivity; lia.
  - rewrite (IH Hin). reflexivity.
Qed.

(** What a strike node leaves on the pad: on every row it advanced
    over, every cell from its indent up to the width holds [-] after
    the rendering, whatever its children wrote there. *)
Theorem strike_overwrites_its_rows (fuel : nat) (W : Z) (h : heap) (n : ptr)
    (y indent : Z) (h' : heap) (y' : Z) (ds : list draw) :
  type (h !!! n) = NODE_STRIKE ->
  render_node_recursive fuel W h n y indent = Rendered h' y' ds ->
  forall row col, (y <= row < y')%Z -> (indent <= col < W)%Z ->
                  cell_at ds row col = Some "-".
Proof.
  intros Ht. destruct fuel as [|fuel]; [discriminate|].
  cbn [render_node_recursive]. cbv zeta. rewrite Ht. cbn [is_transparent]. cbv iota.
  destruct (render_each _ _ _ _ _) as [h1 y1 ds1| |]; simpl; try discriminate.
  intros [= <- <- <-] row col Hrow Hcol.
  rewrite cell_at_app, cell_at_dashes by assumption. reflexivity.
Qed.

Lemma strike_overwrites_its_rows_witness :
  exists h' y' ds,
    render_node_recursive 2 10
      [with_children (fun _ => [1]) (fresh_node NODE_STRIKE);
       with_text (Some (lit "gone")) (fresh_node NODE_TEXT)] 0 0 2
    = Rendered h' y' ds
    /\ cell_at ds 0 3 = Some "-".
Proof.
  eexists _, _, _. split; [vm_compute; reflexivity|].
  eapply (strike_overwrites_its_rows 2 10
            [with_children (fun _ => [1]) (fresh_node NODE_STRIKE);
             with_text (Some (lit "gone")) (fresh_node NODE_TEXT)]
            0 0 2).
  - reflexivity.
  - vm_compute. reflexivity.
  - lia.
  - lia.
Defined.

(** nested content *)
Lemma joined_text_no_text (sep : cstr) (h : heap) (n : ptr) :
  Forall (fun c => type (h !!! c) <> NODE_TEXT) (children (h !!! n)) ->
  joined_text sep h n = [].
Proof.
  unfold joined_text. generalize (children (h !!! n)).
  induction 1 as [|c cs Hc _ IH]; [reflexivity|].
  cbn [fold_left]. destruct (type (h !!! c)); try exact IH. congruence.
Qed.

(** Headings, links, pre and code blocks draw the texts of their
    text children and never descend: when no child is a text node,
    whatever the children contain, a heading draws nothing and takes
    no row, a link draws "[link]", and a pre or code block draws an
    empty box (its two borders).  The code sample of
    "<pre><code>...</code></pre>" is therefore not drawn. *)
Theorem nested_content_is_not_drawn (fuel : nat) (W : Z) (h : heap) (n : ptr)
    (y indent : Z) :
  Forall (fun c => type (h !!! c) <> NODE_TEXT) (children (h !!! n)) ->
  (type (h !!! n) = NODE_HEADER ->
   render_node_recursive (S fuel) W h n y indent = Rendered h y [])
  /\ (type (h !!! n) = NODE_A ->
      render_node_recursive (S fuel) W h n y indent
      = Rendered h (y + 1)%Z [mvwaddstr y indent (lit "[link]")])
  /\ (type (h !!! n) = NODE_PRE \/ type (h !!! n) = NODE_CODE ->
      render_node_recursive (S fuel) W h n y indent
      = Rendered h (y + 2)%Z
          [mvwaddstr y 0 (box_border (code_box_width W));
           mvwaddstr (y + 1) 0 (box_border (code_box_width W))]).
Proof.
  intros Hno. split; [|split].
  - intros Ht. cbn [render_node_recursive]. cbv zeta. rewrite Ht.
    cbn [is_transparent]. cbv iota. rewrite joined_text_no_text by exact Hno.
    reflexivity.
  - intros Ht. cbn [render_node_recursive]. cbv zeta. rewrite Ht.
    cbn [is_transparent]. cbv iota. rewrite joined_text_no_text by exact Hno.
    reflexivity.
  - intros [Ht|Ht]; cbn [render_node_recursive]; cbv zeta; rewrite Ht;
      cbn [is_transparent]; cbv iota; rewrite joined_text_no_text by exact Hno;
      unfold render_code_block; cbn [strtok_lines code_lines];
      unfold code_border, box_border;
      replace (y + 1 + 1)%Z with (y + 2)%Z by lia; reflexivity.
Qed.

Lemma nested_content_is_not_drawn_witness :
  exists h final,
    parse_html_tree (lit "<pre><code>int main() {}</code></pre>")
    = Returned 0 h final false
    /\ text (h !!! 3) = Some (lit "int main() {}")
    /\ render_node_recursive (S 3) 80 h 1 0 0
       = Rendered h (0 + 2)%Z
           [mvwaddstr 0 0 (box_border (code_box_width 80));
            mvwaddstr (0 + 1) 0 (box_border (code_box_width 80))].
Proof.
  eexists _, _. split; [vm_compute; reflexivity|]. split; [reflexivity|].
  eapply (nested_content_is_not_drawn 3 80 _ 1 0 0).
  - repeat constructor; discriminate.
  - left. reflexivity.
Defined.

(** ** Scrolling: line up and line down *)

(** Line up undoes line down, and line down undoes line up,
    wherever the first of the two keys moves the view: from an offset
    that is not negative and has a row left below the viewport, down
    then up returns to the same view; from a positive offset with the
    viewport within the content, up then down does. *)
Theorem line_up_undoes_line_down (v : view) :
  ((0 <= top_pos v)%Z -> (top_pos v + g_term_h v < g_pad_cur_y v)%Z ->
   scroll_key KEY_UP (scroll_key KEY_DOWN v) = v)
  /\ ((0 < top_pos v)%Z -> (top_pos v + g_term_h v <= g_pad_cur_y v)%Z ->
      scroll_key KEY_DOWN (scroll_key KEY_UP v) = v).
Proof.
  destruct v as [top H V]. unfold scroll_key. cbn [top_pos g_pad_cur_y g_term_h].
  split.
  - intros H0 H1. apply Z.ltb_lt in H1. rewrite H1. cbn [top_pos g_pad_cur_y g_term_h].
    replace (top + 1 >? 0)%Z with true by (symmetry; apply Z.gtb_lt; lia).
    f_equal. lia.
  - intros H0 H1. replace (top >? 0)%Z with true by (symmetry; apply Z.gtb_lt; lia).
    cbn [top_pos g_pad_cur_y g_term_h].
    replace (top - 1 + V <? H)%Z with true by (symmetry; apply Z.ltb_lt; lia).
    f_equal. lia.
Qed.
